(** * FileLocker icon generator: [generate_icons.py]

    A shallow embedding of the script that draws the padlock application
    icon with Pillow and writes it into the asset catalogue, together with
    the properties of its specification.

    Layout of the development:
    - [Float64]  Python floats (IEEE 754 binary64, round to nearest even);
    - [Py]       Python numbers (int or float) and their arithmetic;
    - [PIL]      the Pillow calls the script makes, and what a pixel holds
                 after them;
    - [OS]       the part of the file system and of the console the script
                 touches, as a state-and-exception monad;
    - the script itself: [icon_dir], [create_icon], [main];
    - rounding: what one floating-point operation does to the value;
    - the geometry of the lock as fractions of the canvas, and pixels;
    - the properties of the specification, C1 to C10. *)

From Stdlib Require Import ZArith QArith Qabs Qround Qpower Lia Lqa Bool List Ascii String.
From Stdlib Require Import Floats.SpecFloat.
From stdpp Require Import gmap strings pretty.

Local Open Scope Z_scope.

(* ===================================================================== *)
(** ** Python floats *)
(* ===================================================================== *)

Module Float64.

(** CPython's [float] is the C [double]: 53 bits of precision, infinities
    at exponent 1024.  The arithmetic is the reference implementation of
    the Standard Library, which rounds to nearest, ties to even. *)
Definition prec : Z := 53.
Definition emax : Z := 1024.

Definition add : spec_float -> spec_float -> spec_float := SFadd prec emax.
Definition sub : spec_float -> spec_float -> spec_float := SFsub prec emax.
Definition mul : spec_float -> spec_float -> spec_float := SFmul prec emax.
Definition div : spec_float -> spec_float -> spec_float := SFdiv prec emax.

(** [float(n)] for a Python int: the nearest double, ties to even.  (Where
    this is an infinity, from [2^1024 - 2^970] on, CPython raises
    OverflowError instead.) *)
Definition of_int (n : Z) : spec_float := binary_normalize prec emax n 0 false.

(** A decimal literal [num/den], such as [0.6 = 6/10]: the double nearest
    to the fraction, which is what the correctly rounded quotient of the
    two (exactly representable) integers is. *)
Definition literal (num den : Z) : spec_float := div (of_int num) (of_int den).

(** The rational number a float stands for ([0] for infinities and NaN,
    which have none). *)
Definition value (x : spec_float) : Q :=
  match x with
  | S754_finite s m e => (inject_Z (if s then Z.neg m else Z.pos m) * 2 ^ e)%Q
  | _ => 0%Q
  end.

(** The C cast [(int) x]: truncation toward zero. *)
Definition trunc (x : spec_float) : Z :=
  match x with
  | S754_finite s m e =>
      let a := if 0 <=? e then Z.pos m * 2 ^ e else Z.pos m / 2 ^ (- e) in
      if s then - a else a
  | _ => 0
  end.

(** Python's [round(x)]: the nearest integer, ties to the even one. *)
Definition round (x : spec_float) : Z :=
  match x with
  | S754_finite s m e =>
      let a :=
        if 0 <=? e then Z.pos m * 2 ^ e
        else
          let k := 2 ^ (- e) in
          let q := Z.pos m / k in
          let r := Z.pos m mod k in
          match 2 * r ?= k with
          | Lt => q
          | Gt => q + 1
          | Eq => if Z.even q then q else q + 1
          end in
      if s then - a else a
  | _ => 0
  end.

End Float64.

(* ===================================================================== *)
(** ** Python numbers *)
(* ===================================================================== *)

Module Py.

(** The script computes with ints ([size], [scale], their product) and
    with floats (everything multiplied by a decimal literal). *)
Inductive number : Type :=
| Int (n : Z)
| Float (x : spec_float).

Definition to_float (a : number) : spec_float :=
  match a with
  | Int n => Float64.of_int n
  | Float x => x
  end.

(** Binary operators: int with int stays int, anything with a float is
    computed in floats after converting the int operand. *)
Definition mul (a b : number) : number :=
  match a, b with
  | Int m, Int n => Int (m * n)
  | _, _ => Float (Float64.mul (to_float a) (to_float b))
  end.

Definition add (a b : number) : number :=
  match a, b with
  | Int m, Int n => Int (m + n)
  | _, _ => Float (Float64.add (to_float a) (to_float b))
  end.

Definition sub (a b : number) : number :=
  match a, b with
  | Int m, Int n => Int (m - n)
  | _, _ => Float (Float64.sub (to_float a) (to_float b))
  end.

(** True division [a / b] always yields a float.  (Python raises
    ZeroDivisionError for a zero divisor; the script only divides by the
    literal [2].) *)
Definition truediv (a b : number) : number :=
  Float (Float64.div (to_float a) (to_float b)).

(** A decimal literal written [num/den] in the source. *)
Definition dec (num den : Z) : number := Float (Float64.literal num den).

(** The rational value of a number. *)
Definition value (a : number) : Q :=
  match a with
  | Int n => inject_Z n
  | Float x => Float64.value x
  end.

(** [round(a)]. *)
Definition round (a : number) : Z :=
  match a with
  | Int n => n
  | Float x => Float64.round x
  end.

(** What a C function receives after converting the number to [double]
    and casting it to [int]. *)
Definition c_int (a : number) : Z := Float64.trunc (to_float a).

(** [str(n)] of an int, as used by an f-string. *)
Definition str (n : Z) : string := pretty n.

Declare Scope py_scope.
Delimit Scope py_scope with py.
Bind Scope py_scope with number.
Infix "*" := mul : py_scope.
Infix "+" := add : py_scope.
Infix "-" := sub : py_scope.
Infix "/" := truediv : py_scope.

End Py.

(** The exceptions that the calls of the script can raise. *)
Inductive exn : Type :=
| ValueError
| OverflowError
| MemoryError
| FileNotFoundError
| NotADirectoryError
| IsADirectoryError
| FileExistsError.

(* ===================================================================== *)
(** ** Pillow *)
(* ===================================================================== *)

Module PIL.
Import Py.

(** An RGBA pixel, and the RGB triple the script passes as [fill]. *)
Definition colour : Type := Z * Z * Z * Z.
Definition rgb : Type := Z * Z * Z.

(** On an RGBA image an RGB fill is opaque. *)
Definition ink (fill : rgb) : colour :=
  let '(r, g, b) := fill in (r, g, b, 255).

Definition rgb_of (c : colour) : rgb :=
  let '(r, g, b, _) := c in (r, g, b).

(** [[(x0, y0), (x1, y1)]] *)
Definition box : Type := (number * number) * (number * number).

(** The three [ImageDraw] calls of the script, with their arguments. *)
Inductive shape : Type :=
| Ellipse (xy : box) (fill : rgb)
| RoundedRectangle (xy : box) (radius : number) (fill : rgb)
| Rectangle (xy : box) (fill : rgb).

(** An image: its mode, its size, the colour it was allocated with and the
    shapes drawn on it since, oldest first.  [getpixel] below reads a
    pixel off this description. *)
Record Image : Type := {
  mode : string;
  size : Z * Z;
  background : colour;
  drawn : list shape
}.

(** The largest C [int]. *)
Definition int_max : Z := 2147483647.

(** [Image.new(mode, size, color)].  Pillow refuses a negative size
    (ValueError); its C layer takes the two dimensions as C [int]s
    (OverflowError beyond [int_max]) and refuses a line of more than
    [int_max / 4 - 1] pixels (MemoryError).  Within these bounds the image
    is taken to be allocated: the memory of the machine is not part of the
    model. *)
Definition new (mode : string) (size : Z * Z) (color : colour) : exn + Image :=
  if (fst size <? 0) || (snd size <? 0) then inl ValueError
  else if (int_max <? fst size) || (int_max <? snd size) then inl OverflowError
  else if int_max / 4 - 1 <? fst size then inl MemoryError
  else inr {| mode := mode; size := size; background := color; drawn := [] |}.

(** An image without pixels. *)
Definition empty (img : Image) : bool :=
  (fst (size img) =? 0) || (snd (size img) =? 0).

(** [ImageDraw.Draw(img)] draws in place on [img]: each call adds its
    shape on top of what is there. *)
Definition draw (s : shape) (img : Image) : Image :=
  {| mode := mode img; size := size img; background := background img;
     drawn := drawn img ++ [s] |}.

Definition ellipse (xy : box) (fill : rgb) : Image -> Image :=
  draw (Ellipse xy fill).
Definition rounded_rectangle (xy : box) (radius : number) (fill : rgb) : Image -> Image :=
  draw (RoundedRectangle xy radius fill).
Definition rectangle (xy : box) (fill : rgb) : Image -> Image :=
  draw (Rectangle xy fill).

(** *** Which pixels a shape fills

    Pillow's rasteriser is not part of the repository; the shapes are
    given the meaning its C layer ([Draw.c]) and [ImageDraw.py] give them.
    The bounding box of every shape includes both of its corners. *)

(** [rectangle]: the C layer casts the four coordinates to [int] and fills
    the closed box. *)
Definition in_box (x0 y0 x1 y1 x y : Z) : bool :=
  (x0 <=? x) && (x <=? x1) && (y0 <=? y) && (y <=? y1).

(** [ellipse]: the coordinates are cast to [int].  With [a = x1 - x0] and
    [b = y1 - y0], the outline is walked in doubled coordinates about the
    centre (a point is [(2 x - (x0 + x1), 2 y - (y0 + y1))]), over one
    quarter, from [(a, b mod 2)] on the horizontal axis to [(a mod 2, b)] on
    the vertical one.  Each step goes up, up and left, or left, to whichever
    of the three points has the least deviation
    [|a^2 y^2 + b^2 x^2 - a^2 b^2|], the earlier of these on a tie; there is
    no going left from the two innermost columns.  (The C code computes the
    deviation in 64-bit integers, from the 32-bit squares of [a] and [b]:
    here they are unbounded, which is the same for boxes of up to 46340
    pixels.) *)
Definition quarter_delta (a b x y : Z) : Z :=
  Z.abs (a ^ 2 * y ^ 2 + b ^ 2 * x ^ 2 - a ^ 2 * b ^ 2).

Definition quarter_next (a b cx cy : Z) : Z * Z :=
  let up := quarter_delta a b cx (cy + 2) in
  if 1 <? cx then
    let diag := quarter_delta a b (cx - 2) (cy + 2) in
    let left := quarter_delta a b (cx - 2) cy in
    if diag <? up then
      if left <? diag then (cx - 2, cy) else (cx - 2, cy + 2)
    else
      if left <? up then (cx - 2, cy) else (cx, cy + 2)
  else (cx, cy + 2).

(** Where the walk from [(cx, cy)] first comes to row [y]: the points of
    one row are met from the outside in.  The walk is over in at most
    [(a + b) / 2] steps. *)
Fixpoint quarter_reach (fuel : nat) (a b cx cy y : Z) : Z :=
  if y <=? cy then cx
  else
    match fuel with
    | O => cx
    | S fuel' =>
        let '(nx, ny) := quarter_next a b cx cy in
        quarter_reach fuel' a b nx ny y
    end.

(** The filled ellipse has, in each row, the points from the outline to
    its mirror image. *)
Definition reach (a b y : Z) : Z :=
  quarter_reach (Z.to_nat (a + b)) a b a (b mod 2) y.

Definition in_ellipse (x0 y0 x1 y1 x y : Z) : bool :=
  let a := x1 - x0 in
  let b := y1 - y0 in
  (0 <=? a) && (0 <=? b) && in_box x0 y0 x1 y1 x y &&
  (Z.abs (2 * (x - x0) - a) <=? reach a b (Z.abs (2 * (y - y0) - b))).

(** A filled pie slice over one or two quarters: the points of the ellipse
    on the side [sx] of the vertical axis ([-1] left, [1] right, [0]
    either) and on the side [sy] of the horizontal one ([-1] above, [1]
    below, [0] either), the axes included. *)
Definition in_pieslice (x0 y0 x1 y1 sx sy x y : Z) : bool :=
  in_ellipse x0 y0 x1 y1 x y &&
  (0 <=? sx * (2 * (x - x0) - (x1 - x0))) &&
  (0 <=? sy * (2 * (y - y0) - (y1 - y0))).

(** [rounded_rectangle] is composed in Python of the three calls above.
    The corners of the box are rounded with [round]; [d], twice the radius,
    is cut to the width or the height of the box where it takes all of it
    ([full_x], [full_y]).  A box that is all corner is drawn as an ellipse
    and one without radius as a rectangle, both from the coordinates as
    given; any other is made of its corner slices, in boxes of side [d], a
    block between them and, where there are four corners, a strip on each
    side.  ([round], [+] and [-] on the coordinates are Python's; the C
    layer casts what it is given to [int].) *)
Inductive part : Type :=
| Disc (x0 y0 x1 y1 : Z)
| Slice (x0 y0 x1 y1 sx sy : Z)
| Block (x0 y0 x1 y1 : Z).

Definition part_covers (p : part) (x y : Z) : bool :=
  match p with
  | Disc x0 y0 x1 y1 => in_ellipse x0 y0 x1 y1 x y
  | Slice x0 y0 x1 y1 sx sy => in_pieslice x0 y0 x1 y1 sx sy x y
  | Block x0 y0 x1 y1 => in_box x0 y0 x1 y1 x y
  end.

(** [int(d // 2)] for [d >= 0]. *)
Definition half (d : number) : Z := Qfloor (Py.value d / 2).

Definition rounded_parts (xy : box) (radius : number) : list part :=
  let '((fx0, fy0), (fx1, fy1)) := xy in
  let d := (radius * Int 2)%py in
  let x0 := round fx0 in
  let y0 := round fy0 in
  let x1 := round fx1 in
  let y1 := round fy1 in
  let full_x := Qle_bool (inject_Z (x1 - x0 - 1)) (Py.value d) in
  let d := if full_x then Int (x1 - x0) else d in
  let full_y := Qle_bool (inject_Z (y1 - y0 - 1)) (Py.value d) in
  let d := if full_y then Int (y1 - y0) else d in
  if full_x && full_y then [Disc (c_int fx0) (c_int fy0) (c_int fx1) (c_int fy1)]
  else if Qeq_bool (Py.value d) 0 then
    [Block (c_int fx0) (c_int fy0) (c_int fx1) (c_int fy1)]
  else
    let r := half d in
    let xa := c_int (Int x0 + d)%py in
    let ya := c_int (Int y0 + d)%py in
    let xb := c_int (Int x1 - d)%py in
    let yb := c_int (Int y1 - d)%py in
    (if full_x then [Slice x0 y0 xa ya 0 (-1); Slice x0 yb xa y1 0 1]
     else if full_y then [Slice x0 y0 xa ya (-1) 0; Slice xb y0 x1 ya 1 0]
     else [Slice x0 y0 xa ya (-1) (-1); Slice xb y0 x1 ya 1 (-1);
           Slice xb yb x1 y1 1 1; Slice x0 yb xa y1 (-1) 1])
    ++ [if full_x then Block x0 (y0 + r + 1) x1 (y1 - r - 1)
        else Block (x0 + r + 1) y0 (x1 - r - 1) y1]
    ++ (if full_x || full_y then []
        else [Block x0 (y0 + r + 1) (x0 + r) (y1 - r - 1);
              Block (x1 - r) (y0 + r + 1) x1 (y1 - r - 1)]).

Definition covers (s : shape) (x y : Z) : bool :=
  match s with
  | Ellipse ((x0, y0), (x1, y1)) _ =>
      in_ellipse (c_int x0) (c_int y0) (c_int x1) (c_int y1) x y
  | RoundedRectangle xy radius _ =>
      existsb (fun p => part_covers p x y) (rounded_parts xy radius)
  | Rectangle ((x0, y0), (x1, y1)) _ =>
      in_box (c_int x0) (c_int y0) (c_int x1) (c_int y1) x y
  end.

Definition fill_of (s : shape) : rgb :=
  match s with
  | Ellipse _ f | RoundedRectangle _ _ f | Rectangle _ f => f
  end.

(** The colour of point [(x, y)] after drawing [shapes] in order over a
    point of colour [c]. *)
Definition paint (shapes : list shape) (x y : Z) (c : colour) : colour :=
  fold_left (fun c s => if covers s x y then ink (fill_of s) else c) shapes c.

Definition inside (img : Image) (x y : Z) : bool :=
  (0 <=? x) && (x <? fst (size img)) && (0 <=? y) && (y <? snd (size img)).

(** [img.getpixel((x, y))]; [None] stands for the IndexError outside the
    image. *)
Definition getpixel (img : Image) (xy : Z * Z) : option colour :=
  let '(x, y) := xy in
  if inside img x y then Some (paint (drawn img) x y (background img))
  else None.

End PIL.

(* ===================================================================== *)
(** ** Files and console *)
(* ===================================================================== *)

Module OS.

(** What a path names: a directory, or a file holding a saved image. *)
Inductive node : Type :=
| Dir
| File (content : PIL.Image).

(** The state the script acts on: the tree below the working directory,
    keyed by relative path, and the lines printed so far. *)
Record world : Type := {
  fs : gmap string node;
  stdout : list string
}.

(** A command runs on a world, leaves a world, and returns or raises. *)
Definition Script (A : Type) : Type := world -> world * (exn + A).

#[export] Instance script_ret : MRet Script :=
  fun A x w => (w, inr x).

#[export] Instance script_bind : MBind Script :=
  fun A B f m w =>
    match m w with
    | (w', inr x) => f x w'
    | (w', inl e) => (w', inl e)
    end.

Definition lift {A : Type} (r : exn + A) : Script A :=
  fun w => (w, r).

(** [print(s)] *)
Definition print (s : string) : Script unit :=
  fun w => ({| fs := fs w; stdout := stdout w ++ [s] |}, inr tt).

(** The proper ancestors of a path, outermost first:
    [parents "a/b/c" = ["a"; "a/b"]]. *)
Fixpoint parents_from (seen rest : string) : list string :=
  match rest with
  | EmptyString => []
  | String c rest' =>
      let deeper := parents_from (seen +:+ String c EmptyString) rest' in
      if Ascii.eqb c "/"%char then
        match seen with EmptyString => deeper | _ => seen :: deeper end
      else deeper
  end.

Definition parents (p : string) : list string := parents_from "" p.

(** [os.path.dirname(p)] *)
Definition dirname (p : string) : string := List.last (parents p) ""%string.

(** [os.path.join(a, b)] on POSIX. *)
Definition ends_with_slash (a : string) : bool :=
  match String.rev a with
  | String c _ => Ascii.eqb c "/"%char
  | EmptyString => false
  end.

Definition path_join (a b : string) : string :=
  match b with
  | String "/"%char _ => b
  | _ => if String.eqb a "" || ends_with_slash a then a +:+ b else a +:+ "/" +:+ b
  end.

(** One level of [os.makedirs]: an ancestor that is missing is created, one
    that is a directory is kept, one that is a file stops the call. *)
Definition ensure_dir (p : string) : Script unit :=
  fun w =>
    match fs w !! p with
    | None => ({| fs := <[p := Dir]> (fs w); stdout := stdout w |}, inr tt)
    | Some Dir => (w, inr tt)
    | Some (File _) => (w, inl NotADirectoryError)
    end.

(** The last level: [mkdir], whose failure is forgiven when the directory
    exists and [exist_ok] is set. *)
Definition mkdir_leaf (p : string) (exist_ok : bool) : Script unit :=
  fun w =>
    match fs w !! p with
    | None => ({| fs := <[p := Dir]> (fs w); stdout := stdout w |}, inr tt)
    | Some Dir => if exist_ok then (w, inr tt) else (w, inl FileExistsError)
    | Some (File _) => (w, inl FileExistsError)
    end.

Fixpoint each (f : string -> Script unit) (l : list string) : Script unit :=
  match l with
  | [] => mret tt
  | p :: l' => f p ;; each f l'
  end.

(** [os.makedirs(name, exist_ok=exist_ok)] *)
Definition makedirs (name : string) (exist_ok : bool) : Script unit :=
  each ensure_dir (parents name) ;; mkdir_leaf name exist_ok.

(** [img.save(fp)]: the file is opened for writing, which needs its
    directory, and the image is then encoded into it, replacing what the
    file held; the format follows from the extension, [.png] throughout the
    script.  An image without pixels cannot be encoded: the save raises
    ValueError and leaves no file.  (A file that was already at the path is
    cut short by such a failed write; the model, which keeps whole images
    only, leaves it as it was.) *)
Definition save (img : PIL.Image) (fp : string) : Script unit :=
  fun w =>
    let parent :=
      match dirname fp with
      | EmptyString => Some Dir
      | d => fs w !! d
      end in
    match parent with
    | None => (w, inl FileNotFoundError)
    | Some (File _) => (w, inl NotADirectoryError)
    | Some Dir =>
        match fs w !! fp with
        | Some Dir => (w, inl IsADirectoryError)
        | _ =>
            if PIL.empty img then (w, inl ValueError)
            else ({| fs := <[fp := File img]> (fs w); stdout := stdout w |}, inr tt)
        end
    end.

End OS.

(* ===================================================================== *)
(** ** The script *)
(* ===================================================================== *)

Import Py PIL OS.

(** Line 6. *)
Definition icon_dir : string := "FileLocker/Assets.xcassets/AppIcon.appiconset".

(** The local variables of [create_icon] (lines 20 to 23 and 32), as
    functions of its arguments. *)
Definition lock_width (size scale : Z) : number := (Int size * Int scale * dec 6 10)%py.
Definition lock_height (size scale : Z) : number := (Int size * Int scale * dec 6 10)%py.
Definition lock_x (size scale : Z) : number :=
  ((Int size * Int scale - lock_width size scale) / Int 2)%py.
Definition lock_y (size scale : Z) : number :=
  ((Int size * Int scale - lock_height size scale) / Int 2)%py.
Definition shackle_width (size scale : Z) : number := (lock_width size scale * dec 1 10)%py.

Definition transparent : colour := (0, 0, 0, 0).
Definition blue : rgb := (0, 102, 204).
Definition white : rgb := (255, 255, 255).

(** Lines 12 to 48 of [create_icon]: the canvas and what is drawn on it. *)
Definition draw_background (size scale : Z) : Image -> Image :=
  ellipse ((Int 0, Int 0), ((Int size * Int scale)%py, (Int size * Int scale)%py)) blue.

Definition draw_lock (size scale : Z) (img : Image) : Image :=
  let lock_width := lock_width size scale in
  let lock_height := lock_height size scale in
  let lock_x := lock_x size scale in
  let lock_y := lock_y size scale in
  let img :=
    rounded_rectangle
      ((lock_x, lock_y + lock_height * dec 4 10), (lock_x + lock_width, lock_y + lock_height))%py
      (lock_width * dec 1 10)%py
      white img in
  let shackle_width := shackle_width size scale in
  let img :=
    rectangle
      ((lock_x + lock_width * dec 3 10, lock_y),
       (lock_x + lock_width * dec 7 10, lock_y + lock_height * dec 5 10))%py
      white img in
  let img :=
    rectangle
      ((lock_x + lock_width * dec 3 10 - shackle_width, lock_y),
       (lock_x + lock_width * dec 3 10 + shackle_width, lock_y + lock_height * dec 5 10))%py
      white img in
  let img :=
    rectangle
      ((lock_x + lock_width * dec 7 10 - shackle_width, lock_y),
       (lock_x + lock_width * dec 7 10 + shackle_width, lock_y + lock_height * dec 5 10))%py
      white img in
  img.

Definition canvas (size scale : Z) : exn + Image :=
  match PIL.new "RGBA" (size * scale, size * scale) transparent with
  | inl e => inl e
  | inr img => inr (draw_lock size scale (draw_background size scale img))
  end.

(** Lines 51 to 54. *)
Definition filename (size scale : Z) : string :=
  let filename := "app_icon_" +:+ str size +:+ "x" +:+ str size in
  let filename := if 1 <? scale then filename +:+ "@" +:+ str scale +:+ "x" else filename in
  filename +:+ ".png".

Definition filepath (size scale : Z) : string :=
  path_join icon_dir (filename size scale).

(** [create_icon(size, scale)] *)
Definition create_icon (size scale : Z) : Script unit :=
  img ← lift (canvas size scale);
  let filepath := filepath size scale in
  save img filepath ;;
  print ("生成图标: " +:+ filepath).

(** The module body: line 7, then lines 60 to 63. *)
Definition main : Script unit :=
  makedirs icon_dir true ;;
  create_icon 512 1 ;;
  create_icon 512 2 ;;
  print "图标生成完成!".

Definition empty_world : world := {| fs := ∅; stdout := [] |}.



(* ===================================================================== *)
(** ** Vocabulary of the properties *)
(* ===================================================================== *)

(** What a world holds at a path. *)
Definition is_dir (w : world) (p : string) : Prop := fs w !! p = Some Dir.
Definition not_a_file (w : world) (p : string) : Prop :=
  forall c, fs w !! p <> Some (File c).

(** A world in which only the icon directory exists. *)
Definition icon_dir_world : world :=
  {| fs := <[icon_dir := Dir]> ∅; stdout := [] |}.

(** Whether a character occurs in a string. *)
Fixpoint occurs (c : ascii) (s : string) : bool :=
  match s with
  | EmptyString => false
  | String d s' => Ascii.eqb c d || occurs c s'
  end.

Definition is_rounded_rectangle (s : shape) : bool :=
  match s with RoundedRectangle _ _ _ => true | _ => false end.
Definition is_rectangle (s : shape) : bool :=
  match s with Rectangle _ _ => true | _ => false end.

(** The background disc, as a set of pixels: what the ellipse of line 16
    covers. *)
Definition in_disc (size scale : Z) (x y : Z) : bool :=
  covers (Ellipse ((Int 0, Int 0), ((Int size * Int scale)%py, (Int size * Int scale)%py)) blue) x y.

(** The deviation of a point from the ideal ellipse, with its sign:
    negative within. *)
Definition quarter_f (a b x y : Z) : Z := a ^ 2 * y ^ 2 + b ^ 2 * x ^ 2 - a ^ 2 * b ^ 2.

(** The box of a part of a rounded rectangle. *)
Definition part_box (p : part) (x y : Z) : bool :=
  match p with
  | Disc x0 y0 x1 y1 | Slice x0 y0 x1 y1 _ _ | Block x0 y0 x1 y1 =>
      in_box x0 y0 x1 y1 x y
  end.

(** The pixels within the box of a shape as Pillow converts it, or, for a
    rounded rectangle, within the box of one of the parts it is drawn from:
    whatever the rasteriser does at the edge of a shape, it stays within. *)
Definition bounding_box (s : shape) (x y : Z) : bool :=
  match s with
  | Ellipse ((x0, y0), (x1, y1)) _ | Rectangle ((x0, y0), (x1, y1)) _ =>
      in_box (c_int x0) (c_int y0) (c_int x1) (c_int y1) x y
  | RoundedRectangle xy radius _ =>
      existsb (fun p => part_box p x y) (rounded_parts xy radius)
  end.

(** *** Doubles *)

Abbreviation F m e := (S754_finite false m e).

(** Number of bits of a mantissa. *)
Definition digits (m : positive) : Z := Z.pos (digits2_pos m).

(** [x] is the positive normal double of mantissa [m] and exponent [e]. *)
Definition normal (x : spec_float) (m : positive) (e : Z) : Prop :=
  x = F m e /\ digits m = 53.

(** The relative error of one rounding is at most [u = 2^-52]. *)
Definition u : Q := 1 # 4503599627370496.

(** [approx s x lo hi elo ehi]: [x] is a positive normal double, of
    exponent between [elo] and [ehi] and of value between [lo * s] and
    [hi * s]; [s] will be the canvas dimension. *)
Definition approx (s : Q) (x : spec_float) (lo hi : Q) (elo ehi : Z) : Prop :=
  exists m e, normal x m e /\ elo <= e <= ehi /\
              (lo * s <= Float64.value x <= hi * s)%Q.

(** The same for a Python number, which must be a float. *)
Definition papprox (s : Q) (a : number) (lo hi : Q) (elo ehi : Z) : Prop :=
  exists x, a = Float x /\ approx s x lo hi elo ehi.

(** Parts per [10^12] of the canvas dimension. *)
Definition ppt (n : Z) : Q := n # 1000000000000.

(** *** Checking a small canvas pixel by pixel *)

Definition upto (n : Z) : list Z := map Z.of_nat (seq 0 (Z.to_nat n)).

(** No pixel of the [n] by [n] canvas is both outside the disc and within
    the bounding box of a shape drawn after the background. *)
Definition frame_kept (n : Z) : bool :=
  match canvas n 1 with
  | inl _ => false
  | inr img =>
      forallb (fun x =>
        forallb (fun y =>
          in_disc n 1 x y
          || negb (existsb (fun sh => bounding_box sh x y) (tl (drawn img))))
          (upto n))
        (upto n)
  end.


(** *** The finished picture *)

(** The pixels of the lock: what the four shapes drawn after the background
    cover. *)
Definition in_lock (img : Image) (x y : Z) : bool :=
  existsb (fun sh => covers sh x y) (tl (drawn img)).

(** The box a drawing call was given. *)
Definition box_of (s : shape) : box :=
  match s with
  | Ellipse xy _ | RoundedRectangle xy _ _ | Rectangle xy _ => xy
  end.

(** A box whose corners are in order, as Pillow requires ([x1 >= x0] and
    [y1 >= y0]), and which lies on the canvas of [n] by [n] pixels. *)
Definition box_in_canvas (n : Z) (xy : box) : Prop :=
  let '((x0, y0), (x1, y1)) := xy in
  (0 <= Py.value x0 /\ Py.value x0 <= Py.value x1 /\ Py.value x1 <= inject_Z n /\
   0 <= Py.value y0 /\ Py.value y0 <= Py.value y1 /\ Py.value y1 <= inject_Z n)%Q.

(** The square the lock is laid out in, in pixels. *)
Definition lock_square (size scale x y : Z) : bool :=
  in_box (c_int (lock_x size scale)) (c_int (lock_y size scale))
         (round (lock_x size scale + lock_width size scale)%py)
         (round (lock_y size scale + lock_height size scale)%py) x y.

(** On the [n] by [n] canvas no box of a shape of the lock, or of a part of
    one, reaches out of the lock square. *)
Definition lock_boxed (n : Z) : bool :=
  match canvas n 1 with
  | inl _ => false
  | inr img =>
      forallb (fun x =>
        forallb (fun y =>
          lock_square n 1 x y
          || negb (existsb (fun sh => bounding_box sh x y) (tl (drawn img))))
          (upto n))
        (upto n)
  end.

(** The middle pixel of the [n] by [n] canvas is white. *)
Definition centre_white (n : Z) : bool :=
  match canvas n 1 with
  | inl _ => false
  | inr img => bool_decide (getpixel img (n / 2, n / 2) = Some (255, 255, 255, 255))
  end.

(** On the [n] by [n] canvas the shackle goes down to the first row of the
    lock body at least. *)
Definition shackle_meets_body (n : Z) : bool :=
  round (lock_y n 1 + lock_height n 1 * dec 4 10)%py
  <=? c_int (lock_y n 1 + lock_height n 1 * dec 5 10)%py.

(** *** The whole run *)

Definition is_file (w : world) (p : string) : Prop :=
  exists c, fs w !! p = Some (File c).

(** The three lines a complete run prints. *)
Definition report : list string :=
  ["生成图标: " +:+ filepath 512 1; "生成图标: " +:+ filepath 512 2; "图标生成完成!"%string].

(** A world in which [FileLocker] is a file. *)
Definition blocked_world : world :=
  {| fs := <["FileLocker"%string :=
               File {| mode := "RGBA"; size := (1, 1); background := transparent; drawn := [] |}]> ∅;
     stdout := [] |}.

(** A world that only grew: what was there is there, the directories and,
    but for the two icons, the files as they were; what was printed is the
    beginning of what is. *)
Definition grew (w w' : world) : Prop :=
  (forall q, is_dir w q -> is_dir w' q) /\
  (forall q c, q <> filepath 512 1 -> q <> filepath 512 2 ->
               fs w !! q = Some (File c) -> fs w' !! q = Some (File c)) /\
  (forall q, fs w !! q <> None -> fs w' !! q <> None) /\
  (exists out, stdout w' = stdout w ++ out).


(* ===================================================================== *)
(** ** Running commands *)
(* ===================================================================== *)



Lemma run_bind {A B : Type} (m : Script A) (f : A -> Script B) (w w' : world) (x : A) :
  m w = (w', inr x) -> (m ≫= f) w = f x w'.
Proof. intros H. unfold mbind, script_bind. now rewrite H. Qed.

Lemma run_bind_raise {A B : Type} (m : Script A) (f : A -> Script B) (w w' : world) (e : exn) :
  m w = (w', inl e) -> (m ≫= f) w = (w', inl e).
Proof. intros H. unfold mbind, script_bind. now rewrite H. Qed.

(** A successful [m ≫= f] is a successful [m] followed by a successful [f]. *)
Lemma run_bind_inv {A B : Type} (m : Script A) (f : A -> Script B) (w w2 : world) (y : B) :
  (m ≫= f) w = (w2, inr y) ->
  exists w1 x, m w = (w1, inr x) /\ f x w1 = (w2, inr y).
Proof.
  unfold mbind, script_bind. destruct (m w) as [w1 [e | x]]; intros H.
  - discriminate.
  - now exists w1, x.
Qed.


Lemma ensure_dir_ok (p : string) (w : world) :
  not_a_file w p ->
  exists w', ensure_dir p w = (w', inr tt) /\ stdout w' = stdout w /\
             is_dir w' p /\ (forall q, q <> p -> fs w' !! q = fs w !! q) /\
             (is_dir w p -> w' = w).
Proof.
  intros Hp. unfold ensure_dir, is_dir.
  destruct (fs w !! p) as [[| c] |] eqn:E.
  - exists w. repeat split; auto.
  - now destruct (Hp c).
  - eexists. split; [reflexivity |]. cbn. repeat split.
    + apply lookup_insert_eq.
    + intros q Hq. now apply lookup_insert_ne.
    + discriminate.
Qed.

Lemma each_ensure_dir_ok (l : list string) (w : world) :
  (forall p, In p l -> not_a_file w p) ->
  exists w', each ensure_dir l w = (w', inr tt) /\ stdout w' = stdout w /\
             (forall p, In p l -> is_dir w' p) /\
             (forall q, ~ In q l -> fs w' !! q = fs w !! q) /\
             (forall q, is_dir w q -> is_dir w' q) /\
             ((forall p, In p l -> is_dir w p) -> w' = w).
Proof.
  revert w. induction l as [| p l IH]; intros w Hl.
  - exists w. cbn. repeat split; auto. intros p [].
  - destruct (ensure_dir_ok p w) as (w1 & R1 & O1 & D1 & F1 & I1).
    { apply Hl. now left. }
    destruct (IH w1) as (w2 & R2 & O2 & D2 & F2 & K2 & I2).
    { intros q Hq c. destruct (string_dec q p) as [-> | Hne].
      - unfold is_dir in D1. rewrite D1. discriminate.
      - rewrite F1 by assumption. apply Hl. now right. }
    exists w2. split; [| split; [| split; [| split; [| split]]]].
    + cbn [each]. rewrite (run_bind _ _ _ _ _ R1). exact R2.
    + congruence.
    + intros q [<- | Hq]; [apply K2, D1 | now apply D2].
    + intros q Hq. rewrite F2, F1; auto.
      * intros ->. apply Hq. now left.
      * intros H. apply Hq. now right.
    + intros q Hq. apply K2. unfold is_dir.
      destruct (string_dec q p) as [-> | Hne]; [exact D1 | now rewrite F1].
    + intros Hall. rewrite I1 in * by (apply Hall; now left).
      apply I2. intros q Hq. apply Hall. now right.
Qed.

(** [os.makedirs(name, exist_ok=True)] succeeds unless a file is in the way;
    it then leaves every level a directory, touches nothing else, and
    changes nothing at all when every level was one already. *)
Lemma makedirs_ok (name : string) (w : world) :
  (forall p, In p (parents name ++ [name]) -> not_a_file w p) ->
  exists w', makedirs name true w = (w', inr tt) /\ stdout w' = stdout w /\
             (forall p, In p (parents name ++ [name]) -> is_dir w' p) /\
             (forall q, ~ In q (parents name ++ [name]) -> fs w' !! q = fs w !! q) /\
             ((forall p, In p (parents name ++ [name]) -> is_dir w p) -> w' = w).
Proof.
  intros Hl.
  destruct (each_ensure_dir_ok (parents name) w) as (w1 & R1 & O1 & D1 & F1 & K1 & I1).
  { intros p Hp. apply Hl, in_or_app. now left. }
  assert (Hleaf : not_a_file w1 name).
  { intros c Hc. destruct (in_dec string_dec name (parents name)) as [Hin | Hout].
    - specialize (D1 _ Hin). unfold is_dir in D1. congruence.
    - rewrite F1 in Hc by assumption.
      refine (Hl name _ c Hc). apply in_or_app. right. now left. }
  unfold makedirs. rewrite (run_bind _ _ _ _ _ R1).
  unfold mkdir_leaf, is_dir in *.
  destruct (fs w1 !! name) as [[| c] |] eqn:E.
  - exists w1. repeat split; auto.
    + intros p Hp. apply in_app_or in Hp as [Hp | [<- | []]]; auto.
    + intros q Hq. apply F1. intros H. apply Hq, in_or_app. now left.
    + intros Hall. apply I1. intros p Hp. apply Hall, in_or_app. now left.
  - now destruct (Hleaf c).
  - eexists. split; [reflexivity |]. cbn. repeat split; auto.
    + intros p Hp. apply in_app_or in Hp as [Hp | [<- | []]].
      * destruct (string_dec name p) as [-> | Hne];
          [apply lookup_insert_eq | rewrite lookup_insert_ne by assumption; auto].
      * apply lookup_insert_eq.
    + intros q Hq. rewrite lookup_insert_ne.
      * apply F1. intros H. apply Hq, in_or_app. now left.
      * intros ->. apply Hq, in_or_app. right. now left.
    + intros Hall. exfalso.
      assert (Hn : fs w !! name = Some Dir)
        by (apply Hall, in_or_app; right; now left).
      specialize (K1 _ Hn). congruence.
Qed.

Lemma save_ok (img : Image) (fp : string) (w : world) :
  PIL.empty img = false ->
  dirname fp <> ""%string -> is_dir w (dirname fp) -> fs w !! fp <> Some Dir ->
  save img fp w = ({| fs := <[fp := File img]> (fs w); stdout := stdout w |}, inr tt).
Proof.
  intros He Hne Hd Hf. unfold save, is_dir in *.
  destruct (dirname fp) eqn:E; [congruence |].
  rewrite Hd, He. destruct (fs w !! fp) as [[| c] |]; congruence.
Qed.

(** [save] succeeds only next to an existing directory and with an image
    that has pixels, and only adds or replaces the file. *)
Lemma save_inv (img : Image) (fp : string) (w w' : world) :
  save img fp w = (w', inr tt) ->
  w' = {| fs := <[fp := File img]> (fs w); stdout := stdout w |} /\
  fs w !! fp <> Some Dir /\
  (dirname fp <> ""%string -> is_dir w (dirname fp)) /\
  PIL.empty img = false.
Proof.
  unfold save, is_dir. intros H.
  destruct (dirname fp) eqn:E.
  - destruct (fs w !! fp) as [[| c] |], (PIL.empty img);
      inversion H; repeat split; congruence.
  - destruct (fs w !! String a s) as [[| c] |]; try discriminate.
    destruct (fs w !! fp) as [[| c] |], (PIL.empty img);
      inversion H; repeat split; congruence.
Qed.


(* ===================================================================== *)
(** ** Strings and paths *)
(* ===================================================================== *)

Lemma app_cons (d : ascii) (a b : string) : String d a +:+ b = String d (a +:+ b).
Proof. reflexivity. Qed.

Lemma occurs_app c s t : occurs c (s +:+ t) = occurs c s || occurs c t.
Proof.
  induction s as [| d s IH]; [reflexivity |].
  rewrite app_cons. cbn [occurs]. now rewrite IH, orb_assoc.
Qed.

Section Avoids.
(** A character that is neither a digit nor the minus sign does not occur
    in the decimal writing of an integer. *)
Variable c : ascii.
Hypothesis c_not_digit : forall n : N, Ascii.eqb c (pretty_N_char n) = false.
Hypothesis c_not_minus : Ascii.eqb c "-" = false.

Lemma pretty_N_go_avoids (x : N) (s : string) :
  occurs c s = false -> occurs c (pretty_N_go x s) = false.
Proof.
  revert s. induction (N.lt_wf_0 x) as [x _ IH]; intros s Hs.
  destruct (N.eq_dec x 0%N) as [-> | Hx].
  - now rewrite pretty_N_go_0.
  - rewrite pretty_N_go_step by lia. apply IH.
    + apply N.div_lt; lia.
    + cbn [occurs]. now rewrite Hs, c_not_digit.
Qed.

Lemma str_avoids (n : Z) : occurs c (str n) = false.
Proof.
  unfold str, pretty, pretty_Z.
  destruct n as [| p | p].
  - pose proof (c_not_digit 0%N) as H0.
    change (pretty_N_char 0) with "0"%char in H0.
    change (Ascii.eqb c "0" || false = false). now rewrite H0.
  - unfold pretty, pretty_positive, pretty, pretty_N. case_decide; [discriminate |].
    now apply pretty_N_go_avoids.
  - rewrite occurs_app. cbn [occurs]. rewrite c_not_minus. cbn [orb].
    unfold pretty, pretty_positive, pretty, pretty_N. case_decide; [discriminate |].
    now apply pretty_N_go_avoids.
Qed.
End Avoids.

Lemma not_digit (c : ascii) :
  forallb (fun n => negb (Ascii.eqb c (pretty_N_char n))) (map N.of_nat (seq 0 10)) = true ->
  forall n : N, Ascii.eqb c (pretty_N_char n) = false.
Proof.
  intros H n. rewrite forallb_forall in H.
  assert (Hn : exists k, In k (map N.of_nat (seq 0 10)) /\ pretty_N_char n = pretty_N_char k).
  { destruct n as [| p]; [exists 0%N; split; [cbn; auto | reflexivity] |].
    do 4 (destruct p as [p | p |];
          try (eexists; split; [| reflexivity]; cbn; tauto));
      exists 9%N; split; try reflexivity; cbn; tauto. }
  destruct Hn as (k & Hk & ->). apply H in Hk. now apply negb_true_iff in Hk.
Qed.

Lemma str_no_at (n : Z) : occurs "@" (str n) = false.
Proof. apply str_avoids; [now apply not_digit | reflexivity]. Qed.

Lemma str_no_slash (n : Z) : occurs "/" (str n) = false.
Proof. apply str_avoids; [now apply not_digit | reflexivity]. Qed.

Lemma app_assoc_s (a b c : string) : (a +:+ b) +:+ c = a +:+ b +:+ c.
Proof. induction a as [| d a IH]; [reflexivity |]. rewrite !app_cons. now f_equal. Qed.

Lemma create_icon_run (size scale : Z) (w : world) (img : Image) :
  canvas size scale = inr img ->
  PIL.empty img = false ->
  dirname (filepath size scale) <> ""%string ->
  is_dir w (dirname (filepath size scale)) ->
  fs w !! filepath size scale <> Some Dir ->
  create_icon size scale w
  = ({| fs := <[filepath size scale := File img]> (fs w);
        stdout := stdout w ++ ["生成图标: " +:+ filepath size scale] |}, inr tt).
Proof.
  intros Hc He Hne Hd Hf. unfold create_icon.
  rewrite (run_bind _ _ w w img) by (unfold lift; now rewrite Hc).
  rewrite (run_bind _ _ _ _ tt (save_ok img _ w He Hne Hd Hf)).
  reflexivity.
Qed.

Lemma create_icon_inv (size scale : Z) (w w' : world) :
  create_icon size scale w = (w', inr tt) ->
  exists img, canvas size scale = inr img /\
    w' = {| fs := <[filepath size scale := File img]> (fs w);
            stdout := stdout w ++ ["生成图标: " +:+ filepath size scale] |} /\
    fs w !! filepath size scale <> Some Dir /\
    (dirname (filepath size scale) <> ""%string -> is_dir w (dirname (filepath size scale))) /\
    PIL.empty img = false.
Proof.
  unfold create_icon. intros H.
  apply run_bind_inv in H as (w1 & img & H1 & H).
  apply run_bind_inv in H as (w2 & [] & H2 & H3).
  unfold lift in H1. injection H1 as <- H1.
  apply save_inv in H2 as (-> & Hf & Hd & He).
  unfold print in H3. cbn in H3. injection H3 as <-.
  exists img. auto.
Qed.

Lemma filename_eq (size scale : Z) :
  filename size scale
  = "app_icon_" +:+ str size +:+ "x" +:+ str size +:+
    (if 1 <? scale then "@" +:+ str scale +:+ "x" else "") +:+ ".png".
Proof.
  unfold filename. destruct (1 <? scale); now rewrite !app_assoc_s.
Qed.

Lemma filepath_eq (size scale : Z) :
  filepath size scale = icon_dir +:+ "/" +:+ filename size scale.
Proof. unfold filepath. now rewrite filename_eq. Qed.

Lemma filename_no_slash (size scale : Z) : occurs "/" (filename size scale) = false.
Proof.
  rewrite filename_eq, !occurs_app, !str_no_slash.
  destruct (1 <? scale); [rewrite !occurs_app, str_no_slash |]; reflexivity.
Qed.

Lemma app_nil_r_s (a : string) : a +:+ "" = a.
Proof. induction a as [| c a IH]; [reflexivity |]. rewrite app_cons. now f_equal. Qed.

Lemma parents_from_app (seen a b : string) :
  parents_from seen (a +:+ b) = parents_from seen a ++ parents_from (seen +:+ a) b.
Proof.
  revert seen. induction a as [| c a IH]; intros seen.
  - now rewrite app_nil_r_s.
  - rewrite app_cons. cbn [parents_from].
    rewrite IH, app_assoc_s, app_cons.
    change ("" +:+ a)%string with a.
    destruct (Ascii.eqb c "/"); [destruct seen |]; reflexivity.
Qed.

Lemma parents_from_no_slash (seen b : string) :
  occurs "/" b = false -> parents_from seen b = [].
Proof.
  revert seen. induction b as [| c b IH]; intros seen H; [reflexivity |].
  cbn [occurs] in H. apply orb_false_iff in H as [Hc Hb].
  cbn [parents_from]. rewrite Ascii.eqb_sym, Hc. now apply IH.
Qed.

Lemma parents_filepath (size scale : Z) :
  parents (filepath size scale) = parents icon_dir ++ [icon_dir].
Proof.
  rewrite filepath_eq. unfold parents. rewrite parents_from_app. f_equal.
  change ("" +:+ icon_dir)%string with icon_dir.
  change ("/" +:+ filename size scale)%string with (String "/" (filename size scale)).
  cbn [parents_from]. rewrite parents_from_no_slash by apply filename_no_slash.
  reflexivity.
Qed.

Lemma dirname_filepath (size scale : Z) : dirname (filepath size scale) = icon_dir.
Proof. unfold dirname. rewrite parents_filepath. apply last_last. Qed.

Lemma length_app_s (a b : string) :
  String.length (a +:+ b) = (String.length a + String.length b)%nat.
Proof. induction a as [| c a IH]; [reflexivity |]. rewrite app_cons. cbn. now rewrite IH. Qed.

Lemma filepath_not_level (size scale : Z) :
  ~ In (filepath size scale) (parents icon_dir ++ [icon_dir]).
Proof.
  intros H. rewrite filepath_eq in H.
  assert (L : forall p, In p (parents icon_dir ++ [icon_dir]) ->
              (String.length p <= String.length icon_dir)%nat).
  { intros p Hp. vm_compute in Hp. intuition (subst; vm_compute; lia). }
  apply L in H. rewrite !length_app_s in H. cbn in H. lia.
Qed.

Lemma save_cases (img : Image) (fp : string) (w w' : world) (r : exn + unit) :
  save img fp w = (w', r) ->
  w' = w \/
  (w' = {| fs := <[fp := File img]> (fs w); stdout := stdout w |} /\
   fs w !! fp <> Some Dir).
Proof.
  unfold save. cbv zeta. intros H.
  destruct (dirname fp).
  - destruct (fs w !! fp) as [[| c] |], (PIL.empty img); injection H as <- _; auto;
      right; split; auto; discriminate.
  - destruct (fs w !! String a s) as [[| c] |]; try (injection H as <- _; now left).
    destruct (fs w !! fp) as [[| c] |], (PIL.empty img); injection H as <- _; auto;
      right; split; auto; discriminate.
Qed.

Lemma create_icon_keeps_dirs (size scale : Z) (w w' : world) (r : exn + unit) :
  create_icon size scale w = (w', r) -> forall p, is_dir w' p <-> is_dir w p.
Proof.
  unfold create_icon, mbind, script_bind, lift. intros H p.
  destruct (canvas size scale) as [e | img]; [injection H as <- _; tauto |].
  destruct (save img (filepath size scale) w) as [w1 r1] eqn:S.
  assert (K : is_dir w1 p <-> is_dir w p).
  { apply save_cases in S as [-> | [-> Hf]]; [tauto |].
    unfold is_dir. cbn.
    destruct (string_dec (filepath size scale) p) as [<- | Hne].
    - rewrite lookup_insert_eq. split; [discriminate | intros E; now destruct Hf].
    - now rewrite lookup_insert_ne by assumption. }
  destruct r1 as [e | []]; [injection H as <- _; exact K |].
  unfold print in H. injection H as <- _. exact K.
Qed.

Lemma icon_dir_levels_are_dirs (w : world) :
  (forall p, In p (parents icon_dir ++ [icon_dir]) -> is_dir w p) -> is_dir w icon_dir.
Proof. intros H. apply H, in_or_app. right. now left. Qed.

Lemma filepath_ne_icon_dir (size scale : Z) : filepath size scale <> icon_dir.
Proof.
  intros E. apply (filepath_not_level size scale). rewrite E.
  apply in_or_app. right. now left.
Qed.

Lemma icon_dir_nonempty : icon_dir <> ""%string.
Proof. discriminate. Qed.



(* ===================================================================== *)
(** ** Rounding

    What the reference implementation of the Standard Library does to a
    positive mantissa and exponent: which double comes out, and how far its
    value is from the exact number.  Everything is stated for binary64,
    away from underflow and overflow. *)
(* ===================================================================== *)

Lemma digits_pos m : 1 <= digits m.
Proof. unfold digits. lia. Qed.

Lemma pow2_step (k : Z) : 1 <= k -> 2 ^ k = 2 * 2 ^ (k - 1).
Proof. intros H. rewrite <- Z.pow_succ_r by lia. f_equal. lia. Qed.

Lemma digits_bounds (m : positive) : 2 ^ (digits m - 1) <= Z.pos m < 2 ^ digits m.
Proof.
  unfold digits. induction m as [p IH | p IH |]; cbn [digits2_pos].
  - rewrite Pos2Z.inj_succ, (Pos2Z.inj_xI p).
    rewrite (pow2_step (Z.succ _)) by lia.
    replace (Z.succ (Z.pos (digits2_pos p)) - 1) with (Z.pos (digits2_pos p)) by lia.
    rewrite (pow2_step (Z.pos _)) in * by lia. lia.
  - rewrite Pos2Z.inj_succ, (Pos2Z.inj_xO p).
    rewrite (pow2_step (Z.succ _)) by lia.
    replace (Z.succ (Z.pos (digits2_pos p)) - 1) with (Z.pos (digits2_pos p)) by lia.
    rewrite (pow2_step (Z.pos _)) in * by lia. lia.
  - cbn. lia.
Qed.

Lemma digits_unique (m : positive) (k : Z) :
  2 ^ (k - 1) <= Z.pos m < 2 ^ k -> digits m = k.
Proof.
  intros [L U]. pose proof (digits_bounds m) as [L' U']. pose proof (digits_pos m).
  assert (0 < k).
  { destruct (Z.lt_ge_cases 0 k); [assumption |].
    destruct (Z.eq_dec k 0) as [-> | Hk]; [cbn in U; lia |].
    rewrite Z.pow_neg_r in U by lia. lia. }
  assert (digits m - 1 < k) by (apply (Z.pow_lt_mono_r_iff 2); lia).
  assert (k - 1 < digits m) by (apply (Z.pow_lt_mono_r_iff 2); lia).
  lia.
Qed.

Lemma shr_m_shr_1 (mrs : shr_record) :
  0 <= shr_m mrs -> shr_m (shr_1 mrs) = shr_m mrs / 2.
Proof.
  destruct mrs as [m r s]. cbn [shr_m]. intros Hm. unfold shr_1.
  destruct m as [| [p | p |] | p]; cbn [shr_m]; try lia.
  - reflexivity.
  - rewrite (Pos2Z.inj_xI p). apply (Z.div_unique _ _ _ 1); lia.
  - rewrite (Pos2Z.inj_xO p). apply (Z.div_unique _ _ _ 0); lia.
  - reflexivity.
Qed.

Lemma shr_m_iter (p : positive) (mrs : shr_record) :
  0 <= shr_m mrs -> shr_m (SpecFloat.iter_pos shr_1 p mrs) = shr_m mrs / 2 ^ Z.pos p.
Proof.
  revert mrs. induction p as [p IH | p IH |]; intros mrs Hm; cbn [SpecFloat.iter_pos].
  - assert (H1 : 0 <= shr_m (shr_1 mrs)) by (rewrite shr_m_shr_1 by lia; apply Z.div_pos; lia).
    assert (H2 : 0 <= shr_m (SpecFloat.iter_pos shr_1 p (shr_1 mrs)))
      by (rewrite IH by lia; apply Z.div_pos; lia).
    rewrite IH, IH, shr_m_shr_1 by lia.
    rewrite !Z.div_div by lia. f_equal.
    rewrite (Pos2Z.inj_xI p).
    replace (2 * Z.pos p + 1) with (1 + Z.pos p + Z.pos p) by lia.
    rewrite !Z.pow_add_r by lia. rewrite Z.pow_1_r. ring.
  - assert (H2 : 0 <= shr_m (SpecFloat.iter_pos shr_1 p mrs))
      by (rewrite IH by lia; apply Z.div_pos; lia).
    rewrite IH, IH by lia. rewrite Z.div_div by lia. f_equal.
    rewrite (Pos2Z.inj_xO p). replace (2 * Z.pos p) with (Z.pos p + Z.pos p) by lia.
    now rewrite Z.pow_add_r by lia.
  - now rewrite shr_m_shr_1, Z.pow_1_r.
Qed.

Lemma fexp_eq (k : Z) : fexp 53 1024 k = Z.max (k - 53) (-1074).
Proof. reflexivity. Qed.

Lemma shr_m_of_loc (m : Z) (l : location) : shr_m (shr_record_of_loc m l) = m.
Proof. destruct l as [| []]; reflexivity. Qed.

Lemma shr_fexp_noshift (m e : Z) (l : location) :
  fexp 53 1024 (Zdigits2 m + e) - e <= 0 ->
  shr_fexp 53 1024 m e l = (shr_record_of_loc m l, e).
Proof.
  unfold shr_fexp, shr. intros H.
  destruct (fexp 53 1024 (Zdigits2 m + e) - e); try reflexivity. lia.
Qed.

Lemma shr_fexp_shift (m e : Z) (l : location) (n : Z) :
  0 <= m -> fexp 53 1024 (Zdigits2 m + e) - e = n -> 0 < n ->
  exists mrs, shr_fexp 53 1024 m e l = (mrs, e + n) /\ shr_m mrs = m / 2 ^ n.
Proof.
  unfold shr_fexp, shr. intros Hm -> Hn.
  destruct n as [| p | p]; try lia.
  eexists. split; [reflexivity |].
  rewrite shr_m_iter; rewrite shr_m_of_loc; auto.
Qed.

Lemma round_nearest_even_cases (m : Z) (l : location) :
  round_nearest_even m l = m \/ round_nearest_even m l = m + 1.
Proof. destruct l as [| []]; cbn; auto. destruct (Z.even m); auto. Qed.

(** A mantissa that fits the precision goes through rounding unchanged. *)
Lemma round_aux_exact (s : bool) (m : positive) (e : Z) :
  digits m <= 53 -> -1074 <= e <= 971 ->
  binary_round_aux 53 1024 s (Z.pos m) e loc_Exact = S754_finite s m e.
Proof.
  intros Hd He. unfold binary_round_aux.
  assert (Hn : fexp 53 1024 (Zdigits2 (Z.pos m) + e) - e <= 0).
  { rewrite fexp_eq. change (Zdigits2 (Z.pos m)) with (digits m). lia. }
  rewrite (shr_fexp_noshift _ _ _ Hn). cbn [shr_record_of_loc loc_of_shr_record shr_m round_nearest_even].
  rewrite (shr_fexp_noshift _ _ _ Hn). cbn [shr_record_of_loc shr_m].
  replace (e <=? 1024 - 53) with true by (symmetry; apply Z.leb_le; lia).
  reflexivity.
Qed.

(** A longer mantissa loses its [n] low bits: what is left is the quotient
    or its successor. *)
Lemma round_aux_inexact (s : bool) (m : positive) (e : Z) :
  53 < digits m -> -1074 <= e + (digits m - 53) -> e + (digits m - 53) + 1 <= 971 ->
  exists m' e',
    binary_round_aux 53 1024 s (Z.pos m) e loc_Exact = S754_finite s m' e' /\
    digits m' = 53 /\
    e + (digits m - 53) <= e' <= e + (digits m - 53) + 1 /\
    Z.pos m - 2 ^ (digits m - 53) <= Z.pos m' * 2 ^ (e' - e) <= Z.pos m + 2 ^ (digits m - 53).
Proof.
  intros Hd Hlo Hhi. set (n := digits m - 53) in *.
  pose proof (digits_bounds m) as [DL DU].
  assert (P : 0 < 2 ^ n) by (apply Z.pow_pos_nonneg; lia).
  assert (E1 : 2 ^ (digits m - 1) = 2 ^ 52 * 2 ^ n)
    by (rewrite <- Z.pow_add_r by lia; f_equal; lia).
  assert (E2 : 2 ^ digits m = 2 ^ 53 * 2 ^ n)
    by (rewrite <- Z.pow_add_r by lia; f_equal; lia).
  set (q := Z.pos m / 2 ^ n).
  assert (Hq : 2 ^ 52 <= q < 2 ^ 53).
  { split.
    - apply Z.div_le_lower_bound; lia.
    - apply Z.div_lt_upper_bound; lia. }
  assert (Hqm : q * 2 ^ n <= Z.pos m < (q + 1) * 2 ^ n).
  { unfold q. pose proof (Z.mul_div_le (Z.pos m) (2 ^ n) P).
    pose proof (Z.mul_succ_div_gt (Z.pos m) (2 ^ n) P). lia. }
  unfold binary_round_aux.
  destruct (shr_fexp_shift (Z.pos m) e loc_Exact n) as (mrs & -> & Hm); try lia.
  { rewrite fexp_eq. change (Zdigits2 (Z.pos m)) with (digits m). lia. }
  fold q in Hm. rewrite Hm.
  set (r := round_nearest_even q (loc_of_shr_record mrs)).
  assert (Hr : r = q \/ r = q + 1) by apply round_nearest_even_cases.
  clearbody r.
  destruct (Z.eq_dec r (2 ^ 53)) as [Hr53 | Hr53].
  - (* the carry: one more bit is shifted out *)
    subst r.
    destruct (shr_fexp_shift (2 ^ 53) (e + n) loc_Exact 1) as (mrs2 & -> & Hm2); try lia.
    { rewrite fexp_eq. change (Zdigits2 (2 ^ 53)) with 54. lia. }
    rewrite Hm2. change (2 ^ 53 / 2 ^ 1) with (Z.pos (2 ^ 52)).
    replace (e + n + 1 <=? 1024 - 53) with true by (symmetry; apply Z.leb_le; lia).
    exists (2 ^ 52)%positive, (e + n + 1). split; [reflexivity |]. split; [reflexivity |].
    split; [lia |].
    replace (e + n + 1 - e) with (n + 1) by lia.
    rewrite Z.pow_add_r, Z.pow_1_r by lia.
    change (Z.pos (2 ^ 52)) with (2 ^ 52). change (2 ^ 53) with (2 * 2 ^ 52) in *. nia.
  - assert (Hrr : 2 ^ 52 <= r < 2 ^ 53) by lia.
    destruct r as [| r | r]; try lia.
    assert (Dr : digits r = 53) by (apply digits_unique; exact Hrr).
    rewrite shr_fexp_noshift.
    2:{ rewrite fexp_eq. change (Zdigits2 (Z.pos r)) with (digits r). lia. }
    cbn [shr_record_of_loc shr_m].
    replace (e + n <=? 1024 - 53) with true by (symmetry; apply Z.leb_le; lia).
    exists r, (e + n). split; [reflexivity |]. split; [exact Dr |]. split; [lia |].
    replace (e + n - e) with n by lia. nia.
Qed.

Lemma iter_xO (m d : positive) : Z.pos (Pos.iter xO m d) = Z.pos m * 2 ^ Z.pos d.
Proof.
  induction d as [| d IH] using Pos.peano_ind.
  - cbn [Pos.iter]. rewrite (Pos2Z.inj_xO m), Z.pow_1_r. ring.
  - rewrite Pos.iter_succ, (Pos2Z.inj_xO (Pos.iter xO m d)), IH, Pos2Z.inj_succ.
    rewrite Z.pow_succ_r by lia. ring.
Qed.

Lemma shl_align_spec (m : positive) (e e' : Z) :
  exists m', shl_align m e e' = (m', Z.min e e') /\
             Z.pos m' = Z.pos m * 2 ^ (e - Z.min e e').
Proof.
  unfold shl_align. destruct (e' - e) as [| d | d] eqn:E.
  - exists m. replace (Z.min e e') with e by lia.
    rewrite Z.sub_diag. split; [reflexivity | cbn; lia].
  - exists m. replace (Z.min e e') with e by lia.
    rewrite Z.sub_diag. split; [reflexivity | cbn; lia].
  - exists (Pos.iter xO m d). replace (Z.min e e') with e' by lia.
    split; [reflexivity |]. rewrite iter_xO. f_equal. f_equal. lia.
Qed.

(** [binary_round]: normalise, then round. *)
Lemma binary_round_spec (s : bool) (m : positive) (e : Z) :
  -1074 <= digits m + e - 53 -> digits m + e - 53 + 1 <= 971 ->
  exists m' e',
    binary_round 53 1024 s m e = S754_finite s m' e' /\
    digits m' = 53 /\
    digits m + e - 53 <= e' <= digits m + e - 53 + 1 /\
    (digits m <= 53 ->
       e' = digits m + e - 53 /\ Z.pos m' = Z.pos m * 2 ^ (53 - digits m)) /\
    (53 < digits m ->
       e <= e' /\
       Z.pos m - 2 ^ (digits m - 53) <= Z.pos m' * 2 ^ (e' - e)
       <= Z.pos m + 2 ^ (digits m - 53)).
Proof.
  intros Hlo Hhi. unfold binary_round.
  change (Z.pos (digits2_pos m)) with (digits m). rewrite fexp_eq.
  replace (Z.max (digits m + e - 53) (-1074)) with (digits m + e - 53) by lia.
  destruct (shl_align_spec m e (digits m + e - 53)) as (mz & -> & Hmz).
  destruct (Z.le_gt_cases (digits m) 53) as [Hd | Hd].
  - replace (Z.min e (digits m + e - 53)) with (digits m + e - 53) in * by lia.
    replace (e - (digits m + e - 53)) with (53 - digits m) in Hmz by lia.
    assert (Dz : digits mz = 53).
    { apply digits_unique. rewrite Hmz. pose proof (digits_bounds m) as [L U].
      assert (P : 0 < 2 ^ (53 - digits m)) by (apply Z.pow_pos_nonneg; lia).
      replace (2 ^ (53 - 1)) with (2 ^ (digits m - 1) * 2 ^ (53 - digits m))
        by (rewrite <- Z.pow_add_r by (pose proof (digits_pos m); lia); f_equal; lia).
      replace (2 ^ 53) with (2 ^ digits m * 2 ^ (53 - digits m))
        by (rewrite <- Z.pow_add_r by (pose proof (digits_pos m); lia); f_equal; lia).
      nia. }
    rewrite round_aux_exact by lia.
    exists mz, (digits m + e - 53). repeat split; try lia.
  - replace (Z.min e (digits m + e - 53)) with e in * by lia.
    rewrite Z.sub_diag in Hmz. cbn in Hmz.
    assert (mz = m) as -> by lia.
    destruct (round_aux_inexact s m e) as (m' & e' & -> & D & He & Hv); try lia.
    exists m', e'. repeat split; try lia.
Qed.

(** *** Values *)

Local Open Scope Q_scope.


Lemma pow2_pos (e : Z) : 0 < 2 ^ e.
Proof. now apply Qpower_0_lt. Qed.

Lemma pow2_add (a b : Z) : 2 ^ (a + b) == 2 ^ a * 2 ^ b.
Proof. now apply Qpower_plus. Qed.

Lemma pow2_inject (k : Z) : (0 <= k)%Z -> inject_Z (2 ^ k) == 2 ^ k.
Proof. intros H. now rewrite Zpower_Qpower. Qed.

Lemma value_F (m : positive) (e : Z) :
  Float64.value (F m e) = inject_Z (Z.pos m) * 2 ^ e.
Proof. reflexivity. Qed.

Lemma value_scaled (m : positive) (e e' : Z) :
  (e <= e')%Z ->
  Float64.value (F m e') == inject_Z (Z.pos m * 2 ^ (e' - e)) * 2 ^ e.
Proof.
  intros H. rewrite value_F, inject_Z_mult, pow2_inject by lia.
  replace e' with ((e' - e) + e)%Z at 1 by lia. rewrite pow2_add. ring.
Qed.

Lemma value_pos (m : positive) (e : Z) : 0 < Float64.value (F m e).
Proof.
  rewrite value_F. apply Qmult_lt_0_compat; [| apply pow2_pos].
  change 0 with (inject_Z 0). rewrite <- Zlt_Qlt. lia.
Qed.

Lemma round_value (m m' : positive) (e e' n : Z) :
  (0 <= n)%Z -> (e <= e')%Z -> (2 ^ (n + 52) <= Z.pos m)%Z ->
  (Z.pos m - 2 ^ n <= Z.pos m' * 2 ^ (e' - e) <= Z.pos m + 2 ^ n)%Z ->
  (1 - u) * (inject_Z (Z.pos m) * 2 ^ e) <= Float64.value (F m' e')
  <= (1 + u) * (inject_Z (Z.pos m) * 2 ^ e).
Proof.
  intros Hn He Hm [L U]. rewrite (value_scaled m' e e' He).
  set (A := (Z.pos m' * 2 ^ (e' - e))%Z) in *.
  rewrite Z.pow_add_r in Hm by lia.
  rewrite Zle_Qle in L, U, Hm.
  unfold Z.sub in L. rewrite inject_Z_plus, inject_Z_opp in L.
  rewrite inject_Z_plus in U. rewrite inject_Z_mult in Hm.
  change (inject_Z (2 ^ 52)) with (4503599627370496 # 1) in Hm.
  set (M := inject_Z (Z.pos m)) in *. set (N := inject_Z (2 ^ n)) in *.
  set (a := inject_Z A) in *.
  assert (P : 0 < 2 ^ e) by apply pow2_pos.
  assert (B : (1 - u) * M <= a <= (1 + u) * M) by (unfold u; split; lra).
  destruct B as [B1 B2].
  split.
  - rewrite Qmult_assoc. apply Qmult_le_compat_r; [exact B1 | lra].
  - rewrite Qmult_assoc. apply Qmult_le_compat_r; [exact B2 | lra].
Qed.


(** The value of [binary_round] is within a relative [u] of the exact
    number, and equal to it when the mantissa fits. *)
Lemma binary_round_value (m : positive) (e : Z) :
  (-1074 <= digits m + e - 53)%Z -> (digits m + e - 53 + 1 <= 971)%Z ->
  exists m' e',
    normal (binary_round 53 1024 false m e) m' e' /\
    (digits m + e - 53 <= e' <= digits m + e - 53 + 1)%Z /\
    (1 - u) * (inject_Z (Z.pos m) * 2 ^ e) <= Float64.value (F m' e')
    <= (1 + u) * (inject_Z (Z.pos m) * 2 ^ e) /\
    ((digits m <= 53)%Z ->
     e' = (digits m + e - 53)%Z /\
     Float64.value (F m' e') == inject_Z (Z.pos m) * 2 ^ e).
Proof.
  intros Hlo Hhi.
  destruct (binary_round_spec false m e Hlo Hhi) as (m' & e' & R & D & He & Hfit & Hcut).
  exists m', e'. split; [split; assumption |]. split; [exact He |].
  assert (X : 0 < inject_Z (Z.pos m) * 2 ^ e) by apply (value_pos m e).
  destruct (Z.le_gt_cases (digits m) 53) as [Hd | Hd].
  - destruct (Hfit Hd) as [-> Hm'].
    assert (V : Float64.value (F m' (digits m + e - 53)) == inject_Z (Z.pos m) * 2 ^ e).
    { rewrite value_F, Hm', inject_Z_mult, pow2_inject by lia.
      rewrite <- Qmult_assoc, <- pow2_add.
      replace (53 - digits m + (digits m + e - 53))%Z with e by lia. reflexivity. }
    split; [| intros _; split; [reflexivity | exact V]]. rewrite V. unfold u. split; lra.
  - destruct (Hcut Hd) as [Hee Hv]. split; [| lia].
    apply (round_value m m' e e' (digits m - 53)); try lia.
    replace (digits m - 53 + 52)%Z with (digits m - 1)%Z by lia.
    apply digits_bounds.
Qed.

Lemma digits_le_53 (p : positive) : (Z.pos p < 2 ^ 53)%Z -> (digits p <= 53)%Z.
Proof.
  intros H. pose proof (digits_bounds p) as [L _].
  assert (digits p - 1 < 53)%Z; [| lia].
  apply (Z.pow_lt_mono_r_iff 2); lia.
Qed.

(** Ints below [2^53] convert exactly. *)
Lemma of_int_spec (n : Z) :
  (0 < n < 2 ^ 53)%Z ->
  exists m e, normal (Float64.of_int n) m e /\ (-52 <= e <= 0)%Z /\
              Float64.value (F m e) == inject_Z n.
Proof.
  intros [Hn Hb]. destruct n as [| p | p]; try lia.
  pose proof (digits_le_53 p Hb) as Hd. pose proof (digits_pos p) as Hd1.
  destruct (binary_round_value p 0) as (m & e & N & He & _ & V); try lia.
  destruct (V Hd) as [-> V'].
  exists m, (digits p + 0 - 53)%Z. split; [exact N |]. split; [lia |].
  rewrite V'. change (2 ^ 0) with 1. ring.
Qed.

Lemma mul_spec (x y : spec_float) (mx my : positive) (ex ey : Z) :
  normal x mx ex -> normal y my ey ->
  (-1074 <= ex + ey + 52)%Z -> (ex + ey + 54 <= 971)%Z ->
  exists m e,
    normal (Float64.mul x y) m e /\ (ex + ey + 52 <= e <= ex + ey + 54)%Z /\
    (1 - u) * (Float64.value x * Float64.value y) <= Float64.value (F m e)
    <= (1 + u) * (Float64.value x * Float64.value y).
Proof.
  intros [-> Dx] [-> Dy] Hlo Hhi.
  pose proof (digits_bounds mx) as [Lx Ux]. pose proof (digits_bounds my) as [Ly Uy].
  rewrite Dx in Lx, Ux. rewrite Dy in Ly, Uy.
  assert (B : (2 ^ 104 <= Z.pos (mx * my) < 2 ^ 106)%Z).
  { rewrite Pos2Z.inj_mul. change (2 ^ 104)%Z with (2 ^ (53 - 1) * 2 ^ (53 - 1))%Z.
    change (2 ^ 106)%Z with (2 ^ 53 * 2 ^ 53)%Z. nia. }
  assert (D : (105 <= digits (mx * my) <= 106)%Z).
  { pose proof (digits_bounds (mx * my)) as [L U].
    assert (104 < digits (mx * my))%Z.
    { apply (Z.pow_lt_mono_r_iff 2); [lia | apply Z.lt_le_incl, Pos2Z.pos_is_pos |].
      eapply Z.le_lt_trans; [apply B | exact U]. }
    assert (digits (mx * my) - 1 < 106)%Z.
    { apply (Z.pow_lt_mono_r_iff 2); [lia | lia |].
      eapply Z.le_lt_trans; [exact L | apply B]. }
    lia. }
  unfold Float64.mul, SFmul, Float64.prec, Float64.emax.
  change (xorb false false) with false.
  destruct (round_aux_inexact false (mx * my) (ex + ey)) as (m & e & -> & Dm & He & Hv);
    try lia.
  exists m, e. split; [split; [reflexivity | exact Dm] |]. split; [lia |].
  assert (V : Float64.value (F mx ex) * Float64.value (F my ey)
              == inject_Z (Z.pos (mx * my)) * 2 ^ (ex + ey)).
  { rewrite !value_F, Pos2Z.inj_mul, inject_Z_mult, pow2_add. ring. }
  rewrite V.
  apply (round_value (mx * my) m (ex + ey) e (digits (mx * my) - 53)); try lia.
  replace (digits (mx * my) - 53 + 52)%Z with (digits (mx * my) - 1)%Z by lia.
  apply digits_bounds.
Qed.

Lemma digits_gt (m : positive) (k : Z) : (0 <= k)%Z -> (2 ^ k <= Z.pos m)%Z -> (k < digits m)%Z.
Proof.
  intros Hk H. pose proof (digits_bounds m) as [_ U].
  apply (Z.pow_lt_mono_r_iff 2); [lia | pose proof (digits_pos m); lia |].
  eapply Z.le_lt_trans; [exact H | exact U].
Qed.

Lemma digits_le (m : positive) (k : Z) : (0 <= k)%Z -> (Z.pos m < 2 ^ k)%Z -> (digits m <= k)%Z.
Proof.
  intros Hk H. pose proof (digits_bounds m) as [L _].
  assert (digits m - 1 < k)%Z; [| lia].
  apply (Z.pow_lt_mono_r_iff 2); [lia | lia |].
  eapply Z.le_lt_trans; [exact L | exact H].
Qed.

Lemma normal_bounds (x : spec_float) (m : positive) (e : Z) :
  normal x m e -> (2 ^ 52 <= Z.pos m < 2 ^ 53)%Z.
Proof. intros [_ D]. pose proof (digits_bounds m) as H. now rewrite D in H. Qed.

Lemma pow2_ge_1 (k : Z) : (0 <= k)%Z -> (1 <= 2 ^ k)%Z.
Proof. intros H. change 1%Z with (2 ^ 0)%Z. apply Z.pow_le_mono_r; lia. Qed.

Lemma pow2_ge_2 (k : Z) : (1 <= k)%Z -> (2 <= 2 ^ k)%Z.
Proof. intros H. change 2%Z with (2 ^ 1)%Z at 1. apply Z.pow_le_mono_r; lia. Qed.

(** The two aligned mantissas of an addition or subtraction. *)
Lemma aligned (mx my : positive) (ex ey : Z) :
  exists mx' my',
    fst (shl_align mx ex (Z.min ex ey)) = mx' /\
    fst (shl_align my ey (Z.min ex ey)) = my' /\
    Z.pos mx' = (Z.pos mx * 2 ^ (ex - Z.min ex ey))%Z /\
    Z.pos my' = (Z.pos my * 2 ^ (ey - Z.min ex ey))%Z /\
    Float64.value (F mx ex) == inject_Z (Z.pos mx') * 2 ^ Z.min ex ey /\
    Float64.value (F my ey) == inject_Z (Z.pos my') * 2 ^ Z.min ex ey.
Proof.
  destruct (shl_align_spec mx ex (Z.min ex ey)) as (mx' & Ex & Hx).
  destruct (shl_align_spec my ey (Z.min ex ey)) as (my' & Ey & Hy).
  replace (Z.min ex (Z.min ex ey)) with (Z.min ex ey) in * by lia.
  replace (Z.min ey (Z.min ex ey)) with (Z.min ex ey) in * by lia.
  exists mx', my'. rewrite Ex, Ey. cbn [fst].
  repeat split; auto.
  - rewrite Hx. apply value_scaled. lia.
  - rewrite Hy. apply value_scaled. lia.
Qed.

Lemma add_spec (x y : spec_float) (mx my : positive) (ex ey : Z) :
  normal x mx ex -> normal y my ey ->
  (-1074 <= ex)%Z -> (-1074 <= ey)%Z -> (Z.max ex ey + 2 <= 971)%Z ->
  exists m e,
    normal (Float64.add x y) m e /\ (Z.max ex ey <= e <= Z.max ex ey + 2)%Z /\
    (1 - u) * (Float64.value x + Float64.value y) <= Float64.value (F m e)
    <= (1 + u) * (Float64.value x + Float64.value y).
Proof.
  intros Nx Ny Hx Hy Hhi.
  pose proof (normal_bounds _ _ _ Nx) as Bx. pose proof (normal_bounds _ _ _ Ny) as By.
  destruct Nx as [-> _]. destruct Ny as [-> _].
  destruct (aligned mx my ex ey) as (mx' & my' & Ex & Ey & Zx & Zy & Vx & Vy).
  unfold Float64.add, SFadd. rewrite Ex, Ey. cbn [cond_Zopp].
  change (Z.pos mx' + Z.pos my')%Z with (Z.pos (mx' + my')).
  cbn [binary_normalize]. unfold Float64.prec, Float64.emax.
  set (ez := Z.min ex ey) in *. set (M := (mx' + my')%positive).
  assert (HM : Z.pos M = (Z.pos mx' + Z.pos my')%Z) by reflexivity.
  assert (D : (53 + (Z.max ex ey - ez) <= digits M <= 54 + (Z.max ex ey - ez))%Z).
  { split.
    - assert (52 + (Z.max ex ey - ez) < digits M)%Z; [| lia].
      apply digits_gt; [lia |]. rewrite Z.pow_add_r by lia. rewrite HM, Zx, Zy.
      destruct (Z.le_gt_cases ex ey).
      + replace (Z.max ex ey - ez)%Z with (ey - ez)%Z by lia.
        assert (0 < 2 ^ (ey - ez))%Z by (apply Z.pow_pos_nonneg; lia).
        assert (0 < 2 ^ (ex - ez))%Z by (apply Z.pow_pos_nonneg; lia). nia.
      + replace (Z.max ex ey - ez)%Z with (ex - ez)%Z by lia.
        assert (0 < 2 ^ (ey - ez))%Z by (apply Z.pow_pos_nonneg; lia).
        assert (0 < 2 ^ (ex - ez))%Z by (apply Z.pow_pos_nonneg; lia). nia.
    - apply digits_le; [lia |].
      replace (54 + (Z.max ex ey - ez))%Z with (1 + 53 + (Z.max ex ey - ez))%Z by lia.
      rewrite !Z.pow_add_r, Z.pow_1_r by lia. rewrite HM, Zx, Zy.
      assert (2 ^ (ex - ez) <= 2 ^ (Z.max ex ey - ez))%Z by (apply Z.pow_le_mono_r; lia).
      assert (2 ^ (ey - ez) <= 2 ^ (Z.max ex ey - ez))%Z by (apply Z.pow_le_mono_r; lia).
      assert (0 < 2 ^ (ey - ez))%Z by (apply Z.pow_pos_nonneg; lia).
      assert (0 < 2 ^ (ex - ez))%Z by (apply Z.pow_pos_nonneg; lia). nia. }
  destruct (binary_round_value M ez) as (m & e & N & He & V & _); try (unfold ez; lia).
  exists m, e. split; [exact N |]. split; [unfold ez in *; lia |].
  assert (S : Float64.value (F mx ex) + Float64.value (F my ey) == inject_Z (Z.pos M) * 2 ^ ez).
  { rewrite Vx, Vy, HM, inject_Z_plus. ring. }
  rewrite S. exact V.
Qed.

Lemma sub_spec (x y : spec_float) (mx my : positive) (ex ey : Z) :
  normal x mx ex -> normal y my ey ->
  Float64.value y < Float64.value x ->
  (-1022 <= ex)%Z -> (-1022 <= ey)%Z -> (ex + 1 <= 971)%Z ->
  exists m e,
    normal (Float64.sub x y) m e /\ (Z.min ex ey - 52 <= e <= ex + 1)%Z /\
    (1 - u) * (Float64.value x - Float64.value y) <= Float64.value (F m e)
    <= (1 + u) * (Float64.value x - Float64.value y) /\
    (Float64.value x <= 2 * Float64.value y ->
     Float64.value (F m e) == Float64.value x - Float64.value y).
Proof.
  intros Nx Ny Hlt Hx Hy Hhi.
  pose proof (normal_bounds _ _ _ Nx) as Bx. pose proof (normal_bounds _ _ _ Ny) as By.
  destruct Nx as [-> _]. destruct Ny as [-> _].
  destruct (aligned mx my ex ey) as (mx' & my' & Ex & Ey & Zx & Zy & Vx & Vy).
  set (ez := Z.min ex ey) in *.
  assert (P : 0 < 2 ^ ez) by apply pow2_pos.
  assert (Hgt : (my' < mx')%positive).
  { rewrite Vx, Vy in Hlt. apply Qmult_lt_r in Hlt; [| exact P].
    rewrite <- Zlt_Qlt in Hlt. lia. }
  unfold Float64.sub, SFsub. fold ez. rewrite Ex, Ey. cbn [cond_Zopp].
  replace (Z.pos mx' - Z.pos my')%Z with (Z.pos (mx' - my'))
    by (rewrite Pos2Z.inj_sub by exact Hgt; reflexivity).
  cbn [binary_normalize]. unfold Float64.prec, Float64.emax.
  set (M := (mx' - my')%positive).
  assert (HM : Z.pos M = (Z.pos mx' - Z.pos my')%Z) by (unfold M; lia).
  assert (Pa : (0 < 2 ^ (ex - ez))%Z) by (apply Z.pow_pos_nonneg; lia).
  assert (Pb : (0 < 2 ^ (ey - ez))%Z) by (apply Z.pow_pos_nonneg; lia).
  assert (D : (digits M <= 53 + (ex - ez))%Z).
  { apply digits_le; [lia |]. rewrite Z.pow_add_r by lia. nia. }
  pose proof (digits_pos M) as D1.
  destruct (binary_round_value M ez) as (m & e & N & He & V & Vfit); try (unfold ez; lia).
  exists m, e. split; [exact N |]. split; [unfold ez in *; lia |].
  assert (S : Float64.value (F mx ex) - Float64.value (F my ey) == inject_Z (Z.pos M) * 2 ^ ez).
  { rewrite Vx, Vy, HM. unfold Z.sub. rewrite inject_Z_plus, inject_Z_opp. ring. }
  rewrite S. split; [exact V |].
  intros H2. apply Vfit.
  (* Sterbenz: the difference is at most [y], so it fits *)
  assert (Hey : (ey <= ex)%Z).
  { destruct (Z.le_gt_cases ey ex) as [| Hc]; [assumption | exfalso].
    replace (ex - ez)%Z with 0%Z in * by lia. cbn in Zx.
    pose proof (pow2_ge_2 (ey - ez)) as G. assert (1 <= ey - ez)%Z by lia.
    change (2 ^ 53)%Z with (2 * 2 ^ 52)%Z in *. nia. }
  replace (ey - ez)%Z with 0%Z in * by lia. cbn in Zy.
  rewrite Vx, Vy in H2.
  assert (H3 : inject_Z (Z.pos mx') * 2 ^ ez <= inject_Z (2 * Z.pos my') * 2 ^ ez).
  { rewrite inject_Z_mult. change (inject_Z 2) with 2. lra. }
  apply Qmult_le_r in H3; [| exact P]. rewrite <- Zle_Qle in H3.
  apply digits_le; lia.
Qed.

Lemma div_eucl_exact (a b : Z) : (0 < b)%Z -> Z.div_eucl (a * b) b = (a, 0%Z).
Proof.
  intros Hb. pose proof (Z.div_mul a b ltac:(lia)) as Hq.
  pose proof (Z.mod_mul a b ltac:(lia)) as Hr.
  unfold Z.div, Z.modulo in Hq, Hr.
  destruct (Z.div_eucl (a * b) b) as [q r]. now subst.
Qed.

Lemma digits_xO (m : positive) : digits m~0 = (digits m + 1)%Z.
Proof. unfold digits. cbn [digits2_pos]. lia. Qed.

(** Halving a normal double is exact. *)
Lemma half_spec (x : spec_float) (m : positive) (e : Z) :
  normal x m e -> (-1072 <= e)%Z -> (e <= 971)%Z ->
  normal (Float64.div x (Float64.of_int 2)) m (e - 1).
Proof.
  intros [-> D] Hlo Hhi. split; [| exact D].
  change (Float64.of_int 2) with (S754_finite false 4503599627370496%positive (-51)%Z).
  unfold Float64.div, SFdiv, SFdiv_core_binary, Float64.prec, Float64.emax.
  change (Zdigits2 (Z.pos m)) with (digits m). rewrite D.
  change (Zdigits2 4503599627370496%Z) with 53%Z.
  rewrite fexp_eq.
  replace (Z.min (Z.max (53 + e - (53 + -51) - 53) (-1074)) (e - -51)) with (e - 2)%Z by lia.
  replace (e - -51 - (e - 2))%Z with 53%Z by lia.
  rewrite Z.shiftl_mul_pow2 by lia.
  replace (Z.pos m * 2 ^ 53)%Z with ((2 * Z.pos m) * 4503599627370496)%Z
    by (change (2 ^ 53)%Z with (2 * 4503599627370496)%Z; ring).
  rewrite div_eucl_exact by lia.
  change (new_location 4503599627370496%Z 0%Z) with loc_Exact.
  change (xorb false false) with false.
  change (2 * Z.pos m)%Z with (Z.pos m~0).
  unfold binary_round_aux.
  destruct (shr_fexp_shift (Z.pos m~0) (e - 2) loc_Exact 1) as (mrs & E1 & Hm); try lia.
  { rewrite fexp_eq. change (Zdigits2 (Z.pos m~0)) with (digits m~0).
    rewrite digits_xO. lia. }
  revert E1 Hm. unfold shr_fexp, shr. rewrite fexp_eq.
  change (Zdigits2 (Z.pos m~0)) with (digits m~0). rewrite digits_xO, D.
  replace (Z.max (53 + 1 + (e - 2) - 53) (-1074) - (e - 2))%Z with 1%Z by lia.
  cbn [SpecFloat.iter_pos shr_record_of_loc shr_1 orb].
  intros _ _. cbn [shr_m loc_of_shr_record round_nearest_even].
  change (Zdigits2 (Z.pos m)) with (digits m). rewrite D, fexp_eq.
  replace (Z.max (53 + (e - 2 + 1) - 53) (-1074) - (e - 2 + 1))%Z with 0%Z by lia.
  cbn [shr_m].
  replace (e - 2 + 1 <=? 1024 - 53)%Z with true by (symmetry; apply Z.leb_le; lia).
  f_equal. lia.
Qed.

Lemma approx_weaken (s : Q) (x : spec_float) (lo hi lo' hi' : Q) (elo ehi elo' ehi' : Z) :
  approx s x lo hi elo ehi -> 0 <= s ->
  lo' <= lo -> hi <= hi' -> (elo' <= elo)%Z -> (ehi <= ehi')%Z ->
  approx s x lo' hi' elo' ehi'.
Proof.
  intros (m & e & N & He & [L U]) Hs Hlo Hhi Helo Hehi.
  exists m, e. split; [exact N |]. split; [lia |]. split.
  - apply Qle_trans with (lo * s); [| exact L]. apply Qmult_le_compat_r; assumption.
  - apply Qle_trans with (hi * s); [exact U |]. apply Qmult_le_compat_r; assumption.
Qed.

Lemma approx_of_int (n : Z) :
  (0 < n < 2 ^ 53)%Z -> approx (inject_Z n) (Float64.of_int n) 1 1 (-52) 0.
Proof.
  intros H. destruct (of_int_spec n H) as (m & e & N & He & V).
  exists m, e. split; [exact N |]. split; [exact He |].
  destruct N as [-> _]. rewrite V. split; lra.
Qed.

Lemma approx_mul_lit (s : Q) (x c : spec_float) (lo hi k : Q) (elo ehi : Z)
      (mc : positive) (ec : Z) :
  approx s x lo hi elo ehi -> normal c mc ec -> Float64.value c == k ->
  0 <= s -> 0 <= lo -> 0 <= k ->
  (-1074 <= elo + ec + 52)%Z -> (ehi + ec + 54 <= 971)%Z ->
  approx s (Float64.mul x c) ((1 - u) * (lo * k)) ((1 + u) * (hi * k))
         (elo + ec + 52) (ehi + ec + 54).
Proof.
  intros (m & e & N & He & [L U]) Nc Vc Hs Hlo Hk Hl Hh.
  destruct (mul_spec x c m mc e ec N Nc) as (m' & e' & N' & He' & [L' U']); try lia.
  exists m', e'. split; [exact N' |]. split; [lia |].
  destruct N' as [-> _]. rewrite Vc in L', U'.
  set (X := Float64.value x) in *.
  assert (A : lo * s * k <= X * k) by (apply Qmult_le_compat_r; assumption).
  assert (B : X * k <= hi * s * k) by (apply Qmult_le_compat_r; assumption).
  unfold u in *. split; lra.
Qed.

Lemma approx_add (s : Q) (x y : spec_float) (lo1 hi1 lo2 hi2 : Q) (el1 eh1 el2 eh2 : Z) :
  approx s x lo1 hi1 el1 eh1 -> approx s y lo2 hi2 el2 eh2 ->
  0 <= s -> 0 <= lo1 -> 0 <= lo2 ->
  (-1074 <= el1)%Z -> (-1074 <= el2)%Z -> (Z.max eh1 eh2 + 2 <= 971)%Z ->
  approx s (Float64.add x y) ((1 - u) * (lo1 + lo2)) ((1 + u) * (hi1 + hi2))
         (Z.max el1 el2) (Z.max eh1 eh2 + 2).
Proof.
  intros (m1 & e1 & N1 & He1 & [L1 U1]) (m2 & e2 & N2 & He2 & [L2 U2]) Hs H1 H2 Ha Hb Hc.
  destruct (add_spec x y m1 m2 e1 e2 N1 N2) as (m & e & N & He & [L U]); try lia.
  exists m, e. split; [exact N |]. split; [lia |].
  destruct N as [-> _]. unfold u in *. split; lra.
Qed.

Lemma approx_sub (s : Q) (x y : spec_float) (lo1 hi1 lo2 hi2 : Q) (el1 eh1 el2 eh2 : Z) :
  approx s x lo1 hi1 el1 eh1 -> approx s y lo2 hi2 el2 eh2 ->
  0 < s -> hi2 < lo1 ->
  (-1022 <= el1)%Z -> (-1022 <= el2)%Z -> (eh1 + 1 <= 971)%Z ->
  approx s (Float64.sub x y) ((1 - u) * (lo1 - hi2)) ((1 + u) * (hi1 - lo2))
         (Z.min el1 el2 - 52) (eh1 + 1).
Proof.
  intros (m1 & e1 & N1 & He1 & [L1 U1]) (m2 & e2 & N2 & He2 & [L2 U2]) Hs H12 Ha Hb Hc.
  assert (Hlt : Float64.value y < Float64.value x).
  { apply Qle_lt_trans with (hi2 * s); [exact U2 |].
    apply Qlt_le_trans with (lo1 * s); [| exact L1].
    apply Qmult_lt_compat_r; assumption. }
  destruct (sub_spec x y m1 m2 e1 e2 N1 N2 Hlt) as (m & e & N & He & [L U] & _); try lia.
  exists m, e. split; [exact N |]. split; [lia |].
  destruct N as [-> _]. unfold u in *. split; lra.
Qed.

Lemma value_half (m : positive) (e : Z) :
  Float64.value (F m (e - 1)) == Float64.value (F m e) / 2.
Proof.
  rewrite !value_F. replace e with ((e - 1) + 1)%Z at 2 by lia.
  rewrite pow2_add. change (2 ^ 1) with 2. field.
Qed.

Lemma approx_half (s : Q) (x : spec_float) (lo hi : Q) (elo ehi : Z) :
  approx s x lo hi elo ehi -> (-1072 <= elo)%Z -> (ehi <= 971)%Z ->
  approx s (Float64.div x (Float64.of_int 2)) (lo / 2) (hi / 2) (elo - 1) (ehi - 1).
Proof.
  intros (m & e & N & He & [L U]) Ha Hb.
  pose proof (half_spec x m e N ltac:(lia) ltac:(lia)) as N'.
  exists m, (e - 1)%Z. split; [exact N' |]. split; [lia |].
  destruct N as [-> _]. destruct N' as [-> _]. rewrite value_half.
  split; [apply Qle_shift_div_l; [reflexivity |] | apply Qle_shift_div_r; [reflexivity |]].
  - assert (E : lo / 2 * s * 2 == lo * s) by field. rewrite E. exact L.
  - assert (E : hi / 2 * s * 2 == hi * s) by field. rewrite E. exact U.
Qed.

Lemma value_times (m : positive) (e : Z) :
  (e < 0)%Z -> Float64.value (F m e) * inject_Z (2 ^ (- e)) == inject_Z (Z.pos m).
Proof.
  intros H. rewrite value_F, pow2_inject by lia.
  rewrite <- Qmult_assoc, <- pow2_add. replace (e + - e)%Z with 0%Z by lia.
  change (2 ^ 0) with 1. ring.
Qed.

(** The C cast is the floor of a positive double. *)
Lemma trunc_spec (m : positive) (e : Z) :
  inject_Z (Float64.trunc (F m e)) <= Float64.value (F m e)
  < inject_Z (Float64.trunc (F m e)) + 1.
Proof.
  unfold Float64.trunc. destruct (Z.leb_spec 0 e) as [He | He].
  - rewrite value_F, inject_Z_mult, pow2_inject by lia. split; lra.
  - pose proof (value_times m e He) as V.
    set (k := (2 ^ (- e))%Z) in *. set (v := Float64.value (F m e)) in *.
    assert (Hk : (0 < k)%Z) by (apply Z.pow_pos_nonneg; lia).
    assert (HK : 0 < inject_Z k) by (change 0 with (inject_Z 0); rewrite <- Zlt_Qlt; lia).
    pose proof (Z.mul_div_le (Z.pos m) k Hk) as A.
    pose proof (Z.mul_succ_div_gt (Z.pos m) k Hk) as B.
    set (q := (Z.pos m / k)%Z) in *.
    rewrite Zle_Qle, inject_Z_mult in A. rewrite Zlt_Qlt, inject_Z_mult in B.
    unfold Z.succ in B. rewrite inject_Z_plus in B. change (inject_Z 1) with 1 in B.
    rewrite <- V in A, B. split.
    + apply (Qmult_le_r _ _ (inject_Z k) HK). lra.
    + apply (Qmult_lt_r _ _ (inject_Z k) HK). lra.
Qed.

(** [round] is within one half of a positive double. *)
Lemma round_spec (m : positive) (e : Z) :
  inject_Z (Float64.round (F m e)) - (1 # 2) <= Float64.value (F m e)
  <= inject_Z (Float64.round (F m e)) + (1 # 2).
Proof.
  unfold Float64.round. destruct (Z.leb_spec 0 e) as [He | He].
  - rewrite value_F, inject_Z_mult, pow2_inject by lia. split; lra.
  - pose proof (value_times m e He) as V.
    set (k := (2 ^ (- e))%Z) in *. set (v := Float64.value (F m e)) in *.
    assert (Hk : (0 < k)%Z) by (apply Z.pow_pos_nonneg; lia).
    assert (HK : 0 < inject_Z k) by (change 0 with (inject_Z 0); rewrite <- Zlt_Qlt; lia).
    pose proof (Z.div_mod (Z.pos m) k ltac:(lia)) as A.
    pose proof (Z.mod_pos_bound (Z.pos m) k Hk) as B.
    set (q := (Z.pos m / k)%Z) in *. set (r := (Z.pos m mod k)%Z) in *.
    assert (R : forall t : Z, (2 * Z.abs (Z.pos m - t * k) <= k)%Z ->
                inject_Z t - (1 # 2) <= v <= inject_Z t + (1 # 2)).
    { intros t Ht.
      assert (H1 : (2 * (Z.pos m - t * k) <= k)%Z) by lia.
      assert (H2 : (- k <= 2 * (Z.pos m - t * k))%Z) by lia.
      rewrite Zle_Qle in H1, H2. unfold Z.sub in H1, H2.
      repeat (rewrite inject_Z_mult in H1 || rewrite inject_Z_plus in H1
              || rewrite inject_Z_opp in H1).
      repeat (rewrite inject_Z_mult in H2 || rewrite inject_Z_plus in H2
              || rewrite inject_Z_opp in H2).
      change (inject_Z 2) with 2 in *.
      rewrite <- V in H1, H2. split.
      - apply (Qmult_le_r _ _ (inject_Z k) HK). lra.
      - apply (Qmult_le_r _ _ (inject_Z k) HK). lra. }
    clearbody q r k.
    destruct (Z.compare_spec (2 * r) k) as [E | E | E].
    + destruct (Z.even q); apply R; nia.
    + apply R. nia.
    + apply R. nia.
Qed.

(** ** The decimal literals of the script *)

Lemma literal_normal (n d : Z) (m : positive) (e : Z) :
  Float64.literal n d = F m e -> digits m = 53%Z -> normal (Float64.literal n d) m e.
Proof. intros H D. split; assumption. Qed.

Lemma lit_6_10 : normal (Float64.literal 6 10) 5404319552844595 (-53).
Proof. apply literal_normal; vm_compute; reflexivity. Qed.
Lemma lit_4_10 : normal (Float64.literal 4 10) 7205759403792794 (-54).
Proof. apply literal_normal; vm_compute; reflexivity. Qed.
Lemma lit_1_10 : normal (Float64.literal 1 10) 7205759403792794 (-56).
Proof. apply literal_normal; vm_compute; reflexivity. Qed.
Lemma lit_3_10 : normal (Float64.literal 3 10) 5404319552844595 (-54).
Proof. apply literal_normal; vm_compute; reflexivity. Qed.
Lemma lit_7_10 : normal (Float64.literal 7 10) 6305039478318694 (-53).
Proof. apply literal_normal; vm_compute; reflexivity. Qed.
Lemma lit_5_10 : normal (Float64.literal 5 10) 4503599627370496 (-53).
Proof. apply literal_normal; vm_compute; reflexivity. Qed.

(** Every literal is within [2^-54] of the decimal it is written as. *)
Lemma literal_values :
  Qabs (Float64.value (Float64.literal 6 10) - (6 # 10)) <= (1 # 2 ^ 54) /\
  Qabs (Float64.value (Float64.literal 4 10) - (4 # 10)) <= (1 # 2 ^ 54) /\
  Qabs (Float64.value (Float64.literal 1 10) - (1 # 10)) <= (1 # 2 ^ 54) /\
  Qabs (Float64.value (Float64.literal 3 10) - (3 # 10)) <= (1 # 2 ^ 54) /\
  Qabs (Float64.value (Float64.literal 7 10) - (7 # 10)) <= (1 # 2 ^ 54) /\
  Float64.value (Float64.literal 5 10) == (5 # 10).
Proof. repeat split; vm_compute; congruence. Qed.


Lemma papprox_weaken (s : Q) (a : number) (lo hi lo' hi' : Q) (elo ehi elo' ehi' : Z) :
  papprox s a lo hi elo ehi -> 0 <= s ->
  Qle_bool lo' lo = true -> Qle_bool hi hi' = true ->
  (elo' <=? elo)%Z = true -> (ehi <=? ehi')%Z = true ->
  papprox s a lo' hi' elo' ehi'.
Proof.
  intros (x & -> & H) Hs H1 H2 H3 H4. exists x. split; [reflexivity |].
  apply Qle_bool_iff in H1, H2. apply Z.leb_le in H3, H4.
  now apply (approx_weaken s x lo hi lo' hi' elo ehi elo' ehi').
Qed.

Lemma papprox_mul_dec (s : Q) (a : number) (lo hi : Q) (elo ehi : Z)
      (n d : Z) (mc : positive) (ec : Z) :
  papprox s a lo hi elo ehi -> normal (Float64.literal n d) mc ec ->
  0 <= s -> 0 <= lo ->
  (-1074 <= elo + ec + 52)%Z -> (ehi + ec + 54 <= 971)%Z ->
  papprox s (a * dec n d)%py
          ((1 - u) * (lo * Float64.value (F mc ec)))
          ((1 + u) * (hi * Float64.value (F mc ec)))
          (elo + ec + 52) (ehi + ec + 54).
Proof.
  intros (x & -> & H) Nc Hs Hlo H1 H2. eexists. split; [reflexivity |].
  apply (approx_mul_lit s x _ lo hi _ elo ehi mc ec H Nc); try assumption.
  - destruct Nc as [-> _]. reflexivity.
  - apply Qlt_le_weak, value_pos.
Qed.

Lemma papprox_add (s : Q) (a b : number) (lo1 hi1 lo2 hi2 : Q) (el1 eh1 el2 eh2 : Z) :
  papprox s a lo1 hi1 el1 eh1 -> papprox s b lo2 hi2 el2 eh2 ->
  0 <= s -> 0 <= lo1 -> 0 <= lo2 ->
  (-1074 <= el1)%Z -> (-1074 <= el2)%Z -> (Z.max eh1 eh2 + 2 <= 971)%Z ->
  papprox s (a + b)%py ((1 - u) * (lo1 + lo2)) ((1 + u) * (hi1 + hi2))
          (Z.max el1 el2) (Z.max eh1 eh2 + 2).
Proof.
  intros (x & -> & Hx) (y & -> & Hy) Hs H1 H2 H3 H4 H5. eexists. split; [reflexivity |].
  now apply approx_add.
Qed.

Lemma papprox_sub (s : Q) (a b : number) (lo1 hi1 lo2 hi2 : Q) (el1 eh1 el2 eh2 : Z) :
  papprox s a lo1 hi1 el1 eh1 -> papprox s b lo2 hi2 el2 eh2 ->
  0 < s -> hi2 < lo1 ->
  (-1022 <= el1)%Z -> (-1022 <= el2)%Z -> (eh1 + 1 <= 971)%Z ->
  papprox s (a - b)%py ((1 - u) * (lo1 - hi2)) ((1 + u) * (hi1 - lo2))
          (Z.min el1 el2 - 52) (eh1 + 1).
Proof.
  intros (x & -> & Hx) (y & -> & Hy) Hs H1 H2 H3 H4. eexists. split; [reflexivity |].
  now apply (approx_sub s x y lo1 hi1 lo2 hi2 el1 eh1 el2 eh2).
Qed.



(* ===================================================================== *)
(** ** The geometry of the lock, as fractions of the canvas *)
(* ===================================================================== *)

Ltac qle := apply Qle_bool_iff; vm_compute; reflexivity.
Ltac qlt := apply Qlt_alt; vm_compute; reflexivity.

Section Geometry.

Variables sz sc : Z.
Hypothesis canvas_range : (0 < sz * sc < 2 ^ 53)%Z.

Let s : Q := inject_Z (sz * sc).

Lemma s_pos : 0 < s.
Proof. unfold s. change 0 with (inject_Z 0). rewrite <- Zlt_Qlt. lia. Qed.

Lemma s_nonneg : 0 <= s.
Proof. apply Qlt_le_weak, s_pos. Qed.

Ltac weaken H := apply (papprox_weaken _ _ _ _ _ _ _ _ _ _ H s_nonneg); vm_compute; reflexivity.

Lemma canvas_dimension_approx :
  approx s (Float64.of_int (sz * sc)) 1 1 (-52) 0.
Proof. apply approx_of_int, canvas_range. Qed.

(** [lock_width] is 60% of the canvas, to one unit roundoff. *)
Lemma lock_width_tight :
  papprox s (lock_width sz sc) ((6 # 10) - u) ((6 # 10) + u) (-53) 1.
Proof.
  assert (H : papprox s (lock_width sz sc)
                ((1 - u) * (1 * Float64.value (F 5404319552844595%positive (-53)%Z)))
                ((1 + u) * (1 * Float64.value (F 5404319552844595%positive (-53)%Z)))
                (-52 + -53 + 52) (0 + -53 + 54)).
  { exists (Float64.mul (Float64.of_int (sz * sc)) (Float64.literal 6 10)).
    split; [reflexivity |].
    apply (approx_mul_lit s _ _ 1 1 _ (-52) 0 _ _ canvas_dimension_approx lit_6_10);
      try lia; try qle.
    - destruct lit_6_10 as [-> _]. reflexivity.
    - apply s_nonneg. }
  weaken H.
Qed.

Lemma lock_width_approx :
  papprox s (lock_width sz sc) (ppt 599999999999) (ppt 600000000001) (-53) 1.
Proof. pose proof lock_width_tight as H. weaken H. Qed.

(** [lock_x] is exactly half of what the width leaves of the canvas: the
    subtraction is exact (the operands are within a factor two of each
    other), and so is the halving. *)
Lemma lock_x_exact :
  exists w x, lock_width sz sc = Float w /\ lock_x sz sc = Float x /\
              Float64.value x == (s - Float64.value w) / 2.
Proof.
  destruct lock_width_approx as (w & Ew & mw & ew & Nw & Hew & [Lw Uw]).
  destruct canvas_dimension_approx as (mS & eS & NS & HeS & [LS US]).
  pose proof s_pos as Hs. unfold ppt in Lw, Uw.
  assert (Hlt : Float64.value w < Float64.value (Float64.of_int (sz * sc))) by lra.
  destruct (sub_spec _ w mS mw eS ew NS Nw Hlt) as (md & ed & Nd & Hed & _ & Vd); try lia.
  pose proof (half_spec _ md ed Nd ltac:(lia) ltac:(lia)) as Nx.
  exists w, (Float64.div (Float64.sub (Float64.of_int (sz * sc)) w) (Float64.of_int 2)).
  split; [exact Ew |]. split; [unfold lock_x; rewrite Ew; reflexivity |].
  destruct Nx as [-> _]. rewrite value_half, Vd by lra.
  assert (E : Float64.value (Float64.of_int (sz * sc)) == s) by lra.
  rewrite E. reflexivity.
Qed.

(** [lock_x] is 20% of the canvas. *)
Lemma lock_x_approx :
  papprox s (lock_x sz sc) (ppt 199999999999) (ppt 200000000001) (-106) 0.
Proof.
  destruct lock_width_approx as (w & Ew & Hw).
  pose proof (approx_sub s _ w 1 1 _ _ (-52) 0 (-53) 1 canvas_dimension_approx Hw s_pos
                ltac:(qlt) ltac:(lia) ltac:(lia) ltac:(lia)) as Hd.
  pose proof (approx_half s _ _ _ _ _ Hd ltac:(lia) ltac:(lia)) as Hx.
  assert (H : papprox s (lock_x sz sc)
                ((1 - u) * (1 - ppt 600000000001) / 2) ((1 + u) * (1 - ppt 599999999999) / 2)
                (Z.min (-52) (-53) - 52 - 1) (0 + 1 - 1)).
  { eexists. split; [| exact Hx]. unfold lock_x. rewrite Ew. reflexivity. }
  weaken H.
Qed.

Lemma lock_width_times (n d : Z) (mc : positive) (ec : Z) (lo hi : Q) :
  normal (Float64.literal n d) mc ec ->
  (-1074 <= -53 + ec + 52)%Z -> (1 + ec + 54 <= 971)%Z ->
  Qle_bool lo ((1 - u) * (ppt 599999999999 * Float64.value (F mc ec))) = true ->
  Qle_bool ((1 + u) * (ppt 600000000001 * Float64.value (F mc ec))) hi = true ->
  papprox s (lock_width sz sc * dec n d)%py lo hi (-53 + ec + 52) (1 + ec + 54).
Proof.
  intros N H1 H2 Hlo Hhi.
  pose proof (papprox_mul_dec s _ _ _ _ _ n d mc ec lock_width_approx N s_nonneg
                ltac:(qle) H1 H2) as H.
  apply (papprox_weaken _ _ _ _ _ _ _ _ _ _ H s_nonneg); auto; apply Z.leb_refl.
Qed.

(** [shackle_width], and the corner radius, are 6% of the canvas. *)
Lemma shackle_width_approx :
  papprox s (shackle_width sz sc) (ppt 59999999999) (ppt 60000000001) (-57) (-1).
Proof. apply (lock_width_times 1 10 _ _ _ _ lit_1_10); try lia; vm_compute; reflexivity. Qed.

Lemma lock_x_plus (b : number) (lo hi lo' hi' : Q) (el eh el' eh' : Z) :
  papprox s b lo hi el eh -> 0 <= lo -> (-1074 <= el)%Z -> (Z.max 0 eh + 2 <= 971)%Z ->
  Qle_bool lo' ((1 - u) * (ppt 199999999999 + lo)) = true ->
  Qle_bool ((1 + u) * (ppt 200000000001 + hi)) hi' = true ->
  (el' <=? Z.max (-106) el)%Z = true -> (Z.max 0 eh + 2 <=? eh')%Z = true ->
  papprox s (lock_x sz sc + b)%py lo' hi' el' eh'.
Proof.
  intros Hb Hlo H1 H2 Hl Hh Hel Heh.
  pose proof (papprox_add s _ _ _ _ _ _ _ _ _ _ lock_x_approx Hb s_nonneg
                ltac:(qle) Hlo ltac:(lia) H1 H2) as H.
  apply (papprox_weaken _ _ _ _ _ _ _ _ _ _ H s_nonneg); auto.
Qed.

Ltac lock_x_plus_times n d lit lo hi :=
  eapply lock_x_plus;
  [ apply (lock_width_times n d _ _ (ppt lo) (ppt hi) lit); try lia; vm_compute; reflexivity
  | qle | lia | lia
  | vm_compute; reflexivity | vm_compute; reflexivity
  | vm_compute; reflexivity | vm_compute; reflexivity ].

(** The left edge of the central bar, [lock_x + lock_width * 0.3]: 38%. *)
Lemma bar_left_approx :
  papprox s (lock_x sz sc + lock_width sz sc * dec 3 10)%py
          (ppt 379999999997) (ppt 380000000003) (-55) 3.
Proof. lock_x_plus_times 3%Z 10%Z lit_3_10 179999999999%Z 180000000001%Z. Qed.

(** Its right edge, [lock_x + lock_width * 0.7]: 62%. *)
Lemma bar_right_approx :
  papprox s (lock_x sz sc + lock_width sz sc * dec 7 10)%py
          (ppt 619999999997) (ppt 620000000003) (-54) 4.
Proof. lock_x_plus_times 7%Z 10%Z lit_7_10 419999999999%Z 420000000001%Z. Qed.

(** The bottom of the shackle, [lock_y + lock_height * 0.5]: 50%. *)
Lemma shackle_bottom_approx :
  papprox s (lock_y sz sc + lock_height sz sc * dec 5 10)%py
          (ppt 499999999997) (ppt 500000000003) (-54) 4.
Proof.
  change (lock_y sz sc) with (lock_x sz sc).
  change (lock_height sz sc) with (lock_width sz sc).
  lock_x_plus_times 5%Z 10%Z lit_5_10 299999999999%Z 300000000001%Z.
Qed.

(** The top of the lock body, [lock_y + lock_height * 0.4]: 44%. *)
Lemma body_top_approx :
  papprox s (lock_y sz sc + lock_height sz sc * dec 4 10)%py
          (ppt 439999999997) (ppt 440000000003) (-55) 3.
Proof.
  change (lock_y sz sc) with (lock_x sz sc).
  change (lock_height sz sc) with (lock_width sz sc).
  lock_x_plus_times 4%Z 10%Z lit_4_10 239999999999%Z 240000000001%Z.
Qed.

(** The right and bottom edge of the lock, [lock_x + lock_width]: 80%. *)
Lemma lock_far_edge_approx :
  papprox s (lock_x sz sc + lock_width sz sc)%py
          (ppt 799999999997) (ppt 800000000003) (-53) 3.
Proof.
  eapply lock_x_plus;
    [ exact lock_width_approx | qle | lia | lia
    | vm_compute; reflexivity | vm_compute; reflexivity
    | vm_compute; reflexivity | vm_compute; reflexivity ].
Qed.

(** The four vertical edges of the two side bars: 32%, 44%, 56% and 68%. *)
Lemma side_bars_approx :
  papprox s (lock_x sz sc + lock_width sz sc * dec 3 10 - shackle_width sz sc)%py
          (ppt 319999999995) (ppt 320000000005) (-109) 4 /\
  papprox s (lock_x sz sc + lock_width sz sc * dec 3 10 + shackle_width sz sc)%py
          (ppt 439999999995) (ppt 440000000005) (-55) 5 /\
  papprox s (lock_x sz sc + lock_width sz sc * dec 7 10 - shackle_width sz sc)%py
          (ppt 559999999995) (ppt 560000000005) (-109) 5 /\
  papprox s (lock_x sz sc + lock_width sz sc * dec 7 10 + shackle_width sz sc)%py
          (ppt 679999999995) (ppt 680000000005) (-54) 6.
Proof.
  pose proof bar_left_approx as A. pose proof bar_right_approx as B.
  pose proof shackle_width_approx as W.
  split; [| split; [| split]].
  - pose proof (papprox_sub s _ _ _ _ _ _ _ _ _ _ A W s_pos
                  ltac:(qlt) ltac:(lia) ltac:(lia) ltac:(lia)) as H.
    weaken H.
  - pose proof (papprox_add s _ _ _ _ _ _ _ _ _ _ A W s_nonneg
                  ltac:(qle) ltac:(qle) ltac:(lia) ltac:(lia) ltac:(lia)) as H.
    weaken H.
  - pose proof (papprox_sub s _ _ _ _ _ _ _ _ _ _ B W s_pos
                  ltac:(qlt) ltac:(lia) ltac:(lia) ltac:(lia)) as H.
    weaken H.
  - pose proof (papprox_add s _ _ _ _ _ _ _ _ _ _ B W s_nonneg
                  ltac:(qle) ltac:(qle) ltac:(lia) ltac:(lia) ltac:(lia)) as H.
    weaken H.
Qed.

(** The value of an approximated number lies in its interval. *)
Lemma papprox_value (c : number) (p q : Z) (el eh : Z) :
  papprox s c (ppt p) (ppt q) el eh ->
  ppt p * s <= Py.value c <= ppt q * s.
Proof. intros (x & -> & m & e & _ & _ & H). exact H. Qed.

(** What the coordinates become once Pillow turns them into integers. *)
Lemma coordinate_pixels (c : number) (p q : Z) (el eh : Z) :
  papprox s c (ppt p) (ppt q) el eh ->
  (p * (sz * sc) - 1000000000000 < 1000000000000 * c_int c <= q * (sz * sc))%Z /\
  (2 * p * (sz * sc) - 1000000000000 <= 2000000000000 * round c
   <= 2 * q * (sz * sc) + 1000000000000)%Z.
Proof.
  intros (x & -> & m & e & [-> D] & _ & [L U]).
  unfold c_int, round, to_float.
  pose proof (trunc_spec m e) as [T1 T2]. pose proof (round_spec m e) as [R1 R2].
  set (v := Float64.value (F m e)) in *.
  set (t := Float64.trunc (F m e)) in *. set (r := Float64.round (F m e)) in *.
  assert (A1 : ppt p * s - 1 < inject_Z t) by lra.
  assert (A2 : inject_Z t <= ppt q * s) by lra.
  assert (A3 : ppt p * s - (1 # 2) <= inject_Z r) by lra.
  assert (A4 : inject_Z r <= ppt q * s + (1 # 2)) by lra.
  clear - A1 A2 A3 A4. unfold s in *. clear s.
  generalize dependent (sz * sc)%Z. intros S A1 A2 A3 A4.
  unfold ppt, Qlt, Qle, Qminus, Qplus, Qmult, Qopp, inject_Z in *. cbn in *. lia.
Qed.

End Geometry.


Local Open Scope Z_scope.

(* ===================================================================== *)
(** ** The outline of an ellipse *)
(* ===================================================================== *)

(** A step of the walk goes up, or left from a column beyond the first
    two, or both. *)
Lemma quarter_next_cases (a b cx cy : Z) :
  quarter_next a b cx cy = (cx, cy + 2) \/
  (1 < cx /\ (quarter_next a b cx cy = (cx - 2, cy + 2) \/
              quarter_next a b cx cy = (cx - 2, cy))).
Proof.
  unfold quarter_next. destruct (Z.ltb_spec 1 cx) as [H | H]; [| now left].
  destruct (_ <? _); destruct (_ <? _); auto.
Qed.

(** The walk never goes right. *)
Lemma quarter_reach_le (fuel : nat) (a b cx cy y : Z) :
  cx <= a -> quarter_reach fuel a b cx cy y <= a.
Proof.
  revert cx cy. induction fuel as [| fuel IH]; intros cx cy H; cbn [quarter_reach];
    destruct (y <=? cy); try exact H.
  destruct (quarter_next_cases a b cx cy) as [E | [_ [E | E]]]; rewrite E; apply IH; lia.
Qed.

Lemma quarter_delta_inside (a b x y : Z) :
  quarter_f a b x y <= 0 -> quarter_delta a b x y = - quarter_f a b x y.
Proof. intros H. apply Z.abs_neq. exact H. Qed.

Lemma quarter_delta_ge (a b x y : Z) : - quarter_f a b x y <= quarter_delta a b x y.
Proof.
  change (quarter_delta a b x y) with (Z.abs (quarter_f a b x y)).
  destruct (Z.abs_spec (quarter_f a b x y)) as [[H ->] | [H ->]]; lia.
Qed.

Lemma quarter_f_up (a b x y y' : Z) :
  0 <= y <= y' -> quarter_f a b x y <= quarter_f a b x y'.
Proof.
  intros H. unfold quarter_f. rewrite !Z.pow_2_r.
  assert (A : 0 <= a * a) by nia. assert (B : y * y <= y' * y') by nia. nia.
Qed.

Lemma quarter_f_left (a b x x' y : Z) :
  0 <= x <= x' -> quarter_f a b x y <= quarter_f a b x' y.
Proof.
  intros H. unfold quarter_f. rewrite !Z.pow_2_r.
  assert (A : 0 <= b * b) by nia. assert (B : x * x <= x' * x') by nia. nia.
Qed.

(** Below a point within the ideal ellipse, in its column, the walk can
    only go up: a step to the left would take it further from the
    outline. *)
Lemma quarter_next_inside (a b X Y cy : Z) :
  0 <= X -> 0 <= cy -> cy + 2 <= Y -> quarter_f a b X Y <= 0 ->
  quarter_next a b X cy = (X, cy + 2).
Proof.
  intros HX Hc HY Hf. unfold quarter_next.
  destruct (Z.ltb_spec 1 X) as [H1 | H1]; [| reflexivity].
  assert (U : quarter_f a b X (cy + 2) <= 0)
    by (etransitivity; [apply (quarter_f_up a b X (cy + 2) Y); lia | exact Hf]).
  assert (D : quarter_f a b (X - 2) (cy + 2) <= quarter_f a b X (cy + 2))
    by (apply quarter_f_left; lia).
  assert (L : quarter_f a b (X - 2) cy <= quarter_f a b (X - 2) (cy + 2))
    by (apply quarter_f_up; lia).
  rewrite (quarter_delta_inside a b X (cy + 2) U).
  pose proof (quarter_delta_ge a b (X - 2) (cy + 2)) as G1.
  pose proof (quarter_delta_ge a b (X - 2) cy) as G2.
  replace (_ <? - quarter_f a b X (cy + 2)) with false by (symmetry; apply Z.ltb_ge; lia).
  replace (_ <? - quarter_f a b X (cy + 2)) with false by (symmetry; apply Z.ltb_ge; lia).
  reflexivity.
Qed.

(** Hence every point within the ideal ellipse is within the outline. *)
Lemma quarter_reach_inside (a b X Y : Z) (fuel : nat) (cx cy : Z) (k j : Z) :
  0 <= X -> quarter_f a b X Y <= 0 ->
  cx = X + 2 * k -> 0 <= k -> 0 <= cy -> Y = cy + 2 * j ->
  X <= quarter_reach fuel a b cx cy Y.
Proof.
  intros HX Hf. revert cx cy k j.
  induction fuel as [| fuel IH]; intros cx cy k j Hcx Hk Hcy HY; cbn [quarter_reach];
    destruct (Z.leb_spec Y cy) as [Hr | Hr]; try lia.
  destruct (Z.eq_dec k 0) as [-> | Hk0].
  - replace cx with X by lia.
    rewrite (quarter_next_inside a b X Y cy) by (auto; lia).
    apply (IH X (cy + 2) 0 (j - 1)); lia.
  - destruct (quarter_next_cases a b cx cy) as [E | [_ [E | E]]]; rewrite E.
    + apply (IH cx (cy + 2) k (j - 1)); lia.
    + apply (IH (cx - 2) (cy + 2) (k - 1) (j - 1)); lia.
    + apply (IH (cx - 2) cy (k - 1) j); lia.
Qed.

(** From the outermost column, the step into the top row goes left. *)
Lemma quarter_next_top (a b : Z) :
  2 <= a -> 2 <= b ->
  quarter_next a b a (b - 2) = (a - 2, b) \/ quarter_next a b a (b - 2) = (a - 2, b - 2).
Proof.
  intros Ha Hb. unfold quarter_next.
  replace (1 <? a) with true by (symmetry; apply Z.ltb_lt; lia).
  replace (b - 2 + 2) with b by lia.
  assert (U : quarter_delta a b a b = (a * b) * (a * b)).
  { unfold quarter_delta. rewrite !Z.pow_2_r.
    replace (a * a * (b * b) + b * b * (a * a) - a * a * (b * b))
      with ((a * b) * (a * b)) by ring.
    apply Z.abs_eq, Z.square_nonneg. }
  assert (D : quarter_delta a b (a - 2) b = (b * (a - 2)) * (b * (a - 2))).
  { unfold quarter_delta. rewrite !Z.pow_2_r.
    replace (a * a * (b * b) + b * b * ((a - 2) * (a - 2)) - a * a * (b * b))
      with ((b * (a - 2)) * (b * (a - 2))) by ring.
    apply Z.abs_eq, Z.square_nonneg. }
  assert (Hlt : quarter_delta a b (a - 2) b < quarter_delta a b a b).
  { rewrite U, D. assert (0 <= b * (a - 2) < a * b) by nia. nia. }
  apply Z.ltb_lt in Hlt. rewrite Hlt.
  destruct (quarter_delta a b (a - 2) (b - 2) <? quarter_delta a b (a - 2) b); auto.
Qed.

(** So the walk comes to the top row inside the outermost column: the
    corners of the box are not within the outline. *)
Lemma quarter_reach_top (a b : Z) (fuel : nat) (cx cy : Z) (k j : Z) :
  2 <= a -> 2 <= b ->
  a = cx + 2 * k -> 0 <= k -> 0 <= cx -> b = cy + 2 * j -> 0 <= j ->
  (j = 0 -> 1 <= k) -> cx + 2 * j <= 2 * Z.of_nat fuel ->
  quarter_reach fuel a b cx cy b <= a - 2.
Proof.
  intros Ha Hb. revert cx cy k j.
  induction fuel as [| fuel IH]; intros cx cy k j Hcx Hk H0 Hcy Hj Hjk Hfuel;
    cbn [quarter_reach]; destruct (Z.leb_spec b cy) as [Hr | Hr]; try lia.
  destruct (Z.eq_dec k 0) as [-> | Hk0].
  - replace cx with a in * by lia.
    destruct (Z.eq_dec j 1) as [-> | Hj1].
    + replace cy with (b - 2) by lia.
      destruct (quarter_next_top a b Ha Hb) as [E | E]; rewrite E.
      * apply (IH (a - 2) b 1 0); lia.
      * apply (IH (a - 2) (b - 2) 1 1); lia.
    + destruct (quarter_next_cases a b a cy) as [E | [_ [E | E]]]; rewrite E.
      * apply (IH a (cy + 2) 0 (j - 1)); lia.
      * apply (IH (a - 2) (cy + 2) 1 (j - 1)); lia.
      * apply (IH (a - 2) cy 1 j); lia.
  - destruct (quarter_next_cases a b cx cy) as [E | [H1 [E | E]]]; rewrite E.
    + apply (IH cx (cy + 2) k (j - 1)); lia.
    + apply (IH (cx - 2) (cy + 2) (k + 1) (j - 1)); lia.
    + apply (IH (cx - 2) cy (k + 1) j); lia.
Qed.

(** A filled ellipse is within its box. *)
Lemma in_ellipse_box (x0 y0 x1 y1 x y : Z) :
  in_ellipse x0 y0 x1 y1 x y = true -> in_box x0 y0 x1 y1 x y = true.
Proof.
  unfold in_ellipse. intros H.
  apply andb_true_iff in H as [H _]. now apply andb_true_iff in H as [_ H].
Qed.

(* ===================================================================== *)
(** ** Pixels *)
(* ===================================================================== *)

Lemma in_box_intro (x0 y0 x1 y1 x y : Z) :
  x0 <= x <= x1 -> y0 <= y <= y1 -> in_box x0 y0 x1 y1 x y = true.
Proof.
  intros Hx Hy. unfold in_box.
  replace (x0 <=? x) with true by (symmetry; apply Z.leb_le; lia).
  replace (x <=? x1) with true by (symmetry; apply Z.leb_le; lia).
  replace (y0 <=? y) with true by (symmetry; apply Z.leb_le; lia).
  replace (y <=? y1) with true by (symmetry; apply Z.leb_le; lia).
  reflexivity.
Qed.

(** A pixel whose doubled offsets from the centre are within the ideal
    ellipse is painted. *)
Lemma in_ellipse_inside (x1 y1 x y : Z) :
  0 <= x <= x1 -> 0 <= y <= y1 ->
  x1 ^ 2 * (2 * y - y1) ^ 2 + y1 ^ 2 * (2 * x - x1) ^ 2 <= x1 ^ 2 * y1 ^ 2 ->
  in_ellipse 0 0 x1 y1 x y = true.
Proof.
  intros Hx Hy Hf. unfold in_ellipse.
  replace (x1 - 0) with x1 by lia. replace (y1 - 0) with y1 by lia.
  replace (x - 0) with x by lia. replace (y - 0) with y by lia.
  replace (0 <=? x1) with true by (symmetry; apply Z.leb_le; lia).
  replace (0 <=? y1) with true by (symmetry; apply Z.leb_le; lia).
  rewrite in_box_intro by lia. cbn [andb]. apply Z.leb_le. unfold reach.
  pose proof (Z.div_mod y1 2 ltac:(lia)) as D.
  pose proof (Z.mod_pos_bound y1 2 ltac:(lia)) as M.
  set (X := Z.abs (2 * x - x1)). set (Y := Z.abs (2 * y - y1)).
  assert (F : quarter_f x1 y1 X Y <= 0).
  { unfold quarter_f, X, Y. rewrite !Z.pow_2_r in *. rewrite !Z.abs_square. lia. }
  assert (KX : exists k, x1 = X + 2 * k /\ 0 <= k).
  { unfold X. destruct (Z.abs_spec (2 * x - x1)) as [[H ->] | [H ->]];
      [exists (x1 - x) | exists x]; lia. }
  assert (KY : exists j, Y = y1 mod 2 + 2 * j).
  { unfold Y. destruct (Z.abs_spec (2 * y - y1)) as [[H ->] | [H ->]];
      [exists (y - y1 / 2 - y1 mod 2) | exists (y1 / 2 - y)]; lia. }
  destruct KX as (k & Kx & Kk). destruct KY as (j & Kj).
  assert (HX : 0 <= X) by apply Z.abs_nonneg.
  apply (quarter_reach_inside x1 y1 X Y _ x1 (y1 mod 2) k j); auto; lia.
Qed.

(** The middle of the canvas lies in the inscribed disc. *)
Lemma disc_contains (S x y : Z) :
  32 <= S ->
  199999999999 * S - 1000000000000 < 1000000000000 * x ->
  2000000000000 * x <= 2 * 800000000003 * S + 1000000000000 ->
  199999999999 * S - 1000000000000 < 1000000000000 * y ->
  2000000000000 * y <= 2 * 800000000003 * S + 1000000000000 ->
  in_ellipse 0 0 S S x y = true.
Proof.
  intros HS X1 X2 Y1 Y2. apply in_ellipse_inside; try lia.
  set (a := 2 * x - S). set (b := 2 * y - S).
  assert (A1 : -7 * S <= 10 * a <= 7 * S) by (unfold a; lia).
  assert (B1 : -7 * S <= 10 * b <= 7 * S) by (unfold b; lia).
  clearbody a b. clear - HS A1 B1. rewrite !Z.pow_2_r.
  assert (A2 : 100 * (a * a) <= 49 * (S * S)) by nia.
  assert (B2 : 100 * (b * b) <= 49 * (S * S)) by nia.
  assert (P : 0 <= S * S) by nia.
  nia.
Qed.

(** The corner of a box of at least 2 by 2 is outside the ellipse. *)
Lemma corner_outside_ellipse (S : Z) : 2 <= S -> in_ellipse 0 0 S S 0 0 = false.
Proof.
  intros HS. unfold in_ellipse.
  replace (S - 0) with S by lia. replace (2 * (0 - 0) - S) with (- S) by lia.
  rewrite Z.abs_opp, Z.abs_eq by lia.
  apply andb_false_iff. right. apply Z.leb_gt. unfold reach.
  pose proof (Z.div_mod S 2 ltac:(lia)) as D.
  pose proof (Z.mod_pos_bound S 2 ltac:(lia)) as M.
  pose proof (quarter_reach_top S S (Z.to_nat (S + S)) S (S mod 2) 0 (S / 2) HS HS) as T.
  assert (T' : quarter_reach (Z.to_nat (S + S)) S S S (S mod 2) S <= S - 2).
  { destruct (Z.eq_dec (S / 2) 0) as [E | E]; [lia |]. apply T; lia. }
  lia.
Qed.

Lemma canvas_drawn (sz sc : Z) (img : Image) :
  canvas sz sc = inr img ->
  drawn img =
  let lw := lock_width sz sc in
  let lh := lock_height sz sc in
  let lx := lock_x sz sc in
  let ly := lock_y sz sc in
  let sw := shackle_width sz sc in
  [ Ellipse ((Int 0, Int 0), (Int sz * Int sc, Int sz * Int sc))%py blue;
    RoundedRectangle ((lx, ly + lh * dec 4 10), (lx + lw, ly + lh))%py (lw * dec 1 10)%py white;
    Rectangle ((lx + lw * dec 3 10, ly), (lx + lw * dec 7 10, ly + lh * dec 5 10))%py white;
    Rectangle ((lx + lw * dec 3 10 - sw, ly), (lx + lw * dec 3 10 + sw, ly + lh * dec 5 10))%py white;
    Rectangle ((lx + lw * dec 7 10 - sw, ly), (lx + lw * dec 7 10 + sw, ly + lh * dec 5 10))%py white ].
Proof.
  unfold canvas. destruct (PIL.new _ _ _) as [e | img0] eqn:E; [discriminate |].
  unfold PIL.new in E. repeat (destruct (_ : bool) in E; [discriminate |]).
  injection E as <-. intros H. injection H as <-. reflexivity.
Qed.

(** An allocated canvas is square, of a side within the bounds of
    [Image.new], and transparent. *)
Lemma canvas_size (sz sc : Z) (img : Image) :
  canvas sz sc = inr img ->
  PIL.size img = (sz * sc, sz * sc) /\ background img = transparent /\
  0 <= sz * sc <= int_max / 4 - 1.
Proof.
  unfold canvas. destruct (PIL.new _ _ _) as [e | img0] eqn:E; [discriminate |].
  unfold PIL.new in E. cbn [fst snd] in E.
  destruct (Z.ltb_spec (sz * sc) 0) as [H | H]; cbn [orb] in E; [discriminate |].
  destruct (Z.ltb_spec int_max (sz * sc)) as [H1 | H1]; cbn [orb] in E; [discriminate |].
  destruct (Z.ltb_spec (int_max / 4 - 1) (sz * sc)) as [H2 | H2]; [discriminate |].
  injection E as <-. intros K. injection K as <-. repeat split; assumption.
Qed.

(** Conversely, within these bounds the canvas is allocated. *)
Lemma canvas_allocated (sz sc : Z) :
  0 <= sz * sc <= int_max / 4 - 1 ->
  canvas sz sc
  = inr (draw_lock sz sc (draw_background sz sc
           {| mode := "RGBA"; size := (sz * sc, sz * sc);
              background := transparent; drawn := [] |})).
Proof.
  intros [H1 H2]. unfold canvas, PIL.new. cbn [fst snd].
  replace (sz * sc <? 0) with false by (symmetry; apply Z.ltb_ge; lia).
  replace (int_max <? sz * sc) with false
    by (symmetry; apply Z.ltb_ge; etransitivity; [exact H2 | discriminate]).
  replace (int_max / 4 - 1 <? sz * sc) with false by (symmetry; apply Z.ltb_ge; lia).
  reflexivity.
Qed.

Lemma in_box_true (x0 y0 x1 y1 x y : Z) :
  in_box x0 y0 x1 y1 x y = true -> x0 <= x <= x1 /\ y0 <= y <= y1.
Proof.
  unfold in_box. intros H.
  apply andb_true_iff in H as [H H4]. apply andb_true_iff in H as [H H3].
  apply andb_true_iff in H as [H1 H2].
  apply Z.leb_le in H1, H2, H3, H4. lia.
Qed.

Lemma part_covers_box (p : part) (x y : Z) :
  part_covers p x y = true -> part_box p x y = true.
Proof.
  destruct p as [x0 y0 x1 y1 | x0 y0 x1 y1 sx sy | x0 y0 x1 y1];
    cbn [part_covers part_box]; intros H.
  - now apply in_ellipse_box.
  - unfold in_pieslice in H. apply andb_true_iff in H as [H _].
    apply andb_true_iff in H as [H _]. now apply in_ellipse_box.
  - exact H.
Qed.

Lemma covers_bounding_box (sh : shape) (x y : Z) :
  covers sh x y = true -> bounding_box sh x y = true.
Proof.
  destruct sh as [[[x0 y0] [x1 y1]] f | xy r f | [[x0 y0] [x1 y1]] f];
    cbn [covers bounding_box]; intros H.
  - now apply in_ellipse_box.
  - apply existsb_exists in H as (p & Hin & Hp). apply existsb_exists.
    exists p. split; [exact Hin | now apply part_covers_box].
  - exact H.
Qed.

Lemma paint_uncovered (shapes : list shape) (x y : Z) (c : colour) :
  (forall sh, In sh shapes -> covers sh x y = false) -> paint shapes x y c = c.
Proof.
  unfold paint. revert c. induction shapes as [| sh l IH]; intros c H; [reflexivity |].
  cbn [fold_left]. rewrite (H sh) by now left. apply IH. intros sh' Hin. apply H. now right.
Qed.

(* ===================================================================== *)
(** ** The lock body, part by part *)
(* ===================================================================== *)

Local Open Scope Q_scope.

Lemma Qle_bool_false (a b : Q) : b < a -> Qle_bool a b = false.
Proof.
  intros H. destruct (Qle_bool a b) eqn:E; [| reflexivity].
  apply Qle_bool_iff in E. lra.
Qed.

Lemma Qeq_bool_false (a b : Q) : b < a -> Qeq_bool a b = false.
Proof.
  intros H. destruct (Qeq_bool a b) eqn:E; [| reflexivity].
  apply Qeq_bool_iff in E. lra.
Qed.

Lemma of_int_2 : normal (Float64.of_int 2) 4503599627370496 (-51).
Proof. split; reflexivity. Qed.

Section Body.

Variables sz sc : Z.
Hypothesis canvas_range : (32 <= sz * sc < 2 ^ 53)%Z.

Let s : Q := inject_Z (sz * sc).

Lemma canvas_positive : (0 < sz * sc < 2 ^ 53)%Z.
Proof. lia. Qed.

Lemma ppt_le (p k : Z) :
  (p * (sz * sc) <= 1000000000000 * k)%Z -> ppt p * s <= inject_Z k.
Proof. intros H. unfold ppt, s, Qle, Qmult, inject_Z. cbn. lia. Qed.

Lemma ppt_ge (q k : Z) :
  (1000000000000 * k <= q * (sz * sc))%Z -> inject_Z k <= ppt q * s.
Proof. intros H. unfold ppt, s, Qle, Qmult, inject_Z. cbn. lia. Qed.

(** An integer coordinate, as a double. *)
Lemma int_approx (k p q : Z) :
  (0 < k < 2 ^ 53)%Z ->
  (p * (sz * sc) <= 1000000000000 * k)%Z -> (1000000000000 * k <= q * (sz * sc))%Z ->
  approx s (Float64.of_int k) (ppt p) (ppt q) (-52) 0.
Proof.
  intros Hk Hp Hq. destruct (of_int_spec k Hk) as (m & e & N & He & V).
  exists m, e. split; [exact N |]. split; [exact He |].
  destruct N as [-> _]. rewrite V. split; [now apply ppt_le | now apply ppt_ge].
Qed.

(** [d], twice the radius: 12% of the canvas. *)
Lemma body_d_approx :
  papprox s (lock_width sz sc * dec 1 10 * Int 2)%py
          (ppt 119999999997) (ppt 120000000003) (-56) 2.
Proof.
  destruct (shackle_width_approx sz sc canvas_positive) as (x & E & H).
  unfold shackle_width in E. rewrite E. cbn [Py.mul Py.to_float].
  eexists. split; [reflexivity |].
  assert (V : Float64.value (Float64.of_int 2) == 2) by reflexivity.
  pose proof (approx_mul_lit _ x _ _ _ 2 _ _ _ _ H of_int_2 V
                (s_nonneg sz sc canvas_positive) ltac:(qle) ltac:(qle)
                ltac:(lia) ltac:(lia)) as K.
  apply (approx_weaken _ _ _ _ _ _ _ _ _ _ K (s_nonneg sz sc canvas_positive));
    try lia; qle.
Qed.

(** The corners of the box, once rounded. *)
Lemma body_box_pixels :
  let x0 := round (lock_x sz sc) in
  let y0 := round (lock_y sz sc + lock_height sz sc * dec 4 10)%py in
  let x1 := round (lock_x sz sc + lock_width sz sc)%py in
  let y1 := round (lock_y sz sc + lock_height sz sc)%py in
  y1 = x1 /\
  (180000000000 * (sz * sc) <= 1000000000000 * x0 <= 220000000000 * (sz * sc))%Z /\
  (420000000000 * (sz * sc) <= 1000000000000 * y0 <= 460000000000 * (sz * sc))%Z /\
  (780000000000 * (sz * sc) <= 1000000000000 * x1 <= 820000000000 * (sz * sc))%Z /\
  (2 * 199999999999 * (sz * sc) - 1000000000000 <= 2000000000000 * x0)%Z /\
  (2 * 199999999999 * (sz * sc) - 1000000000000 <= 2000000000000 * y0)%Z /\
  (2000000000000 * x1 <= 2 * 800000000003 * (sz * sc) + 1000000000000)%Z.
Proof.
  cbv zeta. split; [reflexivity |].
  pose proof (coordinate_pixels sz sc _ _ _ _ _ (lock_x_approx sz sc canvas_positive)) as [_ X].
  pose proof (coordinate_pixels sz sc _ _ _ _ _ (body_top_approx sz sc canvas_positive)) as [_ T].
  pose proof (coordinate_pixels sz sc _ _ _ _ _ (lock_far_edge_approx sz sc canvas_positive)) as [_ F].
  lia.
Qed.

(** The far corners of the corner boxes: [x0 + d], [y0 + d] and
    [x1 - d]. *)
Lemma body_corner_pixels :
  let d := (lock_width sz sc * dec 1 10 * Int 2)%py in
  let x0 := round (lock_x sz sc) in
  let y0 := round (lock_y sz sc + lock_height sz sc * dec 4 10)%py in
  let x1 := round (lock_x sz sc + lock_width sz sc)%py in
  (1000000000000 * c_int (Int x0 + d)%py <= 360000000000 * (sz * sc))%Z /\
  (1000000000000 * c_int (Int y0 + d)%py <= 600000000000 * (sz * sc))%Z /\
  (640000000000 * (sz * sc) - 1000000000000 < 1000000000000 * c_int (Int x1 - d)%py)%Z.
Proof.
  cbv zeta. destruct body_box_pixels as (_ & X0 & Y0 & X1 & _).
  pose proof (s_nonneg sz sc canvas_positive) as Hs.
  pose proof (s_pos sz sc canvas_positive) as Hs'.
  destruct body_d_approx as (dd & Ed & Hd). rewrite Ed.
  cbn [Py.add Py.sub Py.to_float].
  split; [| split].
  - assert (K : approx s (Float64.of_int (round (lock_x sz sc)))
                  (ppt 180000000000) (ppt 220000000000) (-52) 0) by (apply int_approx; lia).
    pose proof (approx_add _ _ _ _ _ _ _ _ _ _ _ K Hd Hs ltac:(qle) ltac:(qle)
                  ltac:(lia) ltac:(lia) ltac:(lia)) as A.
    assert (P : papprox s (Float (Float64.add (Float64.of_int (round (lock_x sz sc))) dd))
                  (ppt 280000000000) (ppt 360000000000) (-52) 4).
    { eexists. split; [reflexivity |].
      apply (approx_weaken _ _ _ _ _ _ _ _ _ _ A Hs); try lia; qle. }
    apply (coordinate_pixels sz sc) in P as [[_ P] _]. exact P.
  - assert (K : approx s (Float64.of_int
                            (round (lock_y sz sc + lock_height sz sc * dec 4 10)%py))
                  (ppt 420000000000) (ppt 460000000000) (-52) 0) by (apply int_approx; lia).
    pose proof (approx_add _ _ _ _ _ _ _ _ _ _ _ K Hd Hs ltac:(qle) ltac:(qle)
                  ltac:(lia) ltac:(lia) ltac:(lia)) as A.
    assert (P : papprox s (Float (Float64.add
                              (Float64.of_int
                                 (round (lock_y sz sc + lock_height sz sc * dec 4 10)%py)) dd))
                  (ppt 520000000000) (ppt 600000000000) (-52) 4).
    { eexists. split; [reflexivity |].
      apply (approx_weaken _ _ _ _ _ _ _ _ _ _ A Hs); try lia; qle. }
    apply (coordinate_pixels sz sc) in P as [[_ P] _]. exact P.
  - assert (K : approx s (Float64.of_int (round (lock_x sz sc + lock_width sz sc)%py))
                  (ppt 780000000000) (ppt 820000000000) (-52) 0) by (apply int_approx; lia).
    pose proof (approx_sub _ _ _ _ _ _ _ _ _ _ _ K Hd Hs' ltac:(qlt)
                  ltac:(lia) ltac:(lia) ltac:(lia)) as A.
    assert (P : papprox s (Float (Float64.sub
                              (Float64.of_int (round (lock_x sz sc + lock_width sz sc)%py)) dd))
                  (ppt 640000000000) (ppt 720000000000) (-108) 1).
    { eexists. split; [reflexivity |].
      apply (approx_weaken _ _ _ _ _ _ _ _ _ _ A Hs); try lia; qle. }
    apply (coordinate_pixels sz sc) in P as [[P _] _]. exact P.
Qed.

(** The radius in pixels, [int(d // 2)]. *)
Lemma body_radius_pixels :
  (0 <= half (lock_width sz sc * dec 1 10 * Int 2)%py)%Z /\
  (1000000000000 * half (lock_width sz sc * dec 1 10 * Int 2)%py
   <= 70000000000 * (sz * sc))%Z.
Proof.
  pose proof (papprox_value sz sc _ _ _ _ _ body_d_approx) as [L U].
  pose proof (s_pos sz sc canvas_positive) as Hs. fold s in L, U, Hs.
  unfold half. set (v := Py.value _) in *.
  assert (E : v / 2 == v * (1 # 2)) by field.
  assert (F : inject_Z (Qfloor (v / 2)) <= v * (1 # 2)).
  { eapply Qle_trans; [apply Qfloor_le |]. rewrite E. apply Qle_refl. }
  assert (G : inject_Z 0 <= v / 2).
  { rewrite E. change (inject_Z 0) with 0. unfold ppt in L. lra. }
  apply Qfloor_resp_le in G. rewrite Qfloor_Z in G.
  split; [exact G |].
  assert (K : inject_Z (Qfloor (v / 2)) <= ppt 70000000000 * s) by (unfold ppt in *; lra).
  set (r := Qfloor (v / 2)) in *. clearbody r. clear - K.
  unfold ppt, s, Qle, Qmult, inject_Z in K. cbn in K. lia.
Qed.

(** From 32 pixels on the body is made of its four corners, the block
    between them and two strips. *)
Lemma body_parts :
  let d := (lock_width sz sc * dec 1 10 * Int 2)%py in
  let x0 := round (lock_x sz sc) in
  let y0 := round (lock_y sz sc + lock_height sz sc * dec 4 10)%py in
  let x1 := round (lock_x sz sc + lock_width sz sc)%py in
  let y1 := round (lock_y sz sc + lock_height sz sc)%py in
  let r := half d in
  let xa := c_int (Int x0 + d)%py in
  let ya := c_int (Int y0 + d)%py in
  let xb := c_int (Int x1 - d)%py in
  let yb := c_int (Int y1 - d)%py in
  rounded_parts
    ((lock_x sz sc, lock_y sz sc + lock_height sz sc * dec 4 10),
     (lock_x sz sc + lock_width sz sc, lock_y sz sc + lock_height sz sc))%py
    (lock_width sz sc * dec 1 10)%py
  = [ Slice x0 y0 xa ya (-1) (-1); Slice xb y0 x1 ya 1 (-1);
      Slice xb yb x1 y1 1 1; Slice x0 yb xa y1 (-1) 1;
      Block (x0 + r + 1) y0 (x1 - r - 1) y1;
      Block x0 (y0 + r + 1) (x0 + r) (y1 - r - 1);
      Block (x1 - r) (y0 + r + 1) x1 (y1 - r - 1) ]%Z.
Proof.
  cbv zeta. unfold rounded_parts.
  destruct body_box_pixels as (_ & X0 & Y0 & X1 & _).
  pose proof (papprox_value sz sc _ _ _ _ _ body_d_approx) as [L U].
  pose proof (s_pos sz sc canvas_positive) as Hs. fold s in L, U, Hs.
  change (lock_y sz sc) with (lock_x sz sc) in *.
  change (lock_height sz sc) with (lock_width sz sc) in *.
  set (d := (lock_width sz sc * dec 1 10 * Int 2)%py) in *.
  set (x0 := round (lock_x sz sc)) in *.
  set (y0 := round (lock_x sz sc + lock_width sz sc * dec 4 10)%py) in *.
  set (x1 := round (lock_x sz sc + lock_width sz sc)%py) in *.
  assert (Fx : Qle_bool (inject_Z (x1 - x0 - 1)) (Py.value d) = false).
  { apply Qle_bool_false. apply Qle_lt_trans with (ppt 120000000003 * s); [exact U |].
    apply Qlt_le_trans with (ppt 200000000000 * s); [unfold ppt; lra |].
    apply ppt_le. lia. }
  assert (Fy : Qle_bool (inject_Z (x1 - y0 - 1)) (Py.value d) = false).
  { apply Qle_bool_false. apply Qle_lt_trans with (ppt 120000000003 * s); [exact U |].
    apply Qlt_le_trans with (ppt 200000000000 * s); [unfold ppt; lra |].
    apply ppt_le. lia. }
  assert (Fz : Qeq_bool (Py.value d) 0 = false).
  { apply Qeq_bool_false. unfold ppt in L. lra. }
  cbv zeta. rewrite Fx. cbv iota. rewrite Fy. cbv iota. cbn [andb orb].
  rewrite Fz. reflexivity.
Qed.

(** Every part of the body lies within the lock square. *)
Lemma body_within (p : part) (x y : Z) :
  In p (rounded_parts
          ((lock_x sz sc, lock_y sz sc + lock_height sz sc * dec 4 10),
           (lock_x sz sc + lock_width sz sc, lock_y sz sc + lock_height sz sc))%py
          (lock_width sz sc * dec 1 10)%py) ->
  part_box p x y = true ->
  (199999999999 * (sz * sc) - 1000000000000 < 1000000000000 * x /\
   2000000000000 * x <= 2 * 800000000003 * (sz * sc) + 1000000000000 /\
   199999999999 * (sz * sc) - 1000000000000 < 1000000000000 * y /\
   2000000000000 * y <= 2 * 800000000003 * (sz * sc) + 1000000000000)%Z.
Proof.
  intros Hin Hb. rewrite body_parts in Hin. cbv zeta in Hin.
  destruct body_box_pixels as (Ey & X0 & Y0 & X1 & X0' & Y0' & X1').
  destruct body_corner_pixels as (XA & YA & XB).
  destruct body_radius_pixels as (R0 & R1).
  cbv zeta in *. rewrite Ey in *.
  change (lock_y sz sc) with (lock_x sz sc) in *.
  change (lock_height sz sc) with (lock_width sz sc) in *.
  set (d := (lock_width sz sc * dec 1 10 * Int 2)%py) in *.
  set (x0 := round (lock_x sz sc)) in *.
  set (y0 := round (lock_x sz sc + lock_width sz sc * dec 4 10)%py) in *.
  set (x1 := round (lock_x sz sc + lock_width sz sc)%py) in *.
  set (r := half d) in *.
  destruct Hin as [<- | [<- | [<- | [<- | [<- | [<- | [<- | []]]]]]]];
    cbn [part_box] in Hb; apply in_box_true in Hb; lia.
Qed.

End Body.

Local Open Scope Z_scope.

Section Frame.

Variables sz sc : Z.
Hypothesis canvas_range : 0 < sz * sc < 2 ^ 53.

Lemma c_int_canvas : c_int (Int (sz * sc)) = sz * sc.
Proof.
  unfold c_int, to_float.
  destruct (of_int_spec (sz * sc) canvas_range) as (m & e & [-> D] & _ & V).
  pose proof (trunc_spec m e) as [T1 T2]. rewrite V in T1, T2.
  assert (H2 : (inject_Z (sz * sc) < inject_Z (Float64.trunc (F m e) + 1))%Q)
    by (rewrite inject_Z_plus; exact T2).
  rewrite <- Zle_Qle in T1. rewrite <- Zlt_Qlt in H2. lia.
Qed.

Lemma in_disc_eq (x y : Z) : in_disc sz sc x y = in_ellipse 0 0 (sz * sc) (sz * sc) x y.
Proof.
  unfold in_disc. cbn [covers Py.mul]. rewrite c_int_canvas. reflexivity.
Qed.

(** From a canvas of 32 pixels on, the box of every shape of the lock, and
    of every part of the body, lies within the background disc. *)
Lemma lock_within_disc (img : Image) (x y : Z) (sh : shape) :
  32 <= sz * sc -> canvas sz sc = inr img ->
  In sh (tl (drawn img)) -> bounding_box sh x y = true ->
  in_disc sz sc x y = true.
Proof.
  intros HS Hc Hin Hcov. rewrite (canvas_drawn _ _ _ Hc) in *. cbv zeta in *.
  cbn [tl] in *. rewrite in_disc_eq.
  destruct Hin as [<- | Hin].
  { cbn [bounding_box] in Hcov. apply existsb_exists in Hcov as (p & Hp & Hb).
    pose proof (body_within sz sc ltac:(lia) p x y Hp Hb) as K.
    apply disc_contains; lia. }
  pose proof (coordinate_pixels sz sc _ _ _ _ _ (lock_x_approx sz sc canvas_range)) as [X Xr].
  pose proof (coordinate_pixels sz sc _ _ _ _ _ (bar_left_approx sz sc canvas_range)) as [A _].
  pose proof (coordinate_pixels sz sc _ _ _ _ _ (bar_right_approx sz sc canvas_range)) as [B _].
  pose proof (coordinate_pixels sz sc _ _ _ _ _ (shackle_bottom_approx sz sc canvas_range)) as [Y _].
  destruct (side_bars_approx sz sc canvas_range) as (AL & AR & BL & BR).
  apply (coordinate_pixels sz sc) in AL as [AL _].
  apply (coordinate_pixels sz sc) in AR as [AR _].
  apply (coordinate_pixels sz sc) in BL as [BL _].
  apply (coordinate_pixels sz sc) in BR as [BR _].
  destruct Hin as [<- | [<- | [<- | []]]];
    apply in_box_true in Hcov as [Px Py];
    change (lock_y sz sc) with (lock_x sz sc) in *;
    change (lock_height sz sc) with (lock_width sz sc) in *;
    apply disc_contains; lia.
Qed.

End Frame.

(* ===================================================================== *)
(** ** Small canvases, pixel by pixel *)
(* ===================================================================== *)

Lemma upto_In (n x : Z) : 0 <= x < n -> In x (upto n).
Proof.
  intros H. unfold upto. apply in_map_iff. exists (Z.to_nat x).
  split; [lia | apply in_seq; lia].
Qed.

Lemma frame_kept_sound (n : Z) (img : Image) (x y : Z) (sh : shape) :
  frame_kept n = true -> canvas n 1 = inr img ->
  0 <= x < n -> 0 <= y < n ->
  In sh (tl (drawn img)) -> bounding_box sh x y = true ->
  in_disc n 1 x y = true.
Proof.
  unfold frame_kept. intros H Hc Hx Hy Hin Hb. rewrite Hc in H.
  rewrite forallb_forall in H. specialize (H x (upto_In _ _ Hx)).
  rewrite forallb_forall in H. specialize (H y (upto_In _ _ Hy)).
  apply orb_true_iff in H as [H | H]; [exact H |].
  apply negb_true_iff in H.
  assert (K : existsb (fun sh => bounding_box sh x y) (tl (drawn img)) = true)
    by (apply existsb_exists; now exists sh).
  congruence.
Qed.

(** The canvas of one pixel, and those of 4 to 31. *)
Lemma small_canvases : forallb frame_kept (1 :: map Z.of_nat (seq 4 28)) = true.
Proof. vm_compute. reflexivity. Qed.

Lemma small_canvas (n : Z) : n = 1 \/ 4 <= n < 32 -> frame_kept n = true.
Proof.
  intros H. pose proof small_canvases as K. rewrite forallb_forall in K.
  apply K. destruct H as [-> | H]; [now left | right].
  apply in_map_iff. exists (Z.to_nat n). split; [lia | apply in_seq; lia].
Qed.

(** The canvas depends on [size] and [scale] through their product only. *)
Lemma canvas_by_dimension (sz sc : Z) : canvas sz sc = canvas (sz * sc) 1.
Proof.
  unfold canvas, draw_lock, draw_background, shackle_width, lock_x, lock_y,
    lock_height, lock_width.
  cbn [Py.mul]. rewrite !Z.mul_1_r. reflexivity.
Qed.

Lemma in_disc_by_dimension (sz sc x y : Z) : in_disc sz sc x y = in_disc (sz * sc) 1 x y.
Proof. unfold in_disc. cbn [Py.mul]. now rewrite !Z.mul_1_r. Qed.

Lemma corner_outside_disc (sz sc : Z) :
  2 <= sz * sc < 2 ^ 53 -> in_disc sz sc 0 0 = false.
Proof.
  intros H. rewrite (in_disc_eq sz sc) by lia. apply corner_outside_ellipse. lia.
Qed.

(** But for the canvases of 2 and 3 pixels, the lock stays within the disc,
    the boxes of its parts included. *)
Lemma lock_stays_in_disc (sz sc : Z) (img : Image) (x y : Z) (sh : shape) :
  sz * sc = 1 \/ 4 <= sz * sc < 2 ^ 53 -> canvas sz sc = inr img ->
  0 <= x < sz * sc -> 0 <= y < sz * sc ->
  In sh (tl (drawn img)) -> bounding_box sh x y = true ->
  in_disc sz sc x y = true.
Proof.
  intros HS Hc Hx Hy Hin Hb.
  destruct (Z.lt_ge_cases (sz * sc) 32) as [Hsmall | Hlarge].
  - rewrite canvas_by_dimension in Hc. rewrite in_disc_by_dimension.
    apply (frame_kept_sound (sz * sc) img x y sh); auto. apply small_canvas. lia.
  - apply (lock_within_disc sz sc ltac:(lia) img x y sh Hlarge Hc Hin Hb).
Qed.

(** Hence no pixel outside the disc is touched. *)
Lemma frame_untouched (sz sc : Z) (img : Image) (x y : Z) :
  sz * sc = 1 \/ 4 <= sz * sc < 2 ^ 53 -> canvas sz sc = inr img ->
  0 <= x < sz * sc -> 0 <= y < sz * sc -> in_disc sz sc x y = false ->
  paint (drawn img) x y (background img) = transparent.
Proof.
  intros HS Hc Hx Hy Hd.
  destruct (canvas_size _ _ _ Hc) as (_ & -> & _).
  apply paint_uncovered. intros sh Hin.
  pose proof (canvas_drawn _ _ _ Hc) as E. cbv zeta in E.
  destruct (covers sh x y) eqn:C; [exfalso | reflexivity].
  assert (Hin' := Hin). rewrite E in Hin'. destruct Hin' as [<- | Hin'].
  - unfold in_disc in Hd. congruence.
  - assert (K : in_disc sz sc x y = true); [| congruence].
    apply (lock_stays_in_disc sz sc img x y sh HS Hc Hx Hy).
    + rewrite E. exact Hin'.
    + now apply covers_bounding_box.
Qed.


(* ===================================================================== *)
(** ** The properties of the specification *)
(* ===================================================================== *)

(** *** The canvas *)

(** C4, as the specification states it, fails: not every positive [size]
    and [scale] gets a canvas.  A canvas of [2^31] pixels is more than the C
    [int] that [Image.new] takes: it raises OverflowError, and [create_icon]
    with it. *)
Lemma canvas_refused_beyond_c_int :
  0 < 2147483648 /\ 0 < 1 /\
  PIL.new "RGBA" (2147483648 * 1, 2147483648 * 1) (0, 0, 0, 0) = inl OverflowError /\
  canvas 2147483648 1 = inl OverflowError /\
  create_icon 2147483648 1 icon_dir_world = (icon_dir_world, inl OverflowError).
Proof. repeat split. Qed.

(** C4, amended.  For positive [size] and [scale] with a canvas of at most
    [int_max / 4 - 1 = 536870910] pixels, the longest line Pillow allocates,
    [create_icon] starts from an RGBA image of [size * scale] by [size *
    scale] pixels, every one of which is (0, 0, 0, 0); the drawing that
    follows keeps the size. *)
Theorem canvas_allocated_transparent (size scale : Z) :
  0 < size -> 0 < scale -> size * scale <= 536870910 ->
  exists img0,
    PIL.new "RGBA" (size * scale, size * scale) (0, 0, 0, 0) = inr img0 /\
    mode img0 = "RGBA"%string /\
    PIL.size img0 = (size * scale, size * scale) /\
    (forall x y, 0 <= x < size * scale -> 0 <= y < size * scale ->
                 getpixel img0 (x, y) = Some (0, 0, 0, 0)) /\
    (forall x y c, getpixel img0 (x, y) = Some c -> c = (0, 0, 0, 0)) /\
    canvas size scale = inr (draw_lock size scale (draw_background size scale img0)) /\
    PIL.size (draw_lock size scale (draw_background size scale img0))
    = (size * scale, size * scale).
Proof.
  intros Hs Hk Hb. assert (HS : 0 < size * scale) by lia.
  unfold canvas, PIL.new, transparent. cbn [fst snd].
  replace (size * scale <? 0) with false by (symmetry; apply Z.ltb_ge; lia).
  replace (int_max <? size * scale) with false
    by (symmetry; apply Z.ltb_ge; etransitivity; [exact Hb | discriminate]).
  replace (int_max / 4 - 1 <? size * scale) with false
    by (symmetry; apply Z.ltb_ge; exact Hb).
  cbn [orb]. eexists. split; [reflexivity |]. cbn.
  repeat split.
  - intros x y Hx Hy. unfold inside. cbn.
    replace (0 <=? x) with true by (symmetry; apply Z.leb_le; lia).
    replace (x <? size * scale) with true by (symmetry; apply Z.ltb_lt; lia).
    replace (0 <=? y) with true by (symmetry; apply Z.leb_le; lia).
    replace (y <? size * scale) with true by (symmetry; apply Z.ltb_lt; lia).
    reflexivity.
  - intros x y c. destruct (inside _ x y); congruence.
Qed.

Lemma canvas_allocated_transparent_witness :
  exists img0,
    PIL.new "RGBA" (512 * 2, 512 * 2) (0, 0, 0, 0) = inr img0 /\
    mode img0 = "RGBA"%string /\
    PIL.size img0 = (512 * 2, 512 * 2) /\
    (forall x y, 0 <= x < 512 * 2 -> 0 <= y < 512 * 2 ->
                 getpixel img0 (x, y) = Some (0, 0, 0, 0)) /\
    (forall x y c, getpixel img0 (x, y) = Some c -> c = (0, 0, 0, 0)) /\
    canvas 512 2 = inr (draw_lock 512 2 (draw_background 512 2 img0)) /\
    PIL.size (draw_lock 512 2 (draw_background 512 2 img0)) = (512 * 2, 512 * 2).
Proof. apply (canvas_allocated_transparent 512 2); [lia | lia | discriminate]. Defined.

(** C1, as the specification states it, fails: at the centre of the 512 by
    512 icon the lock is on top of the background, and the pixel is white. *)
Lemma centre_pixel_is_lock :
  exists img, canvas 512 1 = inr img /\
    getpixel img (256, 256) = Some (255, 255, 255, 255) /\
    option_map rgb_of (getpixel img (256, 256)) <> Some (0, 102, 204).
Proof.
  eexists. split; [reflexivity |]. split; [vm_compute; reflexivity |].
  vm_compute. discriminate.
Qed.

(** C1, amended.  For [size = 512] and [scale = 1] the centre pixel holds
    the blue fill once the background ellipse is drawn, and the white fill
    of the lock once all drawing steps are done; in the finished image the
    blue background shows inside the disc away from the lock, as at
    (256, 50). *)
Theorem centre_pixel_background_then_lock :
  exists img0,
    PIL.new "RGBA" (512 * 1, 512 * 1) transparent = inr img0 /\
    canvas 512 1 = inr (draw_lock 512 1 (draw_background 512 1 img0)) /\
    option_map rgb_of (getpixel (draw_background 512 1 img0) (256, 256))
    = Some (0, 102, 204) /\
    option_map rgb_of (getpixel (draw_lock 512 1 (draw_background 512 1 img0)) (256, 256))
    = Some (255, 255, 255) /\
    option_map rgb_of (getpixel (draw_lock 512 1 (draw_background 512 1 img0)) (256, 50))
    = Some (0, 102, 204).
Proof.
  eexists. split; [reflexivity |]. split; [reflexivity |].
  repeat split; vm_compute; reflexivity.
Qed.

(** C10, as the specification states it, fails: on the 3 by 3 canvas the
    left bar of the shackle, whose corner (0.96, 0.6) Pillow casts to (0, 0),
    paints the corner pixel, which is outside the disc.  The same happens on
    the 2 by 2 canvas. *)
Lemma corner_painted_on_small_canvas :
  exists img, canvas 3 1 = inr img /\
    in_disc 3 1 0 0 = false /\
    Py.c_int (lock_x 3 1 + lock_width 3 1 * dec 3 10 - shackle_width 3 1)%py = 0 /\
    Py.c_int (lock_y 3 1) = 0 /\
    getpixel img (0, 0) = Some (255, 255, 255, 255) /\
    getpixel img (0, 0) <> Some (0, 0, 0, 0) /\
    exists img2, canvas 2 1 = inr img2 /\
      in_disc 2 1 0 0 = false /\
      getpixel img2 (0, 0) = Some (255, 255, 255, 255).
Proof.
  eexists. split; [reflexivity |].
  do 4 (split; [vm_compute; reflexivity |]).
  split; [vm_compute; discriminate |].
  eexists. split; [reflexivity |]. split; vm_compute; reflexivity.
Qed.

(** C10, amended.  For positive [size] and [scale] with a canvas of any
    width but 2 and 3 pixels (up to 46340, as far as the ellipse is drawn
    in exact arithmetic), every pixel of the canvas that the background
    ellipse does not cover is still (0, 0, 0, 0) after all drawing steps:
    the shapes of the lock, and even the boxes of the parts they are drawn
    from, lie within the disc.  From 4 pixels on the corner (0, 0) is such a
    pixel; on the canvas of one pixel the ellipse covers it. *)
Theorem pixels_outside_disc_stay_transparent (size scale : Z) (img : Image) :
  0 < size -> 0 < scale ->
  size * scale = 1 \/ 4 <= size * scale <= 46340 ->
  canvas size scale = inr img ->
  (forall x y, 0 <= x < size * scale -> 0 <= y < size * scale ->
               in_disc size scale x y = false ->
               getpixel img (x, y) = Some (0, 0, 0, 0)) /\
  (forall x y sh, 0 <= x < size * scale -> 0 <= y < size * scale ->
                  In sh (tl (drawn img)) -> bounding_box sh x y = true ->
                  in_disc size scale x y = true) /\
  (4 <= size * scale ->
   in_disc size scale 0 0 = false /\ getpixel img (0, 0) = Some (0, 0, 0, 0)).
Proof.
  intros Hsz Hsc HS Hc.
  assert (HS' : size * scale = 1 \/ 4 <= size * scale < 2 ^ 53).
  { destruct HS as [HS | HS]; [now left | right].
    split; [lia | apply Z.le_lt_trans with 46340; [lia | reflexivity]]. }
  assert (G : forall x y, 0 <= x < size * scale -> 0 <= y < size * scale ->
                          in_disc size scale x y = false ->
                          getpixel img (x, y) = Some (0, 0, 0, 0)).
  { intros x y Hx Hy Hd. unfold getpixel, inside.
    destruct (canvas_size _ _ _ Hc) as (-> & _ & _). cbn [fst snd].
    replace (0 <=? x) with true by (symmetry; apply Z.leb_le; lia).
    replace (x <? size * scale) with true by (symmetry; apply Z.ltb_lt; lia).
    replace (0 <=? y) with true by (symmetry; apply Z.leb_le; lia).
    replace (y <? size * scale) with true by (symmetry; apply Z.ltb_lt; lia).
    cbn [andb]. f_equal. now apply (frame_untouched size scale). }
  split; [exact G |]. split.
  - intros x y sh Hx Hy Hin Hb. now apply (lock_stays_in_disc size scale img x y sh).
  - intros H4.
    assert (C : in_disc size scale 0 0 = false) by (apply corner_outside_disc; lia).
    split; [exact C | apply G; [lia | lia | exact C]].
Qed.

Lemma pixels_outside_disc_stay_transparent_witness :
  exists img, canvas 512 2 = inr img /\
  (forall x y, 0 <= x < 512 * 2 -> 0 <= y < 512 * 2 ->
               in_disc 512 2 x y = false ->
               getpixel img (x, y) = Some (0, 0, 0, 0)) /\
  (forall x y sh, 0 <= x < 512 * 2 -> 0 <= y < 512 * 2 ->
                  In sh (tl (drawn img)) -> bounding_box sh x y = true ->
                  in_disc 512 2 x y = true) /\
  (4 <= 512 * 2 ->
   in_disc 512 2 0 0 = false /\ getpixel img (0, 0) = Some (0, 0, 0, 0)).
Proof.
  eexists. split; [reflexivity |].
  apply (pixels_outside_disc_stay_transparent 512 2); [lia | lia | | reflexivity].
  right. split; discriminate.
Defined.


(** *** The lock *)

(** C3, as the specification states it, fails at the very arguments of the
    script: 60% of 512 is 307.2, which no double is, and the right margin
    the script's own arithmetic gives, [512 - (lock_x + lock_width)], is
    not [lock_x] (the sum is rounded). *)
Lemma lock_rectangle_not_exact :
  ~ (Py.value (lock_width 512 1) == (6 # 10) * inject_Z (512 * 1))%Q /\
  ~ (Py.value (Int 512 * Int 1 - (lock_x 512 1 + lock_width 512 1))%py
     == Py.value (lock_x 512 1))%Q.
Proof. split; vm_compute; discriminate. Qed.

(** C3, amended.  For positive [size] and [scale] (with the canvas below
    [2^53], where ints convert to doubles exactly) the lock is as high as it
    is wide and as far from the top as from the left; its width is the
    double product [size * scale * 0.6], within one part in [2^52] of 60% of
    the canvas; and [lock_x] is exactly half of what the width leaves, so
    that, as real numbers, the right margin [size * scale - (lock_x +
    lock_width)] equals the left one. *)
Theorem lock_rectangle_centred (size scale : Z) :
  0 < size -> 0 < scale -> size * scale < 2 ^ 53 ->
  lock_height size scale = lock_width size scale /\
  lock_y size scale = lock_x size scale /\
  (Qabs (Py.value (lock_width size scale) - (6 # 10) * inject_Z (size * scale))
   <= (1 # 2 ^ 52) * inject_Z (size * scale))%Q /\
  (Py.value (lock_x size scale)
   == (inject_Z (size * scale) - Py.value (lock_width size scale)) / 2)%Q /\
  (inject_Z (size * scale) - (Py.value (lock_x size scale) + Py.value (lock_width size scale))
   == Py.value (lock_x size scale))%Q.
Proof.
  intros Hsz Hsc HS. assert (R : 0 < size * scale < 2 ^ 53) by lia.
  split; [reflexivity |]. split; [reflexivity |].
  destruct (lock_x_exact size scale R) as (w & x & Ew & Ex & V).
  destruct (lock_width_tight size scale R) as (w' & Ew' & m & e & _ & _ & [L U]).
  rewrite Ew in Ew'. injection Ew' as <-.
  rewrite Ew, Ex. cbn [Py.value].
  set (s := inject_Z (size * scale)) in *. set (v := Float64.value w) in *.
  assert (Hs : (0 < s)%Q) by (apply s_pos; exact R).
  split; [| split].
  - apply Qabs_Qle_condition. change (1 # 2 ^ 52)%Q with u. unfold u in *. split; lra.
  - exact V.
  - rewrite V. field.
Qed.

Lemma lock_rectangle_centred_witness :
  lock_height 512 1 = lock_width 512 1 /\
  lock_y 512 1 = lock_x 512 1 /\
  (Qabs (Py.value (lock_width 512 1) - (6 # 10) * inject_Z (512 * 1))
   <= (1 # 2 ^ 52) * inject_Z (512 * 1))%Q /\
  (Py.value (lock_x 512 1)
   == (inject_Z (512 * 1) - Py.value (lock_width 512 1)) / 2)%Q /\
  (inject_Z (512 * 1) - (Py.value (lock_x 512 1) + Py.value (lock_width 512 1))
   == Py.value (lock_x 512 1))%Q.
Proof. apply (lock_rectangle_centred 512 1); [lia | lia | reflexivity]. Defined.

(** C6.  The lock body is drawn by the one [rounded_rectangle] call, the
    second drawing call: filled white, from 40% of the lock height below the
    top of the lock ([lock_y + lock_height * 0.4]) down to its full height
    ([lock_y + lock_height]), across its full width, with radius
    [lock_width * 0.1].  In numbers (for a canvas below [2^53]): top, bottom
    and radius are within [10^-11] of the canvas of 40% and 100% of the lock
    height below [lock_y], and of 10% of the lock width. *)
Theorem lock_body_is_rounded_rectangle (size scale : Z) (img : Image) :
  canvas size scale = inr img ->
  let top := lock_y size scale in
  let height := lock_height size scale in
  let left := lock_x size scale in
  let width := lock_width size scale in
  let body :=
    RoundedRectangle
      ((left, top + height * dec 4 10), (left + width, top + height))%py
      (width * dec 1 10)%py
      (255, 255, 255) in
  List.filter is_rounded_rectangle (drawn img) = [body] /\
  nth_error (drawn img) 1 = Some body /\
  (0 < size * scale < 2 ^ 53 ->
   let s := inject_Z (size * scale) in
   (Qabs (Py.value (top + height * dec 4 10)%py
          - (Py.value top + (4 # 10) * Py.value height)) <= ppt 10 * s)%Q /\
   (Qabs (Py.value (top + height)%py
          - (Py.value top + Py.value height)) <= ppt 10 * s)%Q /\
   (Qabs (Py.value (width * dec 1 10)%py - (1 # 10) * Py.value width) <= ppt 10 * s)%Q /\
   (Py.value (top + height * dec 4 10)%py < Py.value (top + height)%py)%Q).
Proof.
  intros H. cbv zeta. rewrite (canvas_drawn _ _ _ H).
  split; [reflexivity |]. split; [reflexivity |]. intros R.
  pose proof (papprox_value size scale _ _ _ _ _ (lock_x_approx size scale R)) as X.
  pose proof (papprox_value size scale _ _ _ _ _ (lock_width_approx size scale R)) as W.
  pose proof (papprox_value size scale _ _ _ _ _ (body_top_approx size scale R)) as T.
  pose proof (papprox_value size scale _ _ _ _ _ (lock_far_edge_approx size scale R)) as B.
  pose proof (papprox_value size scale _ _ _ _ _ (shackle_width_approx size scale R)) as K.
  pose proof (s_pos size scale R) as Hs.
  change (lock_y size scale) with (lock_x size scale) in *.
  change (lock_height size scale) with (lock_width size scale) in *.
  change (shackle_width size scale) with (lock_width size scale * dec 1 10)%py in K.
  unfold ppt in *.
  repeat split; try (apply Qabs_Qle_condition; split); lra.
Qed.

Lemma lock_body_is_rounded_rectangle_witness :
  exists img, canvas 512 1 = inr img /\
  let top := lock_y 512 1 in
  let height := lock_height 512 1 in
  let left := lock_x 512 1 in
  let width := lock_width 512 1 in
  let body :=
    RoundedRectangle
      ((left, top + height * dec 4 10), (left + width, top + height))%py
      (width * dec 1 10)%py
      (255, 255, 255) in
  List.filter is_rounded_rectangle (drawn img) = [body] /\
  nth_error (drawn img) 1 = Some body /\
  (0 < 512 * 1 < 2 ^ 53 ->
   let s := inject_Z (512 * 1) in
   (Qabs (Py.value (top + height * dec 4 10)%py
          - (Py.value top + (4 # 10) * Py.value height)) <= ppt 10 * s)%Q /\
   (Qabs (Py.value (top + height)%py
          - (Py.value top + Py.value height)) <= ppt 10 * s)%Q /\
   (Qabs (Py.value (width * dec 1 10)%py - (1 # 10) * Py.value width) <= ppt 10 * s)%Q /\
   (Py.value (top + height * dec 4 10)%py < Py.value (top + height)%py)%Q).
Proof.
  eexists. split; [reflexivity |].
  apply (lock_body_is_rounded_rectangle 512 1). reflexivity.
Defined.

(** C7.  The shackle is drawn by the three [rectangle] calls, the last
    three drawing calls, all filled white and all from [lock_y] down to
    [lock_y + lock_height * 0.5]: the central bar from [lock_x + lock_width
    * 0.3] to [lock_x + lock_width * 0.7], and a bar of half-width
    [shackle_width = lock_width * 0.1] around each of these two edges.  In
    numbers (for a canvas below [2^53]) the side bars reach past the central
    bar, to within [10^-11] of the canvas of 20% and 80% of the lock width
    from [lock_x]. *)
Theorem shackle_is_three_rectangles (size scale : Z) (img : Image) :
  canvas size scale = inr img ->
  let top := lock_y size scale in
  let bottom := (lock_y size scale + lock_height size scale * dec 5 10)%py in
  let left := (lock_x size scale + lock_width size scale * dec 3 10)%py in
  let right := (lock_x size scale + lock_width size scale * dec 7 10)%py in
  let half := shackle_width size scale in
  let bars :=
    [ Rectangle ((left, top), (right, bottom)) (255, 255, 255);
      Rectangle ((left - half, top), (left + half, bottom))%py (255, 255, 255);
      Rectangle ((right - half, top), (right + half, bottom))%py (255, 255, 255) ] in
  half = (lock_width size scale * dec 1 10)%py /\
  List.filter is_rectangle (drawn img) = bars /\
  skipn 2 (drawn img) = bars /\
  (0 < size * scale < 2 ^ 53 ->
   let s := inject_Z (size * scale) in
   (Py.value (left - half)%py < Py.value left)%Q /\
   (Py.value right < Py.value (right + half)%py)%Q /\
   (Qabs (Py.value (left - half)%py
          - (Py.value (lock_x size scale) + (2 # 10) * Py.value (lock_width size scale)))
    <= ppt 10 * s)%Q /\
   (Qabs (Py.value (right + half)%py
          - (Py.value (lock_x size scale) + (8 # 10) * Py.value (lock_width size scale)))
    <= ppt 10 * s)%Q /\
   (Qabs (Py.value bottom
          - (Py.value top + (5 # 10) * Py.value (lock_height size scale)))
    <= ppt 10 * s)%Q).
Proof.
  intros H. cbv zeta. rewrite (canvas_drawn _ _ _ H).
  split; [reflexivity |]. split; [reflexivity |]. split; [reflexivity |]. intros R.
  pose proof (papprox_value size scale _ _ _ _ _ (lock_x_approx size scale R)) as X.
  pose proof (papprox_value size scale _ _ _ _ _ (lock_width_approx size scale R)) as W.
  pose proof (papprox_value size scale _ _ _ _ _ (bar_left_approx size scale R)) as A.
  pose proof (papprox_value size scale _ _ _ _ _ (bar_right_approx size scale R)) as B.
  pose proof (papprox_value size scale _ _ _ _ _ (shackle_bottom_approx size scale R)) as Y.
  destruct (side_bars_approx size scale R) as (AL & _ & _ & BR).
  apply (papprox_value size scale) in AL. apply (papprox_value size scale) in BR.
  pose proof (s_pos size scale R) as Hs.
  change (lock_y size scale) with (lock_x size scale) in *.
  change (lock_height size scale) with (lock_width size scale) in *.
  unfold ppt in *.
  repeat split; try (apply Qabs_Qle_condition; split); lra.
Qed.

Lemma shackle_is_three_rectangles_witness :
  exists img, canvas 512 2 = inr img /\
  let top := lock_y 512 2 in
  let bottom := (lock_y 512 2 + lock_height 512 2 * dec 5 10)%py in
  let left := (lock_x 512 2 + lock_width 512 2 * dec 3 10)%py in
  let right := (lock_x 512 2 + lock_width 512 2 * dec 7 10)%py in
  let half := shackle_width 512 2 in
  let bars :=
    [ Rectangle ((left, top), (right, bottom)) (255, 255, 255);
      Rectangle ((left - half, top), (left + half, bottom))%py (255, 255, 255);
      Rectangle ((right - half, top), (right + half, bottom))%py (255, 255, 255) ] in
  half = (lock_width 512 2 * dec 1 10)%py /\
  List.filter is_rectangle (drawn img) = bars /\
  skipn 2 (drawn img) = bars /\
  (0 < 512 * 2 < 2 ^ 53 ->
   let s := inject_Z (512 * 2) in
   (Py.value (left - half)%py < Py.value left)%Q /\
   (Py.value right < Py.value (right + half)%py)%Q /\
   (Qabs (Py.value (left - half)%py
          - (Py.value (lock_x 512 2) + (2 # 10) * Py.value (lock_width 512 2)))
    <= ppt 10 * s)%Q /\
   (Qabs (Py.value (right + half)%py
          - (Py.value (lock_x 512 2) + (8 # 10) * Py.value (lock_width 512 2)))
    <= ppt 10 * s)%Q /\
   (Qabs (Py.value bottom
          - (Py.value top + (5 # 10) * Py.value (lock_height 512 2)))
    <= ppt 10 * s)%Q).
Proof.
  eexists. split; [reflexivity |].
  apply (shackle_is_three_rectangles 512 2). reflexivity.
Defined.


(** *** The file *)

(** C5.  The file name is [app_icon_{size}x{size}.png], without any [@],
    when [scale = 1], and [app_icon_{size}x{size}@{scale}x.png] when
    [scale > 1]. *)
Theorem filename_scale_suffix (size scale : Z) :
  (scale = 1 ->
     filename size scale = "app_icon_" +:+ str size +:+ "x" +:+ str size +:+ ".png"
     /\ occurs "@" (filename size scale) = false) /\
  (1 < scale ->
     filename size scale
     = "app_icon_" +:+ str size +:+ "x" +:+ str size +:+ "@" +:+ str scale +:+ "x" +:+ ".png").
Proof.
  unfold filename. split.
  - intros ->. rewrite Z.ltb_irrefl, !app_assoc_s. split; [reflexivity |].
    rewrite !occurs_app, !str_no_at. reflexivity.
  - intros H. apply Z.ltb_lt in H. rewrite H. now rewrite !app_assoc_s.
Qed.

Lemma filename_scale_suffix_witness :
  (filename 512 1 = "app_icon_512x512.png"%string /\ occurs "@" (filename 512 1) = false) /\
  filename 512 2 = "app_icon_512x512@2x.png"%string.
Proof.
  split.
  - apply (proj1 (filename_scale_suffix 512 1)). reflexivity.
  - apply (proj2 (filename_scale_suffix 512 2)). reflexivity.
Defined.

(** C2, as the specification states it, fails: [create_icon] has no step
    that creates the directory.  Where the directory is missing it raises
    FileNotFoundError when it saves, and the directory is still missing. *)
Lemma create_icon_without_directory :
  create_icon 512 1 empty_world = (empty_world, inl FileNotFoundError) /\
  fs empty_world !! icon_dir = None.
Proof. split; [vm_compute; reflexivity | reflexivity]. Qed.

(** C2, amended.  The directory is ensured once, by the module body (line 7)
    before [create_icon] is first called and not by [create_icon]:
    [os.makedirs(icon_dir, exist_ok=True)] leaves the directory and its
    ancestors in place, creating those that are missing, touching nothing
    else, and changing nothing (and raising nothing) when they are all
    there; [create_icon] itself neither creates nor removes a directory. *)
Theorem directory_ensured_by_script (w : world) :
  (forall p, In p (parents icon_dir ++ [icon_dir]) -> not_a_file w p) ->
  exists w0,
    makedirs icon_dir true w = (w0, inr tt) /\
    (forall p, In p (parents icon_dir ++ [icon_dir]) -> is_dir w0 p) /\
    (forall q, ~ In q (parents icon_dir ++ [icon_dir]) -> fs w0 !! q = fs w !! q) /\
    ((forall p, In p (parents icon_dir ++ [icon_dir]) -> is_dir w p) -> w0 = w) /\
    main w = (create_icon 512 1 ;; create_icon 512 2 ;; print "图标生成完成!") w0 /\
    (forall size scale w1 w2 r,
        create_icon size scale w1 = (w2, r) -> forall p, is_dir w2 p <-> is_dir w1 p).
Proof.
  intros Hw. destruct (makedirs_ok icon_dir w Hw) as (w0 & R & _ & D & F & I).
  exists w0. repeat split; auto.
  - unfold main. now rewrite (run_bind _ _ _ _ _ R).
  - now apply (create_icon_keeps_dirs _ _ _ _ _ H).
  - now apply (create_icon_keeps_dirs _ _ _ _ _ H).
Qed.

Lemma directory_ensured_by_script_witness :
  exists w0,
    makedirs icon_dir true empty_world = (w0, inr tt) /\
    (forall p, In p (parents icon_dir ++ [icon_dir]) -> is_dir w0 p) /\
    (forall q, ~ In q (parents icon_dir ++ [icon_dir]) -> fs w0 !! q = fs empty_world !! q) /\
    ((forall p, In p (parents icon_dir ++ [icon_dir]) -> is_dir empty_world p) -> w0 = empty_world) /\
    main empty_world = (create_icon 512 1 ;; create_icon 512 2 ;; print "图标生成完成!") w0 /\
    (forall size scale w1 w2 r,
        create_icon size scale w1 = (w2, r) -> forall p, is_dir w2 p <-> is_dir w1 p).
Proof.
  apply (directory_ensured_by_script empty_world).
  intros p _ c. cbn. rewrite lookup_empty. discriminate.
Defined.

(** C8.  The module body calls [create_icon(512, 1)] and then
    [create_icon(512, 2)], and nothing else but the final [print]: it leaves
    a 512 by 512 image at [app_icon_512x512.png] and a 1024 by 1024 image at
    [app_icon_512x512@2x.png] in the icon directory, and prints one line for
    each, then the banner. *)
Theorem main_writes_both_icons (w : world) :
  (forall p, In p (parents icon_dir ++ [icon_dir]) -> not_a_file w p) ->
  fs w !! filepath 512 1 <> Some Dir ->
  fs w !! filepath 512 2 <> Some Dir ->
  exists w0 img1 img2,
    makedirs icon_dir true w = (w0, inr tt) /\
    main w = (create_icon 512 1 ;; create_icon 512 2 ;; print "图标生成完成!") w0 /\
    canvas 512 1 = inr img1 /\ PIL.size img1 = (512, 512) /\
    canvas 512 2 = inr img2 /\ PIL.size img2 = (1024, 1024) /\
    filepath 512 1
    = "FileLocker/Assets.xcassets/AppIcon.appiconset/app_icon_512x512.png"%string /\
    filepath 512 2
    = "FileLocker/Assets.xcassets/AppIcon.appiconset/app_icon_512x512@2x.png"%string /\
    main w
    = ({| fs := <[filepath 512 2 := File img2]> (<[filepath 512 1 := File img1]> (fs w0));
          stdout := stdout w ++ ["生成图标: " +:+ filepath 512 1;
                                 "生成图标: " +:+ filepath 512 2;
                                 "图标生成完成!"%string] |},
       inr tt).
Proof.
  intros Hw H1 H2.
  destruct (makedirs_ok icon_dir w Hw) as (w0 & R & O & D & F & _).
  exists w0, (draw_lock 512 1 (draw_background 512 1
                {| mode := "RGBA"; size := (512, 512); background := transparent; drawn := [] |})),
    (draw_lock 512 2 (draw_background 512 2
                {| mode := "RGBA"; size := (1024, 1024); background := transparent; drawn := [] |})).
  assert (M : main w = (create_icon 512 1 ;; create_icon 512 2 ;; print "图标生成完成!") w0).
  { unfold main. now rewrite (run_bind _ _ _ _ _ R). }
  split; [exact R |]. split; [exact M |].
  split; [reflexivity |]. split; [reflexivity |].
  split; [reflexivity |]. split; [reflexivity |].
  split; [reflexivity |]. split; [reflexivity |].
  rewrite M.
  erewrite run_bind; cycle 1.
  { apply create_icon_run; [reflexivity | reflexivity | | |].
    - rewrite dirname_filepath. exact icon_dir_nonempty.
    - rewrite dirname_filepath. now apply icon_dir_levels_are_dirs.
    - rewrite F by apply filepath_not_level. exact H1. }
  erewrite run_bind; cycle 1.
  { apply create_icon_run; [reflexivity | reflexivity | | |].
    - rewrite dirname_filepath. exact icon_dir_nonempty.
    - rewrite dirname_filepath. unfold is_dir. cbn [fs].
      rewrite lookup_insert_ne by apply filepath_ne_icon_dir.
      now apply icon_dir_levels_are_dirs.
    - cbn [fs]. rewrite lookup_insert_ne by (vm_compute; discriminate).
      rewrite F by apply filepath_not_level. exact H2. }
  unfold print. cbn [fs stdout]. rewrite O, <- !app_assoc. reflexivity.
Qed.

Lemma main_writes_both_icons_witness :
  exists w0 img1 img2,
    makedirs icon_dir true empty_world = (w0, inr tt) /\
    main empty_world = (create_icon 512 1 ;; create_icon 512 2 ;; print "图标生成完成!") w0 /\
    canvas 512 1 = inr img1 /\ PIL.size img1 = (512, 512) /\
    canvas 512 2 = inr img2 /\ PIL.size img2 = (1024, 1024) /\
    filepath 512 1
    = "FileLocker/Assets.xcassets/AppIcon.appiconset/app_icon_512x512.png"%string /\
    filepath 512 2
    = "FileLocker/Assets.xcassets/AppIcon.appiconset/app_icon_512x512@2x.png"%string /\
    main empty_world
    = ({| fs := <[filepath 512 2 := File img2]> (<[filepath 512 1 := File img1]> (fs w0));
          stdout := stdout empty_world ++ ["生成图标: " +:+ filepath 512 1;
                                 "生成图标: " +:+ filepath 512 2;
                                 "图标生成完成!"%string] |},
       inr tt).
Proof.
  apply (main_writes_both_icons empty_world).
  - intros p _ c. cbn. rewrite lookup_empty. discriminate.
  - cbn. rewrite lookup_empty. discriminate.
  - cbn. rewrite lookup_empty. discriminate.
Defined.

(** C9.  A second [create_icon] with the same arguments writes to the same
    path: it succeeds, prints the same path, and leaves the files as the
    first run left them (the file is replaced, none is added). *)
Theorem create_icon_again_overwrites (size scale : Z) (w w1 : world) :
  create_icon size scale w = (w1, inr tt) ->
  exists img,
    canvas size scale = inr img /\
    fs w1 = <[filepath size scale := File img]> (fs w) /\
    create_icon size scale w1
    = ({| fs := fs w1;
          stdout := stdout w1 ++ ["生成图标: " +:+ filepath size scale] |}, inr tt).
Proof.
  intros H. apply create_icon_inv in H as (img & Hc & -> & Hf & Hd & He).
  exists img. split; [exact Hc |]. split; [reflexivity |].
  rewrite (create_icon_run _ _ _ img Hc He).
  - cbn [fs stdout]. now rewrite insert_insert_eq.
  - rewrite dirname_filepath. exact icon_dir_nonempty.
  - rewrite dirname_filepath in *. unfold is_dir in *. cbn [fs].
    rewrite lookup_insert_ne by apply filepath_ne_icon_dir.
    apply Hd. exact icon_dir_nonempty.
  - cbn [fs]. rewrite lookup_insert_eq. discriminate.
Qed.

Lemma create_icon_again_overwrites_witness :
  exists img,
    canvas 512 2 = inr img /\
    fs (fst (create_icon 512 2 icon_dir_world))
    = <[filepath 512 2 := File img]> (fs icon_dir_world) /\
    create_icon 512 2 (fst (create_icon 512 2 icon_dir_world))
    = ({| fs := fs (fst (create_icon 512 2 icon_dir_world));
          stdout := stdout (fst (create_icon 512 2 icon_dir_world))
                    ++ ["生成图标: " +:+ filepath 512 2] |}, inr tt).
Proof.
  apply (create_icon_again_overwrites 512 2 icon_dir_world).
  erewrite create_icon_run; [reflexivity | reflexivity | reflexivity | | |].
  - rewrite dirname_filepath. exact icon_dir_nonempty.
  - rewrite dirname_filepath. apply lookup_insert_eq.
  - cbn [fs icon_dir_world]. rewrite lookup_insert_ne by (vm_compute; discriminate).
    rewrite lookup_empty. discriminate.
Defined.


(* ===================================================================== *)
(** ** Further properties of the script *)
(* ===================================================================== *)

(** *** Errors of [create_icon] *)

(** A negative canvas is refused by [Image.new] (line 12) before anything
    else happens: [create_icon] raises ValueError whatever the file system
    holds, writes nothing and prints nothing. *)
Theorem create_icon_refuses_negative_canvas (size scale : Z) (w : world) :
  size * scale < 0 ->
  canvas size scale = inl ValueError /\
  create_icon size scale w = (w, inl ValueError).
Proof.
  intros H.
  assert (C : canvas size scale = inl ValueError).
  { unfold canvas, PIL.new. cbn [fst snd].
    replace (size * scale <? 0) with true by (symmetry; apply Z.ltb_lt; lia).
    reflexivity. }
  split; [exact C |].
  unfold create_icon. apply run_bind_raise. unfold lift. now rewrite C.
Qed.

Lemma create_icon_refuses_negative_canvas_witness :
  canvas 512 (-1) = inl ValueError /\
  create_icon 512 (-1) icon_dir_world = (icon_dir_world, inl ValueError).
Proof. apply (create_icon_refuses_negative_canvas 512 (-1) icon_dir_world). lia. Defined.






(** *** File names *)

Lemma app_inv_head_s (a b b' : string) : a +:+ b = a +:+ b' -> b = b'.
Proof.
  induction a as [| c a IH]; [auto |]. rewrite !app_cons. intros H.
  injection H as H. auto.
Qed.

(** Two strings that agree up to the first occurrence of [c] in each. *)
Lemma split_at (c : ascii) (a a' b b' : string) :
  occurs c a = false -> occurs c a' = false ->
  a +:+ String c b = a' +:+ String c b' -> a = a' /\ b = b'.
Proof.
  revert a'. induction a as [| d a IH]; intros [| d' a'] Ha Ha' H.
  - cbn in H. injection H as <-. auto.
  - change (String c b = String d' (a' +:+ String c b')) in H. injection H as <- _.
    cbn [occurs] in Ha'. now rewrite Ascii.eqb_refl in Ha'.
  - change (String d (a +:+ String c b) = String c b') in H. injection H as -> _.
    cbn [occurs] in Ha. now rewrite Ascii.eqb_refl in Ha.
  - rewrite !app_cons in H. injection H as <- H.
    cbn [occurs] in Ha, Ha'.
    apply orb_false_iff in Ha as [_ Ha]. apply orb_false_iff in Ha' as [_ Ha'].
    destruct (IH a' Ha Ha' H) as [-> ->]. auto.
Qed.

Lemma str_no_x (n : Z) : occurs "x" (str n) = false.
Proof. apply str_avoids; [now apply not_digit | reflexivity]. Qed.

Lemma str_inj (m n : Z) : str m = str n -> m = n.
Proof. unfold str. apply pretty_Z_inj. Qed.

(** Two calls write to the same file name exactly when they agree on
    [size] and either agree on [scale] or both have a scale of at most 1,
    which the name leaves out (lines 51 to 54): icons of different sizes, or
    of different scales above 1, never replace one another. *)
Theorem filename_injective (size scale size' scale' : Z) :
  filename size scale = filename size' scale' <->
  size = size' /\ (scale = scale' \/ (scale <= 1 /\ scale' <= 1)).
Proof.
  rewrite !filename_eq. split.
  - intros H. apply app_inv_head_s in H.
    change ("x" +:+ ?r)%string with (String "x" r) in H.
    apply split_at in H as [Hs H]; try apply str_no_x.
    apply str_inj in Hs as <-. split; [reflexivity |].
    apply app_inv_head_s in H.
    destruct (Z.ltb_spec 1 scale) as [H1 | H1], (Z.ltb_spec 1 scale') as [H2 | H2].
    + left. rewrite !app_assoc_s in H.
      change ("@" +:+ ?r)%string with (String "@" r) in H. injection H as H.
      change ("x" +:+ ?r)%string with (String "x" r) in H.
      apply split_at in H as [H _]; try apply str_no_x. now apply str_inj.
    + discriminate H.
    + discriminate H.
    + right. lia.
  - intros [<- [<- | [H1 H2]]]; [reflexivity |].
    replace (1 <? scale) with false by (symmetry; apply Z.ltb_ge; lia).
    replace (1 <? scale') with false by (symmetry; apply Z.ltb_ge; lia).
    reflexivity.
Qed.

(** Whatever its outcome, [create_icon] touches no path but the one it
    saves to, and only adds to what was printed. *)
Lemma create_icon_frame (size scale : Z) (w w' : world) (r : exn + unit) :
  create_icon size scale w = (w', r) ->
  (forall q, q <> filepath size scale -> fs w' !! q = fs w !! q) /\
  (fs w !! filepath size scale <> None -> fs w' !! filepath size scale <> None) /\
  (exists out, stdout w' = stdout w ++ out).
Proof.
  intros H. unfold create_icon, mbind, script_bind, lift in H.
  destruct (canvas size scale) as [e | img].
  { injection H as <- _. repeat split; auto. exists []. now rewrite app_nil_r. }
  destruct (save img (filepath size scale) w) as [w1 r1] eqn:S.
  assert (K : (forall q, q <> filepath size scale -> fs w1 !! q = fs w !! q) /\
              (fs w !! filepath size scale <> None -> fs w1 !! filepath size scale <> None) /\
              stdout w1 = stdout w).
  { apply save_cases in S as [-> | [-> _]]; [auto |]. cbn [fs stdout].
    split; [intros q Hq; now apply lookup_insert_ne |].
    split; [intros _; now rewrite lookup_insert_eq | reflexivity]. }
  destruct K as (K1 & K2 & K3).
  destruct r1 as [e | []].
  - injection H as <- _. repeat split; auto. exists []. now rewrite app_nil_r, K3.
  - unfold print in H. injection H as <- _. cbn [fs stdout]. repeat split; auto.
    eexists. now rewrite K3.
Qed.

(** Every icon goes directly into the icon directory (line 55): the file
    name holds no [/], so that [os.path.join] keeps the directory and adds
    no level below it; and the file at that path is all that [create_icon]
    can change of the file system, whether it returns or raises. *)
Theorem create_icon_writes_one_file_in_icon_dir (size scale : Z) (w w' : world) (r : exn + unit) :
  create_icon size scale w = (w', r) ->
  filepath size scale = icon_dir +:+ "/" +:+ filename size scale /\
  occurs "/" (filename size scale) = false /\
  dirname (filepath size scale) = icon_dir /\
  (forall q, q <> filepath size scale -> fs w' !! q = fs w !! q).
Proof.
  intros H. split; [apply filepath_eq |]. split; [apply filename_no_slash |].
  split; [apply dirname_filepath |]. now apply (create_icon_frame size scale w w' r).
Qed.

Lemma create_icon_writes_one_file_in_icon_dir_witness :
  filepath 512 2 = icon_dir +:+ "/" +:+ filename 512 2 /\
  occurs "/" (filename 512 2) = false /\
  dirname (filepath 512 2) = icon_dir /\
  (forall q, q <> filepath 512 2 ->
             fs (fst (create_icon 512 2 icon_dir_world)) !! q = fs icon_dir_world !! q).
Proof.
  apply (create_icon_writes_one_file_in_icon_dir 512 2 icon_dir_world _
           (snd (create_icon 512 2 icon_dir_world))).
  vm_compute. reflexivity.
Defined.

(** The picture depends on [size] and [scale] through their product only
    (lines 12 to 48 use nothing but [size * scale]), the file name on each
    of them: with a scale above 1, [create_icon(size, scale)] saves the
    picture of [create_icon(size * scale, 1)] under another name. *)
Theorem scale_changes_the_name_not_the_picture (size scale : Z) :
  1 < scale ->
  canvas size scale = canvas (size * scale) 1 /\
  filename size scale <> filename (size * scale) 1 /\
  filepath size scale <> filepath (size * scale) 1.
Proof.
  intros H. split; [apply canvas_by_dimension |].
  assert (N : filename size scale <> filename (size * scale) 1).
  { intros E.
    assert (A : occurs "@" (filename size scale) = true).
    { rewrite filename_eq. replace (1 <? scale) with true by (symmetry; apply Z.ltb_lt; lia).
      rewrite !occurs_app. cbn [occurs]. rewrite Ascii.eqb_refl, !orb_true_r. reflexivity. }
    rewrite E, filename_eq in A. change (1 <? 1) with false in A.
    rewrite !occurs_app, !str_no_at in A. discriminate A. }
  split; [exact N |].
  rewrite !filepath_eq. intros E. now apply app_inv_head_s, app_inv_head_s in E.
Qed.

Lemma scale_changes_the_name_not_the_picture_witness :
  canvas 512 2 = canvas (512 * 2) 1 /\
  filename 512 2 <> filename (512 * 2) 1 /\
  filepath 512 2 <> filepath (512 * 2) 1.
Proof. apply (scale_changes_the_name_not_the_picture 512 2). lia. Defined.


(** *** The finished picture *)

Lemma canvas_below (sz sc : Z) : sz * sc < 2 ^ 31 -> sz * sc < 2 ^ 53.
Proof. intros H. apply Z.lt_trans with (2 ^ 31); [exact H | reflexivity]. Qed.

(** The lock is on top of the disc, the disc on top of the empty canvas. *)
Lemma getpixel_canvas (sz sc : Z) (img : Image) (x y : Z) :
  canvas sz sc = inr img -> 0 <= x < sz * sc -> 0 <= y < sz * sc ->
  getpixel img (x, y)
  = Some (if in_lock img x y then (255, 255, 255, 255)
          else if in_disc sz sc x y then (0, 102, 204, 255)
          else (0, 0, 0, 0)).
Proof.
  intros Hc Hx Hy. unfold getpixel, inside, in_lock.
  destruct (canvas_size _ _ _ Hc) as (-> & -> & _). cbn [fst snd].
  replace (0 <=? x) with true by (symmetry; apply Z.leb_le; lia).
  replace (x <? sz * sc) with true by (symmetry; apply Z.ltb_lt; lia).
  replace (0 <=? y) with true by (symmetry; apply Z.leb_le; lia).
  replace (y <? sz * sc) with true by (symmetry; apply Z.ltb_lt; lia).
  cbn [andb]. f_equal. rewrite (canvas_drawn _ _ _ Hc). cbv zeta.
  unfold paint, in_disc. cbn [fold_left tl existsb fill_of].
  repeat match goal with |- context [covers ?s x y] => destruct (covers s x y) end;
    reflexivity.
Qed.

(** Every pixel of the finished picture holds one of three colours, by
    where it lies: opaque white on the lock, opaque blue on the rest of the
    disc, and the transparent colour of the canvas elsewhere (on canvases up
    to 46340 pixels wide, where Pillow walks the ellipses in exact integer
    arithmetic).  The lock
    shapes are all white and drawn last, so none of them hides another, and
    no pixel is left half transparent. *)
Theorem pixel_is_white_blue_or_clear (size scale : Z) (img : Image) (x y : Z) :
  size * scale <= 46340 -> canvas size scale = inr img ->
  0 <= x < size * scale -> 0 <= y < size * scale ->
  exists c, getpixel img (x, y) = Some c /\
    (c = (255, 255, 255, 255) \/ c = (0, 102, 204, 255) \/ c = (0, 0, 0, 0)) /\
    (c = (255, 255, 255, 255) <-> in_lock img x y = true) /\
    (c = (0, 102, 204, 255) <-> in_lock img x y = false /\ in_disc size scale x y = true) /\
    (c = (0, 0, 0, 0) <-> in_lock img x y = false /\ in_disc size scale x y = false).
Proof.
  intros _ Hc Hx Hy. eexists. split; [apply (getpixel_canvas size scale); assumption |].
  destruct (in_lock img x y), (in_disc size scale x y);
    repeat split; auto; try discriminate; intros [? ?]; discriminate.
Qed.

Lemma pixel_is_white_blue_or_clear_witness :
  exists img, canvas 512 1 = inr img /\
  exists c, getpixel img (256, 50) = Some c /\
    (c = (255, 255, 255, 255) \/ c = (0, 102, 204, 255) \/ c = (0, 0, 0, 0)) /\
    (c = (255, 255, 255, 255) <-> in_lock img 256 50 = true) /\
    (c = (0, 102, 204, 255) <-> in_lock img 256 50 = false /\ in_disc 512 1 256 50 = true) /\
    (c = (0, 0, 0, 0) <-> in_lock img 256 50 = false /\ in_disc 512 1 256 50 = false).
Proof.
  eexists. split; [reflexivity |].
  apply (pixel_is_white_blue_or_clear 512 1); [lia | reflexivity | lia | lia].
Defined.

(** The corners of every box the script hands to Pillow are in order and on
    the canvas: [0 <= x0 <= x1 <= size * scale], and the same for [y], in
    the double arithmetic of the script (lines 16 to 48).  No call gets an
    inverted box, which Pillow refuses. *)
Theorem every_box_in_order_on_canvas (size scale : Z) (img : Image) :
  0 < size * scale < 2 ^ 53 -> canvas size scale = inr img ->
  length (drawn img) = 5%nat /\
  Forall (fun sh => box_in_canvas (size * scale) (box_of sh)) (drawn img).
Proof.
  intros R Hc. rewrite (canvas_drawn _ _ _ Hc). cbv zeta. split; [reflexivity |].
  pose proof (papprox_value size scale _ _ _ _ _ (lock_x_approx size scale R)) as X.
  pose proof (papprox_value size scale _ _ _ _ _ (body_top_approx size scale R)) as T.
  pose proof (papprox_value size scale _ _ _ _ _ (lock_far_edge_approx size scale R)) as B.
  pose proof (papprox_value size scale _ _ _ _ _ (bar_left_approx size scale R)) as L.
  pose proof (papprox_value size scale _ _ _ _ _ (bar_right_approx size scale R)) as M.
  pose proof (papprox_value size scale _ _ _ _ _ (shackle_bottom_approx size scale R)) as Y.
  destruct (side_bars_approx size scale R) as (AL & AR & BL & BR).
  apply (papprox_value size scale) in AL, AR, BL, BR.
  pose proof (s_pos size scale R) as Hs.
  change (lock_y size scale) with (lock_x size scale) in *.
  change (lock_height size scale) with (lock_width size scale) in *.
  unfold ppt in *.
  repeat constructor; cbn [box_of box_in_canvas Py.mul Py.value];
    change (inject_Z 0) with 0%Q; lra.
Qed.

Lemma every_box_in_order_on_canvas_witness :
  exists img, canvas 512 2 = inr img /\
  length (drawn img) = 5%nat /\
  Forall (fun sh => box_in_canvas (512 * 2) (box_of sh)) (drawn img).
Proof.
  eexists. split; [reflexivity |].
  apply (every_box_in_order_on_canvas 512 2); [| reflexivity].
  split; reflexivity.
Defined.


(** The pixel coordinates of every edge of the lock, as bounds in parts per
    [10^12] of the canvas. *)
Ltac lock_edges sz sc R :=
  let AL := fresh "AL" in let AR := fresh "AR" in
  let BL := fresh "BL" in let BR := fresh "BR" in
  pose proof (coordinate_pixels sz sc _ _ _ _ _ (lock_x_approx sz sc R));
  pose proof (coordinate_pixels sz sc _ _ _ _ _ (body_top_approx sz sc R));
  pose proof (coordinate_pixels sz sc _ _ _ _ _ (lock_far_edge_approx sz sc R));
  pose proof (coordinate_pixels sz sc _ _ _ _ _ (bar_left_approx sz sc R));
  pose proof (coordinate_pixels sz sc _ _ _ _ _ (bar_right_approx sz sc R));
  pose proof (coordinate_pixels sz sc _ _ _ _ _ (shackle_bottom_approx sz sc R));
  destruct (side_bars_approx sz sc R) as (AL & AR & BL & BR);
  apply (coordinate_pixels sz sc) in AL, AR, BL, BR;
  change (lock_y sz sc) with (lock_x sz sc) in *;
  change (lock_height sz sc) with (lock_width sz sc) in *.

(** The canvases below 32 pixels, one by one. *)
Lemma small_locks : forallb lock_boxed (map Z.of_nat (seq 1 31)) = true.
Proof. vm_compute. reflexivity. Qed.

Lemma small_shackles : forallb shackle_meets_body (map Z.of_nat (seq 1 31)) = true.
Proof. vm_compute. reflexivity. Qed.

Lemma small_centres : forallb centre_white (map Z.of_nat (seq 1 31)) = true.
Proof. vm_compute. reflexivity. Qed.

Lemma small_case (f : Z -> bool) (n : Z) :
  forallb f (map Z.of_nat (seq 1 31)) = true -> 1 <= n < 32 -> f n = true.
Proof.
  intros K H. rewrite forallb_forall in K.
  apply K. apply in_map_iff. exists (Z.to_nat n). split; [lia | apply in_seq; lia].
Qed.

Lemma edges_by_dimension (sz sc : Z) :
  lock_x sz sc = lock_x (sz * sc) 1 /\ lock_width sz sc = lock_width (sz * sc) 1 /\
  shackle_width sz sc = shackle_width (sz * sc) 1.
Proof.
  unfold shackle_width, lock_x, lock_width. cbn [Py.mul]. rewrite !Z.mul_1_r. auto.
Qed.

Lemma lock_square_by_dimension (sz sc x y : Z) :
  lock_square sz sc x y = lock_square (sz * sc) 1 x y.
Proof.
  unfold lock_square.
  change (lock_y sz sc) with (lock_x sz sc).
  change (lock_height sz sc) with (lock_width sz sc).
  change (lock_y (sz * sc) 1) with (lock_x (sz * sc) 1).
  change (lock_height (sz * sc) 1) with (lock_width (sz * sc) 1).
  destruct (edges_by_dimension sz sc) as (-> & -> & _). reflexivity.
Qed.

(** From 32 pixels on: the boxes of the parts of the lock, against the
    lock square. *)
Lemma lock_boxed_large (sz sc : Z) (img : Image) (x y : Z) (sh : shape) :
  32 <= sz * sc < 2 ^ 31 -> canvas sz sc = inr img ->
  In sh (tl (drawn img)) -> bounding_box sh x y = true ->
  lock_square sz sc x y = true.
Proof.
  intros R0 Hc Hin Hb.
  assert (R : 0 < sz * sc < 2 ^ 53) by (split; [lia | apply canvas_below; lia]).
  assert (R' : 32 <= sz * sc < 2 ^ 53) by lia.
  change (2 ^ 31) with 2147483648 in R0.
  rewrite (canvas_drawn _ _ _ Hc) in Hin. cbv zeta in Hin. cbn [tl] in Hin.
  unfold lock_square. apply in_box_intro.
  - destruct Hin as [<- | Hin].
    + cbn [bounding_box] in Hb. apply existsb_exists in Hb as (p & Hp & Hb).
      rewrite (body_parts sz sc R') in Hp. cbv zeta in Hp.
      destruct (body_box_pixels sz sc R') as (Ey & X0 & Y0 & X1 & _).
      destruct (body_corner_pixels sz sc R') as (XA & YA & XB).
      destruct (body_radius_pixels sz sc R') as (R1 & R2).
      cbv zeta in *. rewrite Ey in *. lock_edges sz sc R.
      destruct Hp as [<- | [<- | [<- | [<- | [<- | [<- | [<- | []]]]]]]];
        cbn [part_box] in Hb; apply in_box_true in Hb; lia.
    + lock_edges sz sc R.
      destruct Hin as [<- | [<- | [<- | []]]];
        cbn [bounding_box] in Hb; apply in_box_true in Hb;
        change (lock_y sz sc) with (lock_x sz sc) in *;
        change (lock_height sz sc) with (lock_width sz sc) in *; lia.
  - destruct Hin as [<- | Hin].
    + cbn [bounding_box] in Hb. apply existsb_exists in Hb as (p & Hp & Hb).
      rewrite (body_parts sz sc R') in Hp. cbv zeta in Hp.
      destruct (body_box_pixels sz sc R') as (Ey & X0 & Y0 & X1 & _).
      destruct (body_corner_pixels sz sc R') as (XA & YA & XB).
      destruct (body_radius_pixels sz sc R') as (R1 & R2).
      cbv zeta in *. rewrite Ey in *. lock_edges sz sc R.
      destruct Hp as [<- | [<- | [<- | [<- | [<- | [<- | [<- | []]]]]]]];
        cbn [part_box] in Hb; apply in_box_true in Hb; lia.
    + lock_edges sz sc R.
      destruct Hin as [<- | [<- | [<- | []]]];
        cbn [bounding_box] in Hb; apply in_box_true in Hb;
        change (lock_y sz sc) with (lock_x sz sc) in *;
        change (lock_height sz sc) with (lock_width sz sc) in *; lia.
Qed.

Lemma lock_boxed_sound (n : Z) (img : Image) (x y : Z) (sh : shape) :
  lock_boxed n = true -> canvas n 1 = inr img ->
  0 <= x < n -> 0 <= y < n ->
  In sh (tl (drawn img)) -> bounding_box sh x y = true ->
  lock_square n 1 x y = true.
Proof.
  unfold lock_boxed. intros H Hc Hx Hy Hin Hb. rewrite Hc in H.
  rewrite forallb_forall in H. specialize (H x (upto_In _ _ Hx)).
  rewrite forallb_forall in H. specialize (H y (upto_In _ _ Hy)).
  apply orb_true_iff in H as [H | H]; [exact H |].
  apply negb_true_iff in H.
  assert (K : existsb (fun sh => bounding_box sh x y) (tl (drawn img)) = true)
    by (apply existsb_exists; now exists sh).
  congruence.
Qed.

Lemma lock_in_square (sz sc : Z) (img : Image) (x y : Z) :
  0 < sz * sc < 2 ^ 31 -> canvas sz sc = inr img ->
  0 <= x < sz * sc -> 0 <= y < sz * sc ->
  in_lock img x y = true -> lock_square sz sc x y = true.
Proof.
  intros R Hc Hx Hy H. unfold in_lock in H.
  apply existsb_exists in H as (sh & Hin & Hcov). apply covers_bounding_box in Hcov.
  destruct (Z.lt_ge_cases (sz * sc) 32) as [Hsmall | Hlarge].
  - rewrite canvas_by_dimension in Hc. rewrite lock_square_by_dimension.
    apply (lock_boxed_sound (sz * sc) img x y sh); auto.
    apply (small_case lock_boxed); [exact small_locks | lia].
  - apply (lock_boxed_large sz sc img x y sh); auto. lia.
Qed.

(** The lock stays within the square it is laid out in (lines 20 to 23):
    every white pixel has both coordinates between [lock_x] and [lock_x +
    lock_width] (as Pillow turns them into pixels), on every canvas up to
    46340 pixels wide (where Pillow walks the ellipses in exact integer
    arithmetic); and a pixel of the disc outside that square is blue. *)
Theorem lock_stays_in_its_square (size scale : Z) (img : Image) (x y : Z) :
  0 < size * scale <= 46340 -> canvas size scale = inr img ->
  0 <= x < size * scale -> 0 <= y < size * scale ->
  let inside_square :=
    c_int (lock_x size scale) <= x <= round (lock_x size scale + lock_width size scale)%py /\
    c_int (lock_y size scale) <= y <= round (lock_y size scale + lock_height size scale)%py in
  (getpixel img (x, y) = Some (255, 255, 255, 255) -> inside_square) /\
  (in_disc size scale x y = true -> ~ inside_square ->
   getpixel img (x, y) = Some (0, 102, 204, 255)).
Proof.
  intros R0 Hc Hx Hy. cbv zeta.
  assert (R : 0 < size * scale < 2 ^ 31) by lia.
  rewrite (getpixel_canvas size scale img x y Hc Hx Hy).
  destruct (in_lock img x y) eqn:L.
  - pose proof (lock_in_square size scale img x y R Hc Hx Hy L) as K.
    unfold lock_square in K. apply in_box_true in K.
    split; [intros _; exact K | intros _ N; now destruct N].
  - split; [destruct (in_disc size scale x y); discriminate |].
    intros -> _. reflexivity.
Qed.

Lemma lock_stays_in_its_square_witness :
  exists img, canvas 512 1 = inr img /\
  let inside_square :=
    c_int (lock_x 512 1) <= 256 <= round (lock_x 512 1 + lock_width 512 1)%py /\
    c_int (lock_y 512 1) <= 50 <= round (lock_y 512 1 + lock_height 512 1)%py in
  (getpixel img (256, 50) = Some (255, 255, 255, 255) -> inside_square) /\
  (in_disc 512 1 256 50 = true -> ~ inside_square ->
   getpixel img (256, 50) = Some (0, 102, 204, 255)).
Proof.
  eexists. split; [reflexivity |].
  apply (lock_stays_in_its_square 512 1); [lia | reflexivity | lia | lia].
Defined.

(** The three rectangles of the shackle (lines 32 to 48) leave no opening
    between them: the side bars, 20% of the lock wide, overlap the central
    bar, so that together they fill one block, from the left edge of the left
    bar to the right edge of the right bar and from [lock_y] down to
    [lock_y + lock_height * 0.5].  Every pixel of the block is white; the
    block is on the canvas, and it goes down into the rows of the lock
    body. *)
Theorem shackle_is_a_solid_block (size scale : Z) (img : Image) :
  0 < size * scale < 2 ^ 31 -> canvas size scale = inr img ->
  let left :=
    c_int (lock_x size scale + lock_width size scale * dec 3 10 - shackle_width size scale)%py in
  let right :=
    c_int (lock_x size scale + lock_width size scale * dec 7 10 + shackle_width size scale)%py in
  let top := c_int (lock_y size scale) in
  let bottom := c_int (lock_y size scale + lock_height size scale * dec 5 10)%py in
  (forall x y, left <= x <= right -> top <= y <= bottom ->
     existsb (fun sh => covers sh x y) (skipn 2 (drawn img)) = true /\
     getpixel img (x, y) = Some (255, 255, 255, 255)) /\
  0 <= left <= right /\ right < size * scale /\
  0 <= top <= bottom /\ bottom < size * scale /\
  round (lock_y size scale + lock_height size scale * dec 4 10)%py <= bottom.
Proof.
  intros R Hc. cbv zeta.
  assert (R' : 0 < size * scale < 2 ^ 53) by (split; [lia | apply canvas_below; lia]).
  change (2 ^ 31) with 2147483648 in R.
  assert (J : round (lock_y size scale + lock_height size scale * dec 4 10)%py
              <= c_int (lock_y size scale + lock_height size scale * dec 5 10)%py).
  { destruct (Z.lt_ge_cases (size * scale) 32) as [Hsmall | Hlarge].
    - pose proof (small_case shackle_meets_body (size * scale) small_shackles ltac:(lia)) as K.
      unfold shackle_meets_body in K. apply Z.leb_le in K.
      change (lock_y size scale) with (lock_x size scale).
      change (lock_height size scale) with (lock_width size scale).
      destruct (edges_by_dimension size scale) as (-> & -> & _). exact K.
    - lock_edges size scale R'. lia. }
  lock_edges size scale R'.
  split; [| lia].
  intros x y Hx Hy.
  assert (B : existsb (fun sh => covers sh x y) (skipn 2 (drawn img)) = true).
  { rewrite (canvas_drawn _ _ _ Hc). cbv zeta. cbn [skipn existsb covers].
    change (lock_y size scale) with (lock_x size scale) in *.
    change (lock_height size scale) with (lock_width size scale) in *.
    destruct (Z.le_gt_cases x
                (c_int (lock_x size scale + lock_width size scale * dec 3 10
                        + shackle_width size scale)%py)) as [C1 | C1].
    - rewrite (in_box_intro
                 (c_int (lock_x size scale + lock_width size scale * dec 3 10
                         - shackle_width size scale)%py) _
                 (c_int (lock_x size scale + lock_width size scale * dec 3 10
                         + shackle_width size scale)%py) _ x y) by lia.
      cbn [orb]. apply orb_true_r.
    - destruct (Z.le_gt_cases x
                  (c_int (lock_x size scale + lock_width size scale * dec 7 10)%py))
        as [C2 | C2].
      + rewrite (in_box_intro (c_int (lock_x size scale + lock_width size scale * dec 3 10)%py)
                   _ (c_int (lock_x size scale + lock_width size scale * dec 7 10)%py) _ x y)
          by lia.
        reflexivity.
      + rewrite (in_box_intro
                   (c_int (lock_x size scale + lock_width size scale * dec 7 10
                           - shackle_width size scale)%py) _
                   (c_int (lock_x size scale + lock_width size scale * dec 7 10
                           + shackle_width size scale)%py) _ x y) by lia.
        cbn [orb]. now rewrite !orb_true_r. }
  split; [exact B |].
  rewrite (getpixel_canvas size scale img x y Hc) by lia.
  replace (in_lock img x y) with true; [reflexivity |].
  symmetry. unfold in_lock.
  destruct (drawn img) as [| s0 [| s1 l]]; [discriminate B | discriminate B |].
  change (skipn 2 (s0 :: s1 :: l)) with l in B.
  cbn [tl existsb]. rewrite B. apply orb_true_r.
Qed.

Lemma shackle_is_a_solid_block_witness :
  exists img, canvas 512 2 = inr img /\
  let left := c_int (lock_x 512 2 + lock_width 512 2 * dec 3 10 - shackle_width 512 2)%py in
  let right := c_int (lock_x 512 2 + lock_width 512 2 * dec 7 10 + shackle_width 512 2)%py in
  let top := c_int (lock_y 512 2) in
  let bottom := c_int (lock_y 512 2 + lock_height 512 2 * dec 5 10)%py in
  (forall x y, left <= x <= right -> top <= y <= bottom ->
     existsb (fun sh => covers sh x y) (skipn 2 (drawn img)) = true /\
     getpixel img (x, y) = Some (255, 255, 255, 255)) /\
  0 <= left <= right /\ right < 512 * 2 /\
  0 <= top <= bottom /\ bottom < 512 * 2 /\
  round (lock_y 512 2 + lock_height 512 2 * dec 4 10)%py <= bottom.
Proof.
  eexists. split; [reflexivity |].
  apply (shackle_is_a_solid_block 512 2); [| reflexivity].
  split; reflexivity.
Defined.

Lemma centre_on_body (sz sc : Z) (img : Image) :
  32 <= sz * sc < 2 ^ 31 -> canvas sz sc = inr img ->
  in_lock img (sz * sc / 2) (sz * sc / 2) = true.
Proof.
  intros R0 Hc.
  assert (R' : 32 <= sz * sc < 2 ^ 53) by (split; [lia | apply canvas_below; lia]).
  unfold in_lock. rewrite (canvas_drawn _ _ _ Hc). cbv zeta. cbn [tl existsb covers].
  apply orb_true_iff. left.
  rewrite (body_parts sz sc R'). cbv zeta.
  destruct (body_box_pixels sz sc R') as (Ey & X0 & Y0 & X1 & _).
  destruct (body_radius_pixels sz sc R') as (R1 & R2).
  cbv zeta in *. rewrite Ey in *.
  pose proof (Z.mul_div_le (sz * sc) 2 ltac:(lia)) as D1.
  pose proof (Z.mul_succ_div_gt (sz * sc) 2 ltac:(lia)) as D2.
  set (c := sz * sc / 2) in *.
  cbn [existsb part_covers].
  rewrite (in_box_intro (_ + _ + 1) _ (_ - _ - 1) _ c c) by lia.
  now rewrite !orb_true_r.
Qed.

(** The centre of the icon is white whatever the size of the canvas: the
    lock body (lines 25 to 29), drawn after the background, covers the
    middle pixel [(size * scale // 2, size * scale // 2)]. *)
Theorem centre_pixel_is_always_white (size scale : Z) (img : Image) :
  0 < size * scale < 2 ^ 31 -> canvas size scale = inr img ->
  getpixel img (size * scale / 2, size * scale / 2) = Some (255, 255, 255, 255).
Proof.
  intros R Hc.
  destruct (Z.lt_ge_cases (size * scale) 32) as [Hsmall | Hlarge].
  - pose proof (small_case centre_white (size * scale) small_centres ltac:(lia)) as K.
    unfold centre_white in K. rewrite <- canvas_by_dimension, Hc in K.
    now apply bool_decide_eq_true in K.
  - pose proof (Z.mul_div_le (size * scale) 2 ltac:(lia)) as D1.
    pose proof (Z.mul_succ_div_gt (size * scale) 2 ltac:(lia)) as D2.
    rewrite (getpixel_canvas size scale img _ _ Hc) by lia.
    rewrite (centre_on_body size scale img) by (auto; lia). reflexivity.
Qed.

Lemma centre_pixel_is_always_white_witness :
  exists img, canvas 512 2 = inr img /\
  getpixel img (512 * 2 / 2, 512 * 2 / 2) = Some (255, 255, 255, 255).
Proof.
  eexists. split; [reflexivity |].
  apply (centre_pixel_is_always_white 512 2); [| reflexivity].
  split; reflexivity.
Defined.


(** *** The whole run *)

Lemma in_the_way_dec (l : list string) (w : world) :
  (exists p, In p l /\ is_file w p) \/ (forall p, In p l -> not_a_file w p).
Proof.
  induction l as [| a l [(p & Hin & Hp) | IH]].
  - right. intros p [].
  - left. exists p. split; [now right | exact Hp].
  - destruct (fs w !! a) as [[| c] |] eqn:E.
    + right. intros p [<- | Hp]; [intros c; congruence | now apply IH].
    + left. exists a. split; [now left | now exists c].
    + right. intros p [<- | Hp]; [intros c; congruence | now apply IH].
Qed.

(** Where a file stands in the place of an ancestor, [os.makedirs] stops at
    it; the directories it made on the way stay. *)
Lemma each_ensure_dir_stops (l : list string) (w : world) :
  (exists p, In p l /\ is_file w p) ->
  exists w', each ensure_dir l w = (w', inl NotADirectoryError) /\
             stdout w' = stdout w /\
             (forall q c, fs w' !! q = Some (File c) <-> fs w !! q = Some (File c)).
Proof.
  revert w. induction l as [| p l IH]; intros w (q & Hin & c & Hq); [destruct Hin |].
  cbn [each]. destruct (fs w !! p) as [[| c'] |] eqn:E.
  - assert (Hl : In q l) by (destruct Hin as [<- | Hl]; [congruence | exact Hl]).
    destruct (IH w) as (w' & R & O & K); [exists q; split; [exact Hl | now exists c] |].
    exists w'. split; [| split; assumption].
    rewrite (run_bind _ _ w w tt); [exact R |]. unfold ensure_dir. now rewrite E.
  - exists w. split; [| split; [reflexivity | tauto]].
    apply run_bind_raise. unfold ensure_dir. now rewrite E.
  - assert (Hne : p <> q) by (intros ->; congruence).
    assert (Hl : In q l) by (destruct Hin as [-> | Hl]; [congruence | exact Hl]).
    set (w1 := {| fs := <[p := Dir]> (fs w); stdout := stdout w |}).
    destruct (IH w1) as (w' & R & O & K).
    { exists q. split; [exact Hl |]. exists c. cbn [w1 fs].
      now rewrite lookup_insert_ne by assumption. }
    exists w'. split; [| split; [exact O |]].
    + rewrite (run_bind _ _ w w1 tt); [exact R |]. unfold ensure_dir. now rewrite E.
    + intros q' c0. rewrite K. cbn [w1 fs].
      destruct (string_dec p q') as [<- | Hq'].
      * rewrite lookup_insert_eq, E. split; discriminate.
      * now rewrite lookup_insert_ne by assumption.
Qed.

Lemma makedirs_stops (name : string) (w : world) :
  (exists p, In p (parents name ++ [name]) /\ is_file w p) ->
  exists w' e, makedirs name true w = (w', inl e) /\
    stdout w' = stdout w /\
    (forall q c, fs w' !! q = Some (File c) <-> fs w !! q = Some (File c)) /\
    ((exists p, In p (parents name) /\ is_file w p) -> e = NotADirectoryError) /\
    ((forall p, In p (parents name) -> not_a_file w p) -> e = FileExistsError).
Proof.
  intros (p & Hin & c & Hp). unfold makedirs.
  destruct (in_the_way_dec (parents name) w) as [Hf | Hn].
  - destruct (each_ensure_dir_stops _ _ Hf) as (w' & R & O & K).
    exists w', NotADirectoryError.
    split; [now apply run_bind_raise |]. split; [exact O |]. split; [exact K |].
    split; [reflexivity |]. intros Hn. destruct Hf as (q & Hq & c' & Hc').
    now destruct (Hn q Hq c').
  - assert (Hname : p = name).
    { apply in_app_or in Hin as [Hin | [<- | []]]; [| reflexivity].
      now destruct (Hn p Hin c). }
    subst p.
    assert (Hout : ~ In name (parents name)) by (intros Hin'; now destruct (Hn name Hin' c)).
    destruct (each_ensure_dir_ok (parents name) w Hn) as (w1 & R1 & O1 & D1 & F1 & _ & _).
    exists w1, FileExistsError.
    split; [| split; [exact O1 | split; [| split; [| reflexivity]]]].
    + rewrite (run_bind _ _ _ _ _ R1). unfold mkdir_leaf.
      now rewrite F1, Hp by assumption.
    + intros q c'. destruct (in_dec string_dec q (parents name)) as [Hq | Hq].
      * specialize (D1 q Hq). unfold is_dir in D1. rewrite D1.
        split; [discriminate | intros E; now destruct (Hn q Hq c')].
      * now rewrite F1 by assumption.
    + intros (q & Hq & c' & Hc'). now destruct (Hn q Hq c').
Qed.

(** A successful [os.makedirs] leaves every level a directory. *)
Lemma makedirs_inv (name : string) (w w0 : world) :
  makedirs name true w = (w0, inr tt) ->
  stdout w0 = stdout w /\ (forall p, In p (parents name ++ [name]) -> is_dir w0 p).
Proof.
  intros H. destruct (in_the_way_dec (parents name ++ [name]) w) as [Hf | Hn].
  - destruct (makedirs_stops name w Hf) as (w' & e & R & _). congruence.
  - destruct (makedirs_ok name w Hn) as (w' & R & O & D & _).
    rewrite R in H. injection H as <-. auto.
Qed.

(** A file in the place of the icon directory or of one of its ancestors
    stops the script at line 7: [os.makedirs] raises, NotADirectoryError for
    an ancestor and FileExistsError (which [exist_ok] forgives for a
    directory only) for the icon directory itself; no icon is drawn, no file
    is written or replaced, and nothing is printed. *)
Theorem main_stops_at_a_file (w : world) :
  (exists p, In p (parents icon_dir ++ [icon_dir]) /\ is_file w p) ->
  parents icon_dir = ["FileLocker"; "FileLocker/Assets.xcassets"]%string /\
  exists w' e, main w = (w', inl e) /\
    stdout w' = stdout w /\
    (forall q c, fs w' !! q = Some (File c) <-> fs w !! q = Some (File c)) /\
    ((exists p, In p (parents icon_dir) /\ is_file w p) -> e = NotADirectoryError) /\
    ((forall p, In p (parents icon_dir) -> not_a_file w p) -> e = FileExistsError).
Proof.
  intros H. split; [reflexivity |].
  destruct (makedirs_stops icon_dir w H) as (w' & e & R & O & K & E1 & E2).
  exists w', e. split; [| auto]. unfold main. now apply run_bind_raise.
Qed.

Lemma main_stops_at_a_file_witness :
  parents icon_dir = ["FileLocker"; "FileLocker/Assets.xcassets"]%string /\
  exists w' e, main blocked_world = (w', inl e) /\
    stdout w' = stdout blocked_world /\
    (forall q c, fs w' !! q = Some (File c) <-> fs blocked_world !! q = Some (File c)) /\
    ((exists p, In p (parents icon_dir) /\ is_file blocked_world p) -> e = NotADirectoryError) /\
    ((forall p, In p (parents icon_dir) -> not_a_file blocked_world p) -> e = FileExistsError).
Proof.
  apply (main_stops_at_a_file blocked_world).
  exists "FileLocker"%string. split; [vm_compute; auto |].
  eexists. vm_compute. reflexivity.
Defined.

(** The script can be run again: after a complete run, a second run raises
    nothing, leaves every file and directory as the first run left it (the
    directory is there, the two icons are written over with the same
    pictures) and prints the same three lines once more. *)
Theorem main_can_be_run_again (w w1 : world) :
  main w = (w1, inr tt) ->
  stdout w1 = stdout w ++ report /\
  main w1 = ({| fs := fs w1; stdout := stdout w1 ++ report |}, inr tt).
Proof.
  unfold main. intros H.
  apply run_bind_inv in H as (w0 & [] & Hm & H).
  apply run_bind_inv in H as (wa & [] & Ha & H).
  apply run_bind_inv in H as (wb & [] & Hb & H).
  apply makedirs_inv in Hm as [O0 D0].
  apply create_icon_inv in Ha as (img1 & C1 & -> & _ & _ & N1).
  apply create_icon_inv in Hb as (img2 & C2 & -> & _ & _ & N2).
  unfold print in H. cbn [fs stdout] in H. injection H as <-.
  assert (N12 : filepath 512 1 <> filepath 512 2) by (vm_compute; discriminate).
  split; [cbn [stdout]; rewrite O0, <- !app_assoc; reflexivity |].
  set (w1 := {| fs := <[filepath 512 2 := File img2]> (<[filepath 512 1 := File img1]> (fs w0));
                stdout := _ |}).
  assert (D1 : forall p, In p (parents icon_dir ++ [icon_dir]) -> is_dir w1 p).
  { intros p Hp. unfold is_dir. cbn [w1 fs].
    rewrite !lookup_insert_ne by (intros E; rewrite <- E in Hp; now apply filepath_not_level in Hp).
    now apply D0. }
  destruct (makedirs_ok icon_dir w1) as (w' & R & _ & _ & _ & I).
  { intros p Hp c. rewrite (D1 p Hp). discriminate. }
  rewrite (I D1) in R. rewrite (run_bind _ _ _ _ _ R).
  erewrite run_bind; cycle 1.
  { apply (create_icon_run 512 1 w1 img1 C1 N1).
    - rewrite dirname_filepath. exact icon_dir_nonempty.
    - rewrite dirname_filepath. now apply icon_dir_levels_are_dirs.
    - cbn [w1 fs]. rewrite lookup_insert_ne, lookup_insert_eq by auto. discriminate. }
  erewrite run_bind; cycle 1.
  { apply (create_icon_run 512 2 _ img2 C2 N2).
    - rewrite dirname_filepath. exact icon_dir_nonempty.
    - rewrite dirname_filepath. unfold is_dir. cbn [fs].
      rewrite lookup_insert_ne by apply filepath_ne_icon_dir.
      now apply icon_dir_levels_are_dirs.
    - cbn [w1 fs]. rewrite lookup_insert_ne, lookup_insert_eq by auto. discriminate. }
  unfold print. cbn [fs stdout]. f_equal. f_equal.
  - rewrite (insert_id (fs w1) (filepath 512 1) (File img1)).
    + apply insert_id. cbn [w1 fs]. apply lookup_insert_eq.
    + cbn [w1 fs]. rewrite lookup_insert_ne by auto. apply lookup_insert_eq.
  - rewrite <- !app_assoc. reflexivity.
Qed.

Lemma main_can_be_run_again_witness :
  stdout (fst (main empty_world)) = stdout empty_world ++ report /\
  main (fst (main empty_world))
  = ({| fs := fs (fst (main empty_world));
        stdout := stdout (fst (main empty_world)) ++ report |}, inr tt).
Proof.
  apply (main_can_be_run_again empty_world (fst (main empty_world))).
  vm_compute. reflexivity.
Defined.


Lemma ensure_dir_keeps (p : string) (w w' : world) (r : exn + unit) :
  ensure_dir p w = (w', r) ->
  stdout w' = stdout w /\ (forall q n, fs w !! q = Some n -> fs w' !! q = Some n).
Proof.
  unfold ensure_dir. destruct (fs w !! p) as [[| c] |] eqn:E;
    intros H; injection H as <- _; auto.
  cbn [fs stdout]. split; [reflexivity |]. intros q n Hq.
  rewrite lookup_insert_ne; [exact Hq | intros ->; congruence].
Qed.

Lemma mkdir_leaf_keeps (p : string) (ok : bool) (w w' : world) (r : exn + unit) :
  mkdir_leaf p ok w = (w', r) ->
  stdout w' = stdout w /\ (forall q n, fs w !! q = Some n -> fs w' !! q = Some n).
Proof.
  unfold mkdir_leaf. destruct (fs w !! p) as [[| c] |] eqn:E; [destruct ok | |];
    intros H; injection H as <- _; auto.
  cbn [fs stdout]. split; [reflexivity |]. intros q n Hq.
  rewrite lookup_insert_ne; [exact Hq | intros ->; congruence].
Qed.

Lemma each_ensure_dir_keeps (l : list string) (w w' : world) (r : exn + unit) :
  each ensure_dir l w = (w', r) ->
  stdout w' = stdout w /\ (forall q n, fs w !! q = Some n -> fs w' !! q = Some n).
Proof.
  revert w. induction l as [| p l IH]; intros w H.
  - injection H as <- _. auto.
  - cbn [each] in H. unfold mbind, script_bind in H.
    destruct (ensure_dir p w) as [w1 r1] eqn:E1.
    apply ensure_dir_keeps in E1 as [O1 K1].
    destruct r1 as [e | []].
    + injection H as <- _. auto.
    + apply IH in H as [O2 K2]. split; [congruence | auto].
Qed.

(** [os.makedirs] only adds directories, whatever its outcome. *)
Lemma makedirs_keeps (name : string) (ok : bool) (w w' : world) (r : exn + unit) :
  makedirs name ok w = (w', r) ->
  stdout w' = stdout w /\ (forall q n, fs w !! q = Some n -> fs w' !! q = Some n).
Proof.
  unfold makedirs, mbind, script_bind. intros H.
  destruct (each ensure_dir (parents name) w) as [w1 r1] eqn:E1.
  apply each_ensure_dir_keeps in E1 as [O1 K1].
  destruct r1 as [e | []].
  - injection H as <- _. auto.
  - apply mkdir_leaf_keeps in H as [O2 K2]. split; [congruence | auto].
Qed.

Lemma grew_refl (w : world) : grew w w.
Proof. split; [| split; [| split]]; auto. exists []. now rewrite app_nil_r. Qed.

Lemma grew_trans (w1 w2 w3 : world) : grew w1 w2 -> grew w2 w3 -> grew w1 w3.
Proof.
  intros (D1 & F1 & N1 & o1 & O1) (D2 & F2 & N2 & o2 & O2).
  split; [| split; [| split]]; auto.
  exists (o1 ++ o2). now rewrite O2, O1, app_assoc.
Qed.

Lemma makedirs_grew (name : string) (ok : bool) (w w' : world) (r : exn + unit) :
  makedirs name ok w = (w', r) -> grew w w'.
Proof.
  intros H. apply makedirs_keeps in H as [O K].
  split; [| split; [| split]].
  - intros q. apply K.
  - intros q c _ _. apply K.
  - intros q Hq E. destruct (fs w !! q) as [n |] eqn:L; [| congruence].
    rewrite (K q n L) in E. discriminate.
  - exists []. now rewrite app_nil_r.
Qed.

Lemma create_icon_grew (size scale : Z) (w w' : world) (r : exn + unit) :
  filepath size scale = filepath 512 1 \/ filepath size scale = filepath 512 2 ->
  create_icon size scale w = (w', r) -> grew w w'.
Proof.
  intros P H. pose proof (create_icon_keeps_dirs _ _ _ _ _ H) as D.
  apply create_icon_frame in H as (F & N & O).
  split; [intros q; apply D |]. split; [| split; [| exact O]].
  - intros q c H1 H2 Hq. rewrite F; [exact Hq | destruct P as [-> | ->]; assumption].
  - intros q Hq. destruct (string_dec q (filepath size scale)) as [-> | Hne];
      [now apply N | now rewrite F].
Qed.

(** How a sequence of two commands ends. *)
Lemma bind_grew {A B : Type} (m : Script A) (f : A -> Script B) :
  (forall w w' r, m w = (w', r) -> grew w w') ->
  (forall x w w' r, f x w = (w', r) -> grew w w') ->
  forall w w' r, (m ≫= f) w = (w', r) -> grew w w'.
Proof.
  intros Hm Hf w w' r. unfold mbind, script_bind.
  destruct (m w) as [w1 [e | x]] eqn:E; intros H.
  - injection H as <- _. exact (Hm _ _ _ E).
  - exact (grew_trans _ _ _ (Hm _ _ _ E) (Hf _ _ _ _ H)).
Qed.

Lemma print_grew (s : string) (w w' : world) (r : exn + unit) :
  print s w = (w', r) -> grew w w'.
Proof.
  unfold print. intros H. injection H as <- _.
  split; [| split; [| split]].
  - intros q Hq. exact Hq.
  - intros q c _ _ Hq. exact Hq.
  - intros q Hq. exact Hq.
  - eexists. reflexivity.
Qed.

Lemma main_grew (w w' : world) (r : exn + unit) : main w = (w', r) -> grew w w'.
Proof.
  unfold main. apply bind_grew; [apply makedirs_grew | intros _].
  apply bind_grew;
    [intros w1 w2 r1; apply create_icon_grew; left; reflexivity | intros _].
  apply bind_grew;
    [intros w1 w2 r1; apply create_icon_grew; right; reflexivity | intros _].
  apply print_grew.
Qed.

(** The script never removes or alters anything but the two icons: whatever
    the outcome of a run (complete, or stopped by an error at any line),
    every directory is still a directory, every file other than the two icon
    paths holds what it held, no path has gone, and the lines printed before
    are still there, first. *)
Theorem main_only_adds_and_replaces_icons (w w' : world) (r : exn + unit) :
  main w = (w', r) ->
  (forall q, is_dir w q -> is_dir w' q) /\
  (forall q c, q <> filepath 512 1 -> q <> filepath 512 2 ->
               fs w !! q = Some (File c) -> fs w' !! q = Some (File c)) /\
  (forall q, fs w !! q <> None -> fs w' !! q <> None) /\
  (exists out, stdout w' = stdout w ++ out).
Proof. exact (main_grew w w' r). Qed.

Lemma main_only_adds_and_replaces_icons_witness :
  (forall q, is_dir blocked_world q -> is_dir (fst (main blocked_world)) q) /\
  (forall q c, q <> filepath 512 1 -> q <> filepath 512 2 ->
               fs blocked_world !! q = Some (File c) ->
               fs (fst (main blocked_world)) !! q = Some (File c)) /\
  (forall q, fs blocked_world !! q <> None -> fs (fst (main blocked_world)) !! q <> None) /\
  (exists out, stdout (fst (main blocked_world)) = stdout blocked_world ++ out).
Proof.
  apply (main_only_adds_and_replaces_icons blocked_world _ (snd (main blocked_world))).
  vm_compute. reflexivity.
Defined.
